(** * Quick Chess Studio: rules engine, move-submission handler and client
    reconciliation, embedded from the TypeScript sources.

    - [src/lib/chess-engine.ts] (second document of
      [supabase/functions/validate-move/index.ts]): the rules engine.
    - [supabase/functions/validate-move/index.ts]: the submission handler.
    - [src/pages/Game.tsx]: [replayMoves], [applyRowToState], [syncFromRow],
      [endGame] and the game-end claim of [handleMove].
    - [src/hooks/use-game-stability.ts]: [useConnectionStatus] and
      [useMoveRetry]; [src/components/ReconnectOverlay.tsx]: the countdown.
    - [src/components/ChessBoard.tsx]: [handleClick] and [handlePromotion].
    - [src/pages/Leaderboard.tsx]: the rank filters; [src/pages/History.tsx]:
      the result filters.

    The numbers the engine computes are integers ([Z]).  A number that a
    request carries, or that a stored move holds, is whatever JSON number the
    sender wrote: a rational ([Q]).  A read [board[r][c]] faults (TypeError)
    when row [r] does not exist, and yields [undefined] when only the column
    is missing; faults are the [None] of the [option] monad. *)

From stdpp Require Import base option list list_numbers gmap strings pretty.
From Stdlib Require Import ZArith QArith_base Lia.

Local Open Scope Z_scope.

(** ** Data model *)

(** ['p' | 'n' | 'b' | 'r' | 'q' | 'k'] *)
Inductive PieceType := Pawn | Knight | Bishop | Rook | Queen | King.
(** ['w' | 'b'] *)
Inductive PieceColor := White | Black.

#[global] Instance PieceType_eq_dec : EqDecision PieceType.
Proof. solve_decision. Defined.
#[global] Instance PieceColor_eq_dec : EqDecision PieceColor.
Proof. solve_decision. Defined.

Record Piece := { type : PieceType; color : PieceColor }.
#[global] Instance Piece_eq_dec : EqDecision Piece.
Proof. solve_decision. Defined.

(** [Square = Piece | null] and [Board = Square[][]]. *)
Abbreviation Square := (option Piece).
Abbreviation Board := (list (list (option Piece))).

Record Position := { row : Z; col : Z }.
#[global] Instance Position_eq_dec : EqDecision Position.
Proof. solve_decision. Defined.

Inductive CastlingSide := kingside | queenside.
#[global] Instance CastlingSide_eq_dec : EqDecision CastlingSide.
Proof. solve_decision. Defined.

Record Move := {
  from : Position;
  to : Position;
  piece : Piece;
  captured : option Piece;
  promotion : option PieceType;
  castlingSide : option CastlingSide;   (* [castling?] of [Move] *)
  enPassant : bool
}.
#[global] Instance Move_eq_dec : EqDecision Move.
Proof. solve_decision. Defined.

Record CastlingRights := { k : bool; q : bool }.
Record Castling := { w : CastlingRights; b : CastlingRights }.

Inductive Status := active | checkmate | stalemate | draw | resigned.
#[global] Instance Status_eq_dec : EqDecision Status.
Proof. solve_decision. Defined.

Record GameState := {
  board : Board;
  turn : PieceColor;
  castling : Castling;
  enPassantTarget : option Position;
  halfMoveClock : Z;
  fullMoveNumber : Z;
  moveHistory : list Move;
  status : Status;
  winner : option PieceColor
}.

(** ** Board access *)

(** [board[r]]: [undefined] outside the array. *)
Definition rowAt (bd : Board) (r : Z) : option (list Square) :=
  if 0 <=? r then bd !! Z.to_nat r else None.

(** [board[r][c]]: faults when [board[r]] is undefined; a missing column reads
    [undefined], which every use treats like [null]. *)
Definition readSq (bd : Board) (r c : Z) : option Square :=
  rw ← rowAt bd r;
  Some (if 0 <=? c then default None (rw !! Z.to_nat c) else None).

(** [board[r][c] = v]: faults when [board[r]] is undefined; a column past the
    end extends the row with holes.  A negative column would attach a
    non-index property to the row; the embedding reports that as a fault. *)
Definition writeSq (bd : Board) (r c : Z) (v : Square) : option Board :=
  rw ← rowAt bd r;
  if 0 <=? c then
    let i := Z.to_nat c in
    let rw' := if decide (i < length rw)%nat then <[i := v]> rw
               else rw ++ replicate (i - length rw) None ++ [v] in
    Some (<[Z.to_nat r := rw']> bd)
  else None.

Definition backRow : list PieceType :=
  [Rook; Knight; Bishop; Queen; King; Bishop; Knight; Rook].

Definition createInitialBoard : Board :=
  [ (fun t => Some {| type := t; color := Black |}) <$> backRow;
    replicate 8 (Some {| type := Pawn; color := Black |});
    replicate 8 None; replicate 8 None; replicate 8 None; replicate 8 None;
    replicate 8 (Some {| type := Pawn; color := White |});
    (fun t => Some {| type := t; color := White |}) <$> backRow ].

Definition createInitialState : GameState :=
  {| board := createInitialBoard;
     turn := White;
     castling := {| w := {| k := true; q := true |};
                    b := {| k := true; q := true |} |};
     enPassantTarget := None;
     halfMoveClock := 0;
     fullMoveNumber := 1;
     moveHistory := [];
     status := active;
     winner := None |}.

Definition inBounds (r c : Z) : bool :=
  (0 <=? r) && (r <? 8) && (0 <=? c) && (c <? 8).

Definition cloneBoard (bd : Board) : Board :=
  (fun rw : list Square => (fun sq : Square =>
     match sq with
     | Some pc => Some {| type := type pc; color := color pc |}
     | None => None
     end) <$> rw) <$> (bd : list (list Square)).

(** The 64 squares in the order of the nested [for r / for c] loops. *)
Definition allSquares : list (Z * Z) :=
  r ← seqZ 0 8; c ← seqZ 0 8; [(r, c)].

(** [sq?.type === t && sq?.color === c] *)
Definition isPiece (sq : Square) (t : PieceType) (c : PieceColor) : bool :=
  match sq with
  | Some pc => bool_decide (type pc = t) && bool_decide (color pc = c)
  | None => false
  end.

Definition opposite (c : PieceColor) : PieceColor :=
  match c with White => Black | Black => White end.

(** ** Attack detection *)

Fixpoint findKingIn (bd : Board) (c : PieceColor) (cells : list (Z * Z))
  : option Position :=
  match cells with
  | [] => Some {| row := -1; col := -1 |}
  | (r, cl) :: rest =>
      sq ← readSq bd r cl;
      if isPiece sq King c then Some {| row := r; col := cl |}
      else findKingIn bd c rest
  end.

Definition findKing (bd : Board) (c : PieceColor) : option Position :=
  findKingIn bd c allSquares.

Definition knightOffsets : list (Z * Z) :=
  [(-2,-1); (-2,1); (-1,-2); (-1,2); (1,-2); (1,2); (2,-1); (2,1)].

(** The [dr, dc] pairs visited by [for dr = -1..1, for dc = -1..1] with the
    (0,0) iteration skipped. *)
Definition kingOffsets : list (Z * Z) :=
  [(-1,-1); (-1,0); (-1,1); (0,-1); (0,1); (1,-1); (1,0); (1,1)].

(** One fixed-offset probe loop of [isSquareAttacked]:
    [if (inBounds(r, c) && board[r][c]?.type === t && ...color === byColor)
       return true]. *)
Fixpoint probeOffsets (bd : Board) (rw cl : Z) (t : PieceType)
    (byColor : PieceColor) (offs : list (Z * Z)) : option bool :=
  match offs with
  | [] => Some false
  | (dr, dc) :: rest =>
      let r := rw + dr in
      let c := cl + dc in
      if inBounds r c then
        sq ← readSq bd r c;
        if isPiece sq t byColor then Some true
        else probeOffsets bd rw cl t byColor rest
      else probeOffsets bd rw cl t byColor rest
  end.

(** The [while (inBounds(r, c))] walk along one direction.  [fuel] bounds the
    number of in-bounds squares visited; running out of it is reported as
    [None]. *)
Fixpoint slideAttack (fuel : nat) (bd : Board) (r c dr dc : Z)
    (types : list PieceType) (byColor : PieceColor) : option bool :=
  if inBounds r c then
    match fuel with
    | O => None
    | S f =>
        sq ← readSq bd r c;
        match sq with
        | Some pc =>
            Some (bool_decide (color pc = byColor)
                  && bool_decide (type pc ∈ types))
        | None => slideAttack f bd (r + dr) (c + dc) dr dc types byColor
        end
    end
  else Some false.

Definition attackDirections : list (Z * Z * list PieceType) :=
  [ (-1, 0, [Rook; Queen]); (1, 0, [Rook; Queen]);
    (0, -1, [Rook; Queen]); (0, 1, [Rook; Queen]);
    (-1, -1, [Bishop; Queen]); (-1, 1, [Bishop; Queen]);
    (1, -1, [Bishop; Queen]); (1, 1, [Bishop; Queen]) ].

Fixpoint slideDirections (bd : Board) (rw cl : Z) (byColor : PieceColor)
    (dirs : list (Z * Z * list PieceType)) : option bool :=
  match dirs with
  | [] => Some false
  | (dr, dc, types) :: rest =>
      hit ← slideAttack 8 bd (rw + dr) (cl + dc) dr dc types byColor;
      if hit : bool then Some true
      else slideDirections bd rw cl byColor rest
  end.

(** [a || b] on fallible booleans, short-circuiting like the early
    [return true]. *)
Definition orElse (a c : option bool) : option bool :=
  x ← a; if x : bool then Some true else c.

(** [a && b] with JavaScript's short-circuit. *)
Definition andThen (a c : option bool) : option bool :=
  x ← a; if x : bool then c else Some false.

Definition isSquareAttacked (bd : Board) (pos : Position)
    (byColor : PieceColor) : option bool :=
  let rw := row pos in
  let cl := col pos in
  let pawnDir := match byColor with White => 1 | Black => -1 end in
  orElse (probeOffsets bd rw cl Pawn byColor [(pawnDir, -1); (pawnDir, 1)])
  (orElse (probeOffsets bd rw cl Knight byColor knightOffsets)
  (orElse (probeOffsets bd rw cl King byColor kingOffsets)
          (slideDirections bd rw cl byColor attackDirections))).

Definition isInCheck (bd : Board) (c : PieceColor) : option bool :=
  king ← findKing bd c;
  isSquareAttacked bd king (opposite c).

Notation "a &&& c" := (andThen a c) (at level 40, left associativity).

(** ** Move generation *)

Definition pos (r c : Z) : Position := {| row := r; col := c |}.

(** [!sq] *)
Definition isEmpty (sq : Square) : bool :=
  match sq with Some _ => false | None => true end.

(** The closure [addMove(to)] of [getRawMoves] without [extra]:
    [captured] is [board[to.row][to.col] || undefined]. *)
Definition addMove (bd : Board) (frm : Position) (pc : Piece)
    (dest : Position) : option Move :=
  sq ← readSq bd (row dest) (col dest);
  Some {| from := frm; to := dest; piece := pc; captured := sq;
          promotion := None; castlingSide := None; enPassant := false |}.

(** The [...extra] spreads used by the callers of [addMove]. *)
Definition withPromotion (pr : PieceType) (m : Move) : Move :=
  {| from := from m; to := to m; piece := piece m; captured := captured m;
     promotion := Some pr; castlingSide := castlingSide m;
     enPassant := enPassant m |}.

Definition withCastling (side : CastlingSide) (m : Move) : Move :=
  {| from := from m; to := to m; piece := piece m; captured := captured m;
     promotion := promotion m; castlingSide := Some side;
     enPassant := enPassant m |}.

Definition withEnPassant (cap : option Piece) (m : Move) : Move :=
  {| from := from m; to := to m; piece := piece m; captured := cap;
     promotion := promotion m; castlingSide := castlingSide m;
     enPassant := true |}.

Definition addOne (bd : Board) (frm : Position) (pc : Piece)
    (dest : Position) : option (list Move) :=
  m ← addMove bd frm pc dest; Some [m].

Definition promotionPieces : list PieceType := [Queen; Rook; Bishop; Knight].

(** [for (const pr of ['q','r','b','n']) addMove(to, { promotion: pr })] *)
Definition addPromotions (bd : Board) (frm : Position) (pc : Piece)
    (dest : Position) : option (list Move) :=
  mapM (fun pr => withPromotion pr <$> addMove bd frm pc dest) promotionPieces.

Definition pawnDir (c : PieceColor) : Z :=
  match c with White => -1 | Black => 1 end.
Definition startRow (c : PieceColor) : Z :=
  match c with White => 6 | Black => 1 end.
Definition promoRow (c : PieceColor) : Z :=
  match c with White => 0 | Black => 7 end.

(** The "Forward" and "Double push" part of the pawn branch. *)
Definition pawnForward (bd : Board) (frm : Position) (pc : Piece)
  : option (list Move) :=
  let rw := row frm in
  let cl := col frm in
  let dir := pawnDir (color pc) in
  if inBounds (rw + dir) cl then
    ahead ← readSq bd (rw + dir) cl;
    if isEmpty ahead then
      single ← (if rw + dir =? promoRow (color pc)
                then addPromotions bd frm pc (pos (rw + dir) cl)
                else addOne bd frm pc (pos (rw + dir) cl));
      double ← (if rw =? startRow (color pc) then
                  two ← readSq bd (rw + 2 * dir) cl;
                  if isEmpty two then addOne bd frm pc (pos (rw + 2 * dir) cl)
                  else Some []
                else Some []);
      Some (single ++ double)
    else Some []
  else Some [].

(** One iteration of [for (const dc of [-1, 1])] in the pawn branch:
    the diagonal capture and the en-passant capture. *)
Definition pawnCapture (bd : Board) (frm : Position) (pc : Piece)
    (ep : option Position) (dc : Z) : option (list Move) :=
  let rw := row frm in
  let cl := col frm in
  let nr := rw + pawnDir (color pc) in
  let nc := cl + dc in
  if negb (inBounds nr nc) then Some []
  else
    target ← readSq bd nr nc;
    caps ← match target with
            | Some o =>
                if bool_decide (color o ≠ color pc) then
                  if nr =? promoRow (color pc)
                  then addPromotions bd frm pc (pos nr nc)
                  else addOne bd frm pc (pos nr nc)
                else Some []
            | None => Some []
            end;
    eps ← match ep with
           | Some e =>
               if (row e =? nr) && (col e =? nc) then
                 cap ← readSq bd rw nc;
                 m ← addMove bd frm pc (pos nr nc);
                 Some [withEnPassant cap m]
               else Some []
           | None => Some []
           end;
    Some (caps ++ eps).

(** [inBounds(r, c) && (!board[r][c] || board[r][c].color !== piece.color)]
    for each offset, as in the knight branch and the king's one-step loop. *)
Fixpoint stepMoves (bd : Board) (frm : Position) (pc : Piece)
    (offs : list (Z * Z)) : option (list Move) :=
  match offs with
  | [] => Some []
  | (dr, dc) :: rest =>
      let r := row frm + dr in
      let c := col frm + dc in
      here ← (if inBounds r c then
                sq ← readSq bd r c;
                match sq with
                | Some o =>
                    if bool_decide (color o ≠ color pc)
                    then addOne bd frm pc (pos r c) else Some []
                | None => addOne bd frm pc (pos r c)
                end
              else Some []);
      more ← stepMoves bd frm pc rest;
      Some (here ++ more)
  end.

Definition rightsOf (cs : Castling) (c : PieceColor) : CastlingRights :=
  match c with White => w cs | Black => b cs end.

(** The "Castling" part of the king branch. *)
Definition castlingMoves (bd : Board) (frm : Position) (pc : Piece)
    (cs : Castling) (trn : PieceColor) : option (list Move) :=
  let rw := row frm in
  let cr := rightsOf cs trn in
  let enemy := opposite trn in
  ks ← Some (k cr)
        &&& (isEmpty <$> readSq bd rw 5)
        &&& (isEmpty <$> readSq bd rw 6)
        &&& (negb <$> isSquareAttacked bd (pos rw 4) enemy)
        &&& (negb <$> isSquareAttacked bd (pos rw 5) enemy)
        &&& (negb <$> isSquareAttacked bd (pos rw 6) enemy);
  km ← (if ks : bool
         then m ← addMove bd frm pc (pos rw 6); Some [withCastling kingside m]
         else Some []);
  qs ← Some (q cr)
        &&& (isEmpty <$> readSq bd rw 3)
        &&& (isEmpty <$> readSq bd rw 2)
        &&& (isEmpty <$> readSq bd rw 1)
        &&& (negb <$> isSquareAttacked bd (pos rw 4) enemy)
        &&& (negb <$> isSquareAttacked bd (pos rw 3) enemy)
        &&& (negb <$> isSquareAttacked bd (pos rw 2) enemy);
  qm ← (if qs : bool
         then m ← addMove bd frm pc (pos rw 2); Some [withCastling queenside m]
         else Some []);
  Some (km ++ qm).

(** The [while (inBounds(r, c))] walk of a sliding piece along one direction;
    [fuel] as in [slideAttack]. *)
Fixpoint slideMoves (fuel : nat) (bd : Board) (frm : Position) (pc : Piece)
    (r c dr dc : Z) : option (list Move) :=
  if inBounds r c then
    match fuel with
    | O => None
    | S f =>
        sq ← readSq bd r c;
        match sq with
        | Some o =>
            if bool_decide (color o ≠ color pc)
            then addOne bd frm pc (pos r c) else Some []
        | None =>
            m ← addMove bd frm pc (pos r c);
            more ← slideMoves f bd frm pc (r + dr) (c + dc) dr dc;
            Some (m :: more)
        end
    end
  else Some [].

Definition rookDirs : list (Z * Z) := [(-1,0); (1,0); (0,-1); (0,1)].
Definition bishopDirs : list (Z * Z) := [(-1,-1); (-1,1); (1,-1); (1,1)].
Definition queenDirs : list (Z * Z) := rookDirs ++ bishopDirs.

Fixpoint slideAll (bd : Board) (frm : Position) (pc : Piece)
    (dirs : list (Z * Z)) : option (list Move) :=
  match dirs with
  | [] => Some []
  | (dr, dc) :: rest =>
      here ← slideMoves 8 bd frm pc (row frm + dr) (col frm + dc) dr dc;
      more ← slideAll bd frm pc rest;
      Some (here ++ more)
  end.

Definition getRawMoves (s : GameState) (frm : Position) : option (list Move) :=
  let bd := board s in
  sq ← readSq bd (row frm) (col frm);
  match sq with
  | None => Some []
  | Some pc =>
      if bool_decide (color pc ≠ turn s) then Some []
      else
        match type pc with
        | Pawn =>
            fwd ← pawnForward bd frm pc;
            left ← pawnCapture bd frm pc (enPassantTarget s) (-1);
            right ← pawnCapture bd frm pc (enPassantTarget s) 1;
            Some (fwd ++ left ++ right)
        | Knight => stepMoves bd frm pc knightOffsets
        | King =>
            steps ← stepMoves bd frm pc kingOffsets;
            cast ← castlingMoves bd frm pc (castling s) (turn s);
            Some (steps ++ cast)
        | Rook => slideAll bd frm pc rookDirs
        | Bishop => slideAll bd frm pc bishopDirs
        | Queen => slideAll bd frm pc queenDirs
        end
  end.

(** ** Applying a move *)

Definition applyMoveToBoard (bd : Board) (m : Move) : option Board :=
  let nb := cloneBoard bd in
  let f := from m in
  let t := to m in
  v ← match promotion m with
       | Some pr => Some (Some {| type := pr; color := color (piece m) |})
       | None => readSq nb (row f) (col f)
       end;
  nb ← writeSq nb (row t) (col t) v;
  nb ← writeSq nb (row f) (col f) None;
  nb ← (if enPassant m then writeSq nb (row f) (col t) None else Some nb);
  nb ← (if bool_decide (castlingSide m = Some kingside) then
           rook ← readSq nb (row f) 7;
           nb ← writeSq nb (row f) 5 rook;
           writeSq nb (row f) 7 None
         else Some nb);
  nb ← (if bool_decide (castlingSide m = Some queenside) then
           rook ← readSq nb (row f) 0;
           nb ← writeSq nb (row f) 3 rook;
           writeSq nb (row f) 0 None
         else Some nb);
  Some nb.

(** [array.filter] with a fallible predicate. *)
Fixpoint filterM {A} (f : A → option bool) (l : list A) : option (list A) :=
  match l with
  | [] => Some []
  | x :: rest =>
      keep ← f x;
      more ← filterM f rest;
      Some (if keep : bool then x :: more else more)
  end.

Definition leavesKingSafe (s : GameState) (m : Move) : option bool :=
  newBoard ← applyMoveToBoard (board s) m;
  negb <$> isInCheck newBoard (turn s).

Definition getLegalMoves (s : GameState) (frm : Position)
  : option (list Move) :=
  raw ← getRawMoves s frm;
  filterM (leavesKingSafe s) raw.

Fixpoint legalMovesOver (s : GameState) (cells : list (Z * Z))
  : option (list Move) :=
  match cells with
  | [] => Some []
  | (r, c) :: rest =>
      sq ← readSq (board s) r c;
      here ← (match sq with
               | Some pc =>
                   if bool_decide (color pc = turn s)
                   then getLegalMoves s (pos r c) else Some []
               | None => Some []
               end);
      more ← legalMovesOver s rest;
      Some (here ++ more)
  end.

Definition getAllLegalMoves (s : GameState) : option (list Move) :=
  legalMovesOver s allSquares.

(** The castling-rights update at the head of [makeMove]. *)
Definition setRights (cs : Castling) (c : PieceColor) (cr : CastlingRights)
  : Castling :=
  match c with
  | White => {| w := cr; b := b cs |}
  | Black => {| w := w cs; b := cr |}
  end.

Definition clearK (cr : CastlingRights) : CastlingRights :=
  {| k := false; q := q cr |}.
Definition clearQ (cr : CastlingRights) : CastlingRights :=
  {| k := k cr; q := false |}.

Definition isType (o : option Piece) (t : PieceType) : bool :=
  match o with Some pc => bool_decide (type pc = t) | None => false end.

Definition newCastling (cs : Castling) (m : Move) : Castling :=
  let c := color (piece m) in
  let cs1 := if bool_decide (type (piece m) = King)
             then setRights cs c {| k := false; q := false |} else cs in
  let cs2 :=
    if bool_decide (type (piece m) = Rook) then
      let a := if col (from m) =? 0
               then setRights cs1 c (clearQ (rightsOf cs1 c)) else cs1 in
      if col (from m) =? 7
      then setRights a c (clearK (rightsOf a c)) else a
    else cs1 in
  if isType (captured m) Rook then
    let a1 := if (row (to m) =? 0) && (col (to m) =? 0)
              then setRights cs2 Black (clearQ (b cs2)) else cs2 in
    let a2 := if (row (to m) =? 0) && (col (to m) =? 7)
              then setRights a1 Black (clearK (b a1)) else a1 in
    let a3 := if (row (to m) =? 7) && (col (to m) =? 0)
              then setRights a2 White (clearQ (w a2)) else a2 in
    if (row (to m) =? 7) && (col (to m) =? 7)
    then setRights a3 White (clearK (w a3)) else a3
  else cs2.

Definition newEnPassant (m : Move) : option Position :=
  if bool_decide (type (piece m) = Pawn)
     && (Z.abs (row (to m) - row (from m)) =? 2)
  then Some (pos ((row (from m) + row (to m)) / 2) (col (from m)))
  else None.

Definition withStatus (s : GameState) (st : Status) (wn : option PieceColor)
  : GameState :=
  {| board := board s; turn := turn s; castling := castling s;
     enPassantTarget := enPassantTarget s; halfMoveClock := halfMoveClock s;
     fullMoveNumber := fullMoveNumber s; moveHistory := moveHistory s;
     status := st; winner := wn |}.

Definition makeMove (s : GameState) (m : Move) : option GameState :=
  newBoard ← applyMoveToBoard (board s) m;
  let nextTurn := opposite (turn s) in
  let newState :=
    {| board := newBoard;
       turn := nextTurn;
       castling := newCastling (castling s) m;
       enPassantTarget := newEnPassant m;
       halfMoveClock :=
         if bool_decide (type (piece m) = Pawn) || negb (isEmpty (captured m))
         then 0 else halfMoveClock s + 1;
       fullMoveNumber :=
         if bool_decide (turn s = Black)
         then fullMoveNumber s + 1 else fullMoveNumber s;
       moveHistory := moveHistory s ++ [m];
       status := active;
       winner := None |} in
  legalMoves ← getAllLegalMoves newState;
  if bool_decide (length legalMoves = 0%nat) then
    inCheck ← isInCheck newBoard nextTurn;
    if inCheck : bool
    then Some (withStatus newState checkmate (Some (turn s)))
    else Some (withStatus newState stalemate None)
  else if 100 <=? halfMoveClock newState
  then Some (withStatus newState draw None)
  else Some newState.

(** ** Persisted records *)

(** JSON numbers.  Every finite double is a rational, and nothing here goes
    beyond comparing two numbers. *)
Module Num.

(** An integer as a number. *)
Definition ofZ (z : Z) : Q := inject_Z z.

(** The integer that [x] is, when it is one. *)
Definition toZ (x : Q) : option Z :=
  if Qnum x `mod` Z.pos (Qden x) =? 0
  then Some (Qnum x / Z.pos (Qden x)) else None.

(** [x < y] and [x === y]. *)
Definition ltb (x y : Q) : bool := negb (Qle_bool y x).
Definition eqb (x y : Q) : bool := Qeq_bool x y.

(** [Math.floor(x)] *)
Definition floor (x : Q) : Z := Qnum x / Z.pos (Qden x).

End Num.

(** An entry of the [moves] column of a game row.  The column is JSON: the
    coordinates of an entry are the numbers that were written there. *)
Module Wire.
Record Pos := { row : Q; col : Q }.
Record MoveData := {
  from : Pos;
  to : Pos;
  promotion : option string;      (* [null] is [None] *)
  timestamp : Z
}.
End Wire.

(** [{ row: p.row, col: p.col }] for a square [p] of the engine. *)
Definition toWire (p : Position) : Wire.Pos :=
  {| Wire.row := Num.ofZ (row p); Wire.col := Num.ofZ (col p) |}.

Record GameRow := {
  id : string;
  white_player : string;
  black_player : string;
  moves : list Wire.MoveData;
  result : option string;
  time_control : string;
  time_white : Z;
  time_black : Z;
  elo_change_white : Z;
  elo_change_black : Z;
  row_status : string;              (* column [status] *)
  started_at : Z;
  ended_at : option Z;
  last_move_at : option Z
}.

Record Profile := {
  elo_rating : Z;
  games_played : Z;
  wins : Z;
  losses : Z;
  draws : Z
}.

(** ** Client: replaying a stored move list ([Game.tsx]) *)

Module Client.

(** The promotion code of a piece type as it appears in a stored move. *)
Definition code (t : PieceType) : string :=
  match t with
  | Pawn => "p" | Knight => "n" | Bishop => "b"
  | Rook => "r" | Queen => "q" | King => "k"
  end%string.

(** [l.promotion === m.promotion] for a truthy [m.promotion]. *)
Definition samePromotion (l : Move) (pr : string) : bool :=
  match promotion l with
  | Some t => bool_decide (code t = pr)
  | None => false
  end.

(** The predicate handed to [legal.find] in [replayMoves]. *)
Definition matchesEntry (m : Wire.MoveData) (l : Move) : bool :=
  Num.eqb (Num.ofZ (row (to l))) (Wire.row (Wire.to m))
  && Num.eqb (Num.ofZ (col (to l))) (Wire.col (Wire.to m))
  && match Wire.promotion m with
     | None => true
     | Some pr => if bool_decide (pr = EmptyString) then true
                  else samePromotion l pr
     end.

(** [getLegalMoves(state, { row: m.from.row, col: m.from.col })] for the
    numbers of a stored entry.  [board[x]] is [undefined] when [x] is no
    integer: for such a row, reading [board[row][col]] throws; for such a
    column of an existing row the square reads [undefined] and [getRawMoves]
    returns the empty list. *)
Definition getLegalMovesAt (s : GameState) (p : Wire.Pos)
  : option (list Move) :=
  match Num.toZ (Wire.row p) with
  | Some r =>
      match Num.toZ (Wire.col p) with
      | Some c => getLegalMoves s (pos r c)
      | None => _ ← rowAt (board s) r; Some []
      end
  | None => None
  end.

(** [legal.find(...)] on that list. *)
Definition findLegal (s : GameState) (m : Wire.MoveData)
  : option (option Move) :=
  legal ← getLegalMovesAt s (Wire.from m);
  Some (List.find (matchesEntry m) legal).

Definition replayStep (acc : option GameState) (m : Wire.MoveData)
  : option GameState :=
  s ← acc;
  lm ← findLegal s m;
  match lm with
  | Some l => makeMove s l
  | None => Some s
  end.

Definition replayMoves (movesData : list Wire.MoveData) : option GameState :=
  foldl replayStep (Some createInitialState) movesData.

Definition applyRowToState (rw : GameRow) : option GameState :=
  s ← replayMoves (moves rw);
  if bool_decide (row_status rw = "completed"%string) then
    Some (withStatus s
            (if bool_decide (result rw = Some "draw"%string)
             then draw else checkmate)
            (if bool_decide (result rw = Some "white"%string) then Some White
             else if bool_decide (result rw = Some "black"%string)
                  then Some Black else None))
  else Some s.

(** The part of the [Game] component's state that [syncFromRow] reads and
    writes: three pieces of React state and the two refs. *)
Record View := {
  gameRow : option GameRow;
  gameState : GameState;
  timeWhite : Z;
  timeBlack : Z;
  moveCountRef : nat;
  gameRowRef : option GameRow
}.

(** One call of [syncFromRow(data, source)]; a fault while replaying leaves
    [gameState] as it was (the [setGameState] call is not reached). *)
Definition syncFromRow (data : GameRow) (v : View) : View :=
  let incomingMoveCount := length (moves data) in
  let currentMoveCount := moveCountRef v in
  if bool_decide (incomingMoveCount < currentMoveCount)%nat then v
  else if bool_decide (incomingMoveCount = currentMoveCount)
          && bool_decide (Some (row_status data)
                          = row_status <$> gameRowRef v)
  then v
  else
    {| gameRow := Some data;
       gameState := default (gameState v) (applyRowToState data);
       timeWhite := time_white data;
       timeBlack := time_black data;
       moveCountRef := moveCountRef v;
       gameRowRef := gameRowRef v |}.

(** The "Sync refs" effect, run by React after a render in which [gameRow]
    changed. *)
Definition syncRefs (v : View) : View :=
  {| gameRow := gameRow v;
     gameState := gameState v;
     timeWhite := timeWhite v;
     timeBlack := timeBlack v;
     moveCountRef := length (from_option moves [] (gameRow v));
     gameRowRef := gameRow v |}.

(** A record delivered by any of the three channels, followed by the render
    and its effect. *)
Definition deliver (data : GameRow) (v : View) : View :=
  syncRefs (syncFromRow data v).

End Client.

(** ** Server: the [validate-move] handler

    The handler is a function of the time of the call, the request and the
    store (the [games] and [profiles] tables and the in-memory limiter
    table).  The identity provider is represented by its answer ([user] of a
    request); the CORS preflight, the generic 500 of the [catch] block and a
    failing store write are left out, so a store write always succeeds. *)

Module Server.

Definition RATE_LIMIT : Z := 30.
Definition RATE_WINDOW : Z := 60000.

Record RateEntry := { count : Z; resetAt : Z }.

(** [checkRateLimit(userId)] at time [now = Date.now()], threading the
    module-level [rateLimitMap]. *)
Definition checkRateLimit (now : Z) (userId : string)
    (rateLimitMap : gmap string RateEntry) : bool * gmap string RateEntry :=
  match rateLimitMap !! userId with
  | Some entry =>
      if resetAt entry <? now then
        (true, <[userId := {| count := 1; resetAt := now + RATE_WINDOW |}]>
                 rateLimitMap)
      else if RATE_LIMIT <=? count entry then (false, rateLimitMap)
      else (true, <[userId := {| count := count entry + 1;
                                 resetAt := resetAt entry |}]> rateLimitMap)
  | None =>
      (true, <[userId := {| count := 1; resetAt := now + RATE_WINDOW |}]>
               rateLimitMap)
  end.

(** The [move] of a request body before validation: a coordinate that is
    not a number is [None], a missing or falsy [from], [to] or [promotion]
    is [None].  A coordinate that is a number is any JSON number. *)
Record ReqPos := { rrow : option Q; rcol : option Q }.
Record ReqMove := {
  rfrom : option ReqPos;
  rto : option ReqPos;
  rpromotion : option string
}.

Definition coordOk (p : ReqPos) : bool :=
  match rrow p, rcol p with
  | Some r, Some c =>
      negb (Num.ltb r 0 || Num.ltb 7 r || Num.ltb c 0 || Num.ltb 7 c)
  | _, _ => false
  end.

Definition validateMoveStructure (move : option ReqMove) : bool :=
  match move with
  | None => false
  | Some mv =>
      match rfrom mv, rto mv with
      | Some f, Some t =>
          coordOk f && coordOk t
          && match rpromotion mv with
             | Some pr =>
                 if bool_decide (pr = EmptyString) then true
                 else bool_decide (pr ∈ ["q"; "r"; "b"; "n"]%string)
             | None => true
             end
      | _, _ => false
      end
  end.

(** The [gameEnd] of a request.  Its rating changes go to INTEGER columns
    of the [games] and [profiles] tables and are integers here; what the
    store does with any other value is left out, like every failing write. *)
Record GameEnd := {
  ge_result : option string;        (* [gameEnd.result] *)
  eloChangeWhite : option Z;
  eloChangeBlack : option Z
}.

Record Body := {
  gameId : string;
  move : option ReqMove;
  timeRemaining : option Q;         (* [None] when it is not a number *)
  gameEnd : option GameEnd
}.

(** A request after the identity provider has been consulted: [user] is the
    participant id the bearer token resolves to. *)
Record Request := {
  authorization : bool;             (* an Authorization header is present *)
  user : option string;
  body : Body
}.

Inductive Response :=
| Success (moveNumber : nat)
| Failure (code : Z) (error : string).

Record Store := {
  games : gmap string GameRow;
  profiles : gmap string Profile;
  rateLimitMap : gmap string RateEntry
}.

Definition withRate (st : Store) (rl : gmap string RateEntry) : Store :=
  {| games := games st; profiles := profiles st; rateLimitMap := rl |}.

(** [{ row: p.row, col: p.col }] of a validated [from] or [to]. *)
Definition coord (o : option Q) : Q := default 0%Q o.
Definition reqPos (o : option ReqPos) : Wire.Pos :=
  match o with
  | Some p => {| Wire.row := coord (rrow p); Wire.col := coord (rcol p) |}
  | None => {| Wire.row := 0; Wire.col := 0 |}
  end.

(** The entry appended to [moves]. *)
Definition entryOf (now : Z) (mv : ReqMove) : Wire.MoveData :=
  {| Wire.from := reqPos (rfrom mv);
     Wire.to := reqPos (rto mv);
     Wire.promotion :=
       match rpromotion mv with
       | Some pr => if bool_decide (pr = EmptyString) then None else Some pr
       | None => None
       end;
     Wire.timestamp := now |}.

(** [updateData] applied to the fetched row. *)
Definition updatedRow (now : Z) (game : GameRow) (isWhitePlayer : bool)
    (bd : Body) (mv : ReqMove) : GameRow :=
  let t := (fun x => Z.max 0 (Num.floor x)) <$> timeRemaining bd in
  {| id := id game;
     white_player := white_player game;
     black_player := black_player game;
     moves := moves game ++ [entryOf now mv];
     result := match gameEnd bd with
               | Some ge => ge_result ge
               | None => result game
               end;
     time_control := time_control game;
     time_white := match t with
                   | Some x => if isWhitePlayer then x else time_white game
                   | None => time_white game
                   end;
     time_black := match t with
                   | Some x => if isWhitePlayer then time_black game else x
                   | None => time_black game
                   end;
     elo_change_white := match gameEnd bd with
                         | Some ge => default 0 (eloChangeWhite ge)
                         | None => elo_change_white game
                         end;
     elo_change_black := match gameEnd bd with
                         | Some ge => default 0 (eloChangeBlack ge)
                         | None => elo_change_black game
                         end;
     row_status := match gameEnd bd with
                   | Some _ => "completed"%string
                   | None => row_status game
                   end;
     started_at := started_at game;
     ended_at := match gameEnd bd with
                 | Some _ => Some now
                 | None => ended_at game
                 end;
     last_move_at := Some now |}.

(** One iteration of [for (const playerId of [white, black])]. *)
Definition updateProfile (game : GameRow) (ge : GameEnd) (playerId : string)
    (ps : gmap string Profile) : gmap string Profile :=
  let isW := bool_decide (playerId = white_player game) in
  let eloChange := if isW then default 0 (eloChangeWhite ge)
                   else default 0 (eloChangeBlack ge) in
  let won := (bool_decide (ge_result ge = Some "white"%string) && isW)
             || (bool_decide (ge_result ge = Some "black"%string) && negb isW) in
  let drew := bool_decide (ge_result ge = Some "draw"%string) in
  match ps !! playerId with
  | Some prof =>
      <[playerId :=
          {| elo_rating := elo_rating prof + eloChange;
             games_played := games_played prof + 1;
             wins := wins prof + (if won then 1 else 0);
             losses := losses prof + (if negb won && negb drew then 1 else 0);
             draws := draws prof + (if drew then 1 else 0) |}]> ps
  | None => ps
  end.

(** The handler from the rate-limit check on, for a request of user [uid];
    the store's writes always succeed. *)
Definition submit (now : Z) (uid : string) (bd : Body) (st : Store)
  : Response * Store :=
  let '(allowed, rl) := checkRateLimit now uid (rateLimitMap st) in
  let st := withRate st rl in
  if negb allowed then (Failure 429 "Rate limited", st)
  else
    match move bd with
    | None => (Failure 400 "Missing gameId or move", st)
    | Some mv =>
        if bool_decide (gameId bd = EmptyString)
        then (Failure 400 "Missing gameId or move", st)
        else if negb (validateMoveStructure (move bd))
        then (Failure 400 "Invalid move structure", st)
        else
          match games st !! gameId bd with
          | None => (Failure 404 "Game not found", st)
          | Some game =>
              if bool_decide (white_player game ≠ uid)
                 && bool_decide (black_player game ≠ uid)
              then (Failure 403 "Not your game", st)
              else
                let moveCount := length (moves game) in
                let isWhiteTurn := bool_decide (moveCount `mod` 2 = 0)%nat in
                let isWhitePlayer := bool_decide (white_player game = uid) in
                if negb (eqb isWhiteTurn isWhitePlayer)
                then (Failure 400 "Not your turn", st)
                else if bool_decide (row_status game ≠ "active"%string)
                then (Failure 400 "Game is not active", st)
                else
                  let row' := updatedRow now game isWhitePlayer bd mv in
                  let ps :=
                    match gameEnd bd with
                    | Some ge =>
                        updateProfile game ge (black_player game)
                          (updateProfile game ge (white_player game)
                             (profiles st))
                    | None => profiles st
                    end in
                  (Success (length (moves row')),
                   {| games := <[gameId bd := row']> (games st);
                      profiles := ps;
                      rateLimitMap := rateLimitMap st |})
          end
    end.

Definition handler (now : Z) (req : Request) (st : Store)
  : Response * Store :=
  if negb (authorization req) then (Failure 401 "Unauthorized", st)
  else
    match user req with
    | None => (Failure 401 "Invalid token", st)
    | Some uid => submit now uid (body req) st
    end.

End Server.

(** ** Client: connection status and move retry ([use-game-stability.ts]) *)

Module Stability.

Inductive ConnectionStatus := connected | reconnecting | disconnected.
#[global] Instance ConnectionStatus_eq_dec : EqDecision ConnectionStatus.
Proof. solve_decision. Defined.

(** The two pieces of state of [useConnectionStatus]. *)
Record Connection := {
  status : ConnectionStatus;
  offlineSince : option Z           (* [null] is [None] *)
}.

Definition initial : Connection :=
  {| status := connected; offlineSince := None |}.

Definition handleOnline (c : Connection) : Connection :=
  {| status := connected; offlineSince := None |}.

(** [now] is the value of [Date.now()]. *)
Definition handleOffline (now : Z) (c : Connection) : Connection :=
  {| status := reconnecting; offlineSince := Some now |}.

(** [offlineSince && ...]: [null] and [0] are falsy. *)
Definition truthy (o : option Z) : bool :=
  match o with Some t => negb (t =? 0) | None => false end.

(** The callback of [setInterval].  It reads [status] and [offlineSince] as
    they were at the last render ([c]); its [setStatus] and [setOfflineSince]
    calls take effect in order, the last one winning.  [onLine] is
    [navigator.onLine]; [now1] and [now2] are the values of the two
    [Date.now()] calls. *)
Definition tick (onLine : bool) (now1 now2 : Z) (c : Connection)
  : Connection :=
  let c1 := if negb onLine && bool_decide (status c = connected)
            then {| status := reconnecting; offlineSince := Some now1 |}
            else c in
  let c2 := if onLine && bool_decide (status c ≠ connected)
            then {| status := connected; offlineSince := None |}
            else c1 in
  if truthy (offlineSince c)
     && (30000 <? now2 - default 0 (offlineSince c))
  then {| status := disconnected; offlineSince := offlineSince c2 |}
  else c2.

(** [attempt(retryCount)] of [submitMove].  The promise-returning [fn] is
    represented by the outcomes of its successive calls: [fn i] tells whether
    call number [i] (counting from 0) resolves.  The result is the returned
    boolean and the delays waited, in order.  [fuel] bounds the number of
    calls of [fn]. *)
Fixpoint attempt (fuel : nat) (fn : nat → bool) (maxRetries retryCount : nat)
  : option (bool * list Z) :=
  match fuel with
  | O => None
  | S f =>
      if fn retryCount then Some (true, [])
      else if bool_decide (retryCount < maxRetries)%nat then
        let delay := Z.min (500 * 2 ^ Z.of_nat retryCount) 4000 in
        r ← attempt f fn maxRetries (S retryCount);
        Some (r.1, delay :: r.2)
      else Some (false, [])
  end.

(** An entry of the [pendingMoves] map, without its [fn]. *)
Record PendingMove := { retries : nat; maxRetries : nat }.

(** [submitMove(moveId, fn, maxRetries)], threading the [pendingMoves] map:
    the returned boolean, the delays waited and the map afterwards. *)
Definition submitMove (fuel : nat) (moveId : string) (fn : nat → bool)
    (maxRetries : nat) (pendingMoves : gmap string PendingMove)
  : option (bool * list Z * gmap string PendingMove) :=
  let pending :=
    <[moveId := {| retries := 0; maxRetries := maxRetries |}]> pendingMoves in
  r ← attempt fuel fn maxRetries 0;
  Some (r.1, r.2, delete moveId pending).

End Stability.

(** ** Client: the countdown of [ReconnectOverlay.tsx] *)

Module Overlay.

(** [remaining], in seconds, at time [now = Date.now()]. *)
Definition remaining (now : Z) (offlineSince : option Z) : Z :=
  let elapsed := if Stability.truthy offlineSince
                 then (now - default 0 offlineSince) / 1000 else 0 in
  Z.max 0 (30 - elapsed).

(** What the overlay shows: nothing while connected, else the countdown. *)
Definition overlay (now : Z) (c : Stability.Connection) : option Z :=
  if bool_decide (Stability.status c = Stability.connected) then None
  else Some (remaining now (Stability.offlineSince c)).

End Overlay.

(** ** Client: selecting and emitting moves ([ChessBoard.tsx]) *)

Module BoardView.

Record Props := {
  gameState : GameState;
  playerColor : PieceColor;
  interactive : bool
}.

(** The three pieces of state that the click handlers read and write. *)
Record Selection := {
  selectedSquare : option Position;
  legalMoves : list Move;
  promotionMove : option (Position * Position)   (* [{ from, to }] *)
}.

Definition initial : Selection :=
  {| selectedSquare := None; legalMoves := []; promotionMove := None |}.

(** [flipped = playerColor === 'b'] *)
Definition toBoard (flipped : bool) (r c : Z) : Position :=
  if flipped then pos (7 - r) (7 - c) else pos r c.

(** [m.to.row === pos.row && m.to.col === pos.col] *)
Definition hits (p : Position) (m : Move) : bool :=
  (row (to m) =? row p) && (col (to m) =? col p).

(** [m.promotion] as a condition. *)
Definition promotes (m : Move) : bool :=
  match promotion m with Some _ => true | None => false end.

(** The guard at the head of [handleClick], negated. *)
Definition guard (pr : Props) : bool :=
  interactive pr
  && bool_decide (turn (gameState pr) = playerColor pr)
  && bool_decide (status (gameState pr) = active).

(** The "select a piece" part of [handleClick]; [otherwise] is what happens
    when the square holds no piece of the player.  A fault while reading the
    square leaves the state as it is; a fault inside [getLegalMoves] comes
    after [setSelectedSquare(pos)] has been called. *)
Definition select (pr : Props) (p : Position) (st otherwise : Selection)
  : Selection :=
  match readSq (board (gameState pr)) (row p) (col p) with
  | None => st
  | Some (Some pc) =>
      if bool_decide (color pc = playerColor pr) then
        {| selectedSquare := Some p;
           legalMoves := default (legalMoves st)
                           (getLegalMoves (gameState pr) p);
           promotionMove := promotionMove st |}
      else otherwise
  | Some None => otherwise
  end.

(** [handleClick] from the display square on; the result is the new state
    and the move handed to [onMove], if any. *)
Definition handleClick (pr : Props) (displayRow displayCol : Z)
    (st : Selection) : Selection * option Move :=
  if negb (guard pr) then (st, None)
  else
    let p := toBoard (bool_decide (playerColor pr = Black))
               displayRow displayCol in
    let cleared := {| selectedSquare := None; legalMoves := [];
                      promotionMove := promotionMove st |} in
    match selectedSquare st with
    | Some sel =>
        match List.find (hits p) (legalMoves st) with
        | Some move =>
            let promoMoves :=
              List.filter (fun m => hits p m && promotes m) (legalMoves st) in
            if (0 <? length promoMoves)%nat
            then ({| selectedSquare := None; legalMoves := [];
                     promotionMove := Some (sel, p) |}, None)
            else (cleared, Some move)
        | None => (select pr p st cleared, None)
        end
    | None => (select pr p st st, None)
    end.

(** [handlePromotion(pieceType)]; a fault inside [getLegalMoves] leaves the
    state as it is. *)
Definition handlePromotion (pr : Props) (pieceType : PieceType)
    (st : Selection) : Selection * option Move :=
  match promotionMove st with
  | None => (st, None)
  | Some (f, t) =>
      match getLegalMoves (gameState pr) f with
      | None => (st, None)
      | Some moves =>
          ({| selectedSquare := selectedSquare st;
              legalMoves := legalMoves st; promotionMove := None |},
           List.find (fun m => hits t m
                               && bool_decide (promotion m = Some pieceType))
             moves)
      end
  end.

(** What the player does with the board. *)
Inductive Event :=
| Click (displayRow displayCol : Z)
| Promote (pieceType : PieceType).

Definition step (pr : Props) (ev : Event) (st : Selection)
  : Selection * option Move :=
  match ev with
  | Click r c => handleClick pr r c st
  | Promote t => handlePromotion pr t st
  end.

(** The state after a sequence of events under unchanged props, and the
    moves handed to [onMove] on the way, each with the event that caused
    it. *)
Fixpoint run (pr : Props) (evs : list Event) (st : Selection)
  : Selection * list (Event * Move) :=
  match evs with
  | [] => (st, [])
  | ev :: rest =>
      let '(st1, out) := step pr ev st in
      let '(st2, outs) := run pr rest st1 in
      (st2, match out with Some m => (ev, m) :: outs | None => outs end)
  end.

End BoardView.

(** ** Notation and rank tiers (tail of [chess-engine.ts]) *)

(** [String.fromCharCode(n)], for code units below 256. *)
Definition fromCharCode (n : Z) : string :=
  String (Ascii.ascii_of_N (Z.to_N n)) EmptyString.

(** [posToAlgebraic]: the number [8 - pos.row] is appended in decimal. *)
Definition posToAlgebraic (p : Position) : string :=
  fromCharCode (97 + col p) +:+ pretty (8 - row p).

(** [String.prototype.toUpperCase] on ASCII letters. *)
Definition upperChar (a : Ascii.ascii) : Ascii.ascii :=
  let n := Ascii.N_of_ascii a in
  if ((97 <=? n) && (n <=? 122))%N then Ascii.ascii_of_N (n - 32) else a.

Fixpoint toUpperCase (s : string) : string :=
  match s with
  | EmptyString => EmptyString
  | String a rest => String (upperChar a) (toUpperCase rest)
  end.

Definition moveToAlgebraic (m : Move) : string :=
  let promo := match promotion m with
               | Some t => toUpperCase (Client.code t)
               | None => EmptyString
               end in
  posToAlgebraic (from m) +:+ posToAlgebraic (to m) +:+ promo.

(** The object returned by [getRankTier]; its [color] is [tierColor] here. *)
Record Tier := { name : string; tierColor : string }.

Definition getRankTier (elo : Z) : Tier :=
  if 1800 <=? elo then {| name := "Master"; tierColor := "var(--rank-master)" |}
  else if 1600 <=? elo
  then {| name := "Diamond"; tierColor := "var(--rank-diamond)" |}
  else if 1400 <=? elo
  then {| name := "Platinum"; tierColor := "var(--rank-platinum)" |}
  else if 1200 <=? elo then {| name := "Gold"; tierColor := "var(--rank-gold)" |}
  else if 1000 <=? elo
  then {| name := "Silver"; tierColor := "var(--rank-silver)" |}
  else {| name := "Bronze"; tierColor := "var(--rank-bronze)" |}.

(** ** The rank filters of the leaderboard ([Leaderboard.tsx]) *)

Module Leaderboard.

Record RankFilter := {
  value : string;
  label : string;
  min : option Z;
  max : option Z
}.

Definition RANK_FILTERS : list RankFilter :=
  [ {| value := "all"; label := "All"; min := None; max := None |};
    {| value := "master"; label := "Master"; min := Some 1800; max := None |};
    {| value := "diamond"; label := "Diamond"; min := Some 1600;
       max := Some 1799 |};
    {| value := "platinum"; label := "Platinum"; min := Some 1400;
       max := Some 1599 |};
    {| value := "gold"; label := "Gold"; min := Some 1200; max := Some 1399 |};
    {| value := "silver"; label := "Silver"; min := Some 1000;
       max := Some 1199 |};
    {| value := "bronze"; label := "Bronze"; min := None; max := Some 999 |} ].

(** The rows that the query built for filter [f] returns:
    [gte('elo_rating', min)] and [lte('elo_rating', max)], each only when the
    bound is given. *)
Definition selects (f : RankFilter) (elo : Z) : bool :=
  match min f with Some lo => lo <=? elo | None => true end
  && match max f with Some hi => elo <=? hi | None => true end.

End Leaderboard.

(** ** Client: game-end claims ([Game.tsx]) and the history filters
    ([History.tsx]) *)

Module GameEnd.
Import Server.

(** [Math.round] of the rational [num / den] with [den > 0]: the nearest
    integer, a half going up. *)
Definition Math_round (num den : Z) : Z := (2 * num + den) / (2 * den).

(** [Math.round(K * (scoreW - 0.5))] with [K = 32].  The score is 1, 0.5 or
    0 and is counted in halves here: [scoreW = halves / 2]. *)
Definition eloChange (halves : Z) : Z := Math_round (32 * (halves - 1)) 2.

(** The [gameEnd] object that [endGame(result)] sends. *)
Definition endGameClaim (result : string) : GameEnd :=
  let scoreW :=
    if bool_decide (result = "white"%string) then 2
    else if bool_decide (result = "draw"%string) then 1
    else 0 in
  let change := eloChange scoreW in
  {| ge_result := Some result;
     eloChangeWhite := Some change;
     eloChangeBlack := Some (- change) |}.

(** The request body of [endGame]: the claim travels with the descriptor
    a8-a8. *)
Definition endGameBody (gameRow : GameRow) (result : string) : Body :=
  {| gameId := id gameRow;
     move := Some {| rfrom := Some {| rrow := Some 0%Q; rcol := Some 0%Q |};
                     rto := Some {| rrow := Some 0%Q; rcol := Some 0%Q |};
                     rpromotion := None |};
     timeRemaining := None;
     gameEnd := Some (endGameClaim result) |}.

(** The [gameEnd] that [handleMove] derives from the state after its
    optimistic [makeMove]; [undefined] is [None]. *)
Definition moveClaim (newState : GameState) : option GameEnd :=
  match status newState with
  | checkmate =>
      let scoreW :=
        if bool_decide (winner newState = Some White) then 2 else 0 in
      let change := eloChange scoreW in
      Some {| ge_result :=
                Some (if bool_decide (winner newState = Some White)
                      then "white" else "black")%string;
              eloChangeWhite := Some change;
              eloChangeBlack := Some (- change) |}
  | stalemate | draw =>
      Some {| ge_result := Some "draw"%string;
              eloChangeWhite := Some 0; eloChangeBlack := Some 0 |}
  | _ => None
  end.

(** [moveData] and the request body of [handleMove]. *)
Definition moveData (m : Move) : ReqMove :=
  {| rfrom := Some {| rrow := Some (Num.ofZ (row (from m)));
                      rcol := Some (Num.ofZ (col (from m))) |};
     rto := Some {| rrow := Some (Num.ofZ (row (to m)));
                    rcol := Some (Num.ofZ (col (to m))) |};
     rpromotion := Client.code <$> promotion m |}.

Definition moveBody (gameRow : GameRow) (m : Move) (myTime : Z)
    (newState : GameState) : Body :=
  {| gameId := id gameRow;
     move := Some (moveData m);
     timeRemaining := Some (Num.ofZ myTime);
     gameEnd := moveClaim newState |}.

End GameEnd.

Module HistoryPage.

Inductive Filter := all | wins | losses | draws.

(** The predicate of [games.filter] in [filteredGames], for the profile of
    [userId]. *)
Definition keeps (userId : string) (f : Filter) (g : GameRow) : bool :=
  let isWhite := bool_decide (white_player g = userId) in
  let won := (bool_decide (result g = Some "white"%string) && isWhite)
             || (bool_decide (result g = Some "black"%string) && negb isWhite) in
  let drew := bool_decide (result g = Some "draw"%string) in
  match f with
  | wins => won
  | losses => negb won && negb drew
  | draws => drew
  | all => true
  end.

Definition filteredGames (userId : string) (f : Filter) (games : list GameRow)
  : list GameRow :=
  filter (fun g => keeps userId f g = true) games.

End HistoryPage.

(** * Vocabulary of the properties *)

(** Number of squares from [(r, c)] to the edge of the board when walking
    in direction [(dr, dc)]. *)
Definition toEdge (r c dr dc : Z) : Z :=
  if dr =? 1 then 8 - r
  else if dr =? -1 then r + 1
  else if dc =? 1 then 8 - c
  else c + 1.

(** A direction of the eight-neighbourhood. *)
Definition unitDir (dr dc : Z) : Prop :=
  -1 ≤ dr ≤ 1 ∧ -1 ≤ dc ≤ 1 ∧ (dr ≠ 0 ∨ dc ≠ 0).

(** Boards used as examples. *)
Definition whiteQueen : Piece := {| type := Queen; color := White |}.

(** An otherwise empty board with a white queen on (0,0). *)
Definition loneQueenBoard : Board :=
  (Some whiteQueen :: replicate 7 None) :: replicate 7 (replicate 8 None).

Definition emptyBoard : Board := replicate 8 (replicate 8 None).

(** A sequence of [makeMove] calls, as the client performs them move after
    move. *)
Definition playMoves (s : GameState) (ms : list Move) : option GameState :=
  foldl (fun acc m => s' ← acc; makeMove s' m) (Some s) ms.

(** The state [makeMove] builds before its status is settled. *)
Definition movedState (s : GameState) (m : Move) (nb : Board) : GameState :=
  {| board := nb;
     turn := opposite (turn s);
     castling := newCastling (castling s) m;
     enPassantTarget := newEnPassant m;
     halfMoveClock :=
       if bool_decide (type (piece m) = Pawn) || negb (isEmpty (captured m))
       then 0 else halfMoveClock s + 1;
     fullMoveNumber :=
       if bool_decide (turn s = Black)
       then fullMoveNumber s + 1 else fullMoveNumber s;
     moveHistory := moveHistory s ++ [m];
     status := active;
     winner := None |}.

(** Every right granted by [a] is granted by [c]. *)
Definition rights_le (a c : Castling) : Prop :=
  (k (w a) = true → k (w c) = true) ∧ (q (w a) = true → q (w c) = true)
  ∧ (k (b a) = true → k (b c) = true) ∧ (q (b a) = true → q (b c) = true).

(** A stored entry without promotion code (timestamps play no role in the
    replay). *)
Definition entry (fr fc tr tc : Z) : Wire.MoveData :=
  {| Wire.from := toWire (pos fr fc); Wire.to := toWire (pos tr tc);
     Wire.promotion := None; Wire.timestamp := 0 |}.

(** 1. h4 h5 2. Rh3 Rh6 3. Rh1 Rh8: both king's rooks leave and return. *)
Definition rookTrip : GameState :=
  Eval vm_compute in
    default createInitialState
      (Client.replayMoves
         [entry 6 7 4 7; entry 1 7 3 7; entry 7 7 5 7; entry 0 7 2 7;
          entry 5 7 7 7; entry 2 7 0 7]).

(** The initial position with 99 quiet half-moves on the clock, and the
    developing move Ng1-f3. *)
Definition quiet99 : GameState :=
  {| board := createInitialBoard; turn := White;
     castling := castling createInitialState; enPassantTarget := None;
     halfMoveClock := 99; fullMoveNumber := 50; moveHistory := [];
     status := active; winner := None |}.

(** Ng1-f3 as [getLegalMoves] returns it in the initial position. *)
Definition knightOut : Move :=
  {| from := pos 7 6; to := pos 5 5;
     piece := {| type := Knight; color := White |}; captured := None;
     promotion := None; castlingSide := None; enPassant := false |}.

(** [quiet99] after Ng1-f3. *)
Definition quiet100 : GameState :=
  Eval vm_compute in default quiet99 (makeMove quiet99 knightOut).

(** A move as [addMove] builds it when no [extra] is given. *)
Definition plain (frm : Position) (pc : Piece) (dest : Position)
    (cap : option Piece) : Move :=
  {| from := frm; to := dest; piece := pc; captured := cap;
     promotion := None; castlingSide := None; enPassant := false |}.

(** What a pawn move without promotion or en-passant flag looks like: a
    single or double push onto an empty square, or a diagonal capture. *)
Definition pawnPlain (s : GameState) (frm : Position) (pc : Piece)
    (dest : Position) (sq : Square) : Prop :=
  row dest ≠ promoRow (color pc)
  ∧ ((col dest = col frm ∧ sq = None
      ∧ (row dest = row frm + pawnDir (color pc)
         ∨ (row dest = row frm + 2 * pawnDir (color pc)
            ∧ readSq (board s) (row frm + pawnDir (color pc)) (col frm)
              = Some None)))
     ∨ (col dest ≠ col frm ∧ sq ≠ None
        ∧ row dest = row frm + pawnDir (color pc))).

(** The king's destination column of a castling move. *)
Definition castleCol (side : CastlingSide) : Z :=
  match side with kingside => 6 | queenside => 2 end.

(** [cr.k] or [cr.q], by side. *)
Definition hasRight (cr : CastlingRights) (side : CastlingSide) : bool :=
  match side with kingside => k cr | queenside => q cr end.

(** The pseudo-legal moves of the piece [pc] standing on [frm], as a
    relation: one constructor per kind of [addMove] call in [getRawMoves]. *)
Inductive RawMove (s : GameState) (frm : Position) (pc : Piece)
  : Move → Prop :=
| RawPlain dest sq :
    inBounds (row dest) (col dest) = true →
    readSq (board s) (row dest) (col dest) = Some sq →
    (type pc = Pawn → pawnPlain s frm pc dest sq) →
    (type pc = King → -1 ≤ col dest - col frm ≤ 1) →
    RawMove s frm pc (plain frm pc dest sq)
| RawPromotion dest sq pr :
    type pc = Pawn →
    pr ∈ promotionPieces →
    inBounds (row dest) (col dest) = true →
    readSq (board s) (row dest) (col dest) = Some sq →
    row dest = promoRow (color pc) →
    row dest = row frm + pawnDir (color pc) →
    (col dest ≠ col frm → sq ≠ None) →
    RawMove s frm pc (withPromotion pr (plain frm pc dest sq))
| RawEnPassant dest sq cap :
    type pc = Pawn →
    enPassantTarget s = Some dest →
    inBounds (row dest) (col dest) = true →
    readSq (board s) (row dest) (col dest) = Some sq →
    readSq (board s) (row frm) (col dest) = Some cap →
    row dest = row frm + pawnDir (color pc) →
    col dest ≠ col frm →
    RawMove s frm pc (withEnPassant cap (plain frm pc dest sq))
| RawCastle side sq :
    type pc = King →
    hasRight (rightsOf (castling s) (turn s)) side = true →
    readSq (board s) (row frm) (castleCol side) = Some sq →
    RawMove s frm pc
      (withCastling side (plain frm pc (pos (row frm) (castleCol side)) sq)).

(** The two legal moves of the knight on g1 in the initial position. *)
Definition knightMoves : list Move :=
  [knightOut; plain (pos 7 6) (piece knightOut) (pos 5 7) None].

(** The value written to the destination square by [applyMoveToBoard]. *)
Definition movedPiece (bd : Board) (m : Move) : option Square :=
  match promotion m with
  | Some pr => Some (Some {| type := pr; color := color (piece m) |})
  | None => readSq bd (row (from m)) (col (from m))
  end.

(** The origin and destination of a move lie on rows 0..7 and on
    non-negative columns. *)
Definition onBoard (m : Move) : Prop :=
  0 ≤ row (from m) < 8 ∧ 0 ≤ col (from m)
  ∧ 0 ≤ row (to m) < 8 ∧ 0 ≤ col (to m).

(** A piece that [applyMoveToBoard] may put on a square other than the one
    it stood on: the moved (or promoted) piece, or a castling rook taken from
    the h- or a-file square of the origin row. *)
Definition relocated (bd : Board) (m : Move) (x : Piece) : Prop :=
  movedPiece bd m = Some (Some x)
  ∨ readSq bd (row (from m)) 7 = Some (Some x)
  ∨ readSq bd (row (from m)) 0 = Some (Some x).

(** Every piece on [bd'] stood on the same square of [bd] or was relocated
    by the move [m]. *)
Definition fromOld (bd : Board) (m : Move) (bd' : Board) : Prop :=
  ∀ r c x, readSq bd' r c = Some (Some x) →
           readSq bd r c = Some (Some x) ∨ relocated bd m x.

(** Colour [c] still has a castling right. *)
Definition hasAnyRight (cs : Castling) (c : PieceColor) : Prop :=
  k (rightsOf cs c) = true ∨ q (rightsOf cs c) = true.

(** The en-passant target square is empty, and a king whose side still has a
    castling right stands on the e-file. *)
Record Inv (s : GameState) : Prop := {
  inv_ep : ∀ e, enPassantTarget s = Some e →
                readSq (board s) (row e) (col e) = Some None;
  inv_king : ∀ r c x, readSq (board s) r c = Some (Some x) →
                      type x = King →
                      hasAnyRight (castling s) (color x) → c = 4
}.

(** The square that stored coordinates name, when both are integers. *)
Definition squareOf (p : Wire.Pos) : option Position :=
  r ← Num.toZ (Wire.row p); c ← Num.toZ (Wire.col p); Some (pos r c).

(** [e] is the stored form of the move [m]: the [moveData] object that
    [handleMove] submits, with whatever timestamp the server attached.  Its
    coordinates are the numbers of the squares of [m]. *)
Definition describes (e : Wire.MoveData) (m : Move) : Prop :=
  squareOf (Wire.from e) = Some (from m) ∧ squareOf (Wire.to e) = Some (to m)
  ∧ Wire.promotion e = Client.code <$> promotion m.

(** States reached from the initial position by legal play. *)
Inductive Reachable : GameState → Prop :=
| reach_init : Reachable createInitialState
| reach_move s frm legal m s' :
    Reachable s →
    getLegalMoves s frm = Some legal → m ∈ legal →
    makeMove s m = Some s' →
    Reachable s'.

(** Fool's mate: 1. f3 e5 2. g4 Qh4#. *)
Definition foolsMateEntries : list Wire.MoveData :=
  [entry 6 5 5 5; entry 1 4 3 4; entry 6 6 4 6; entry 0 3 4 7].

(** The position after the first [n] plies of fool's mate, and the move
    played last to reach it. *)
Definition foolsMate (n : nat) : GameState :=
  default createInitialState (Client.replayMoves (take n foolsMateEntries)).

Definition foolsMateMove (n : nat) : Move :=
  default knightOut (last (moveHistory (foolsMate n))).

Definition foolsMateFinal : GameState := Eval vm_compute in foolsMate 4.

(** 1. e4 a6 2. e5 d5 3. exd6 e.p. *)
Definition enPassantGame : GameState :=
  Eval vm_compute in
    default createInitialState
      (Client.replayMoves
         [entry 6 4 4 4; entry 1 0 2 0; entry 4 4 3 4; entry 1 3 3 3;
          entry 3 4 2 3]).

(** 1. e4 e5 2. Nf3 Nc6 3. Bc4 Bc5 4. O-O *)
Definition castledGame : GameState :=
  Eval vm_compute in
    default createInitialState
      (Client.replayMoves
         [entry 6 4 4 4; entry 1 4 3 4; entry 7 6 5 5; entry 0 1 2 2;
          entry 7 5 4 2; entry 0 5 3 2; entry 7 4 7 6]).

(** White: Ke1 and a pawn on a7; Black: Kh8; White to move. *)
Definition promotionState : GameState :=
  {| board :=
       [ replicate 7 None ++ [Some {| type := King; color := Black |}];
         Some {| type := Pawn; color := White |} :: replicate 7 None;
         replicate 8 None; replicate 8 None; replicate 8 None;
         replicate 8 None; replicate 8 None;
         replicate 4 None ++ [Some {| type := King; color := White |}]
           ++ replicate 3 None ];
     turn := White;
     castling := {| w := {| k := false; q := false |};
                    b := {| k := false; q := false |} |};
     enPassantTarget := None; halfMoveClock := 7; fullMoveNumber := 40;
     moveHistory := []; status := active; winner := None |}.

Definition promotionMoves : list Move :=
  Eval vm_compute in default [] (getLegalMoves promotionState (pos 1 0)).

(** [promotionState] after a8=Q+. *)
Definition promotedState : GameState :=
  Eval vm_compute in
    default promotionState
      (makeMove promotionState (default knightOut (head promotionMoves))).

Section HandlerVocabulary.
Import Server.

(** Two participants, their freshly paired game and the store holding it. *)
Definition alice : string := "alice".
Definition bob : string := "bob".

Definition freshGame : GameRow :=
  {| id := "g1"; white_player := alice; black_player := bob; moves := [];
     result := None; time_control := "rapid"; time_white := 600;
     time_black := 600; elo_change_white := 0; elo_change_black := 0;
     row_status := "active"; started_at := 0; ended_at := None;
     last_move_at := None |}.

Definition newProfile : Profile :=
  {| elo_rating := 800; games_played := 0; wins := 0; losses := 0;
     draws := 0 |}.

Definition store0 : Store :=
  {| games := {["g1"%string := freshGame]};
     profiles := {[alice := newProfile; bob := newProfile]};
     rateLimitMap := ∅ |}.

(** A request whose bearer token the identity provider resolves to [uid]. *)
Definition authenticated (uid : string) (bd : Body) : Request :=
  {| authorization := true; user := Some uid; body := bd |}.

(** The descriptor a8-a8, which [endGame] itself sends along with a claim. *)
Definition nullMove : ReqMove :=
  {| rfrom := Some {| rrow := Some 0%Q; rcol := Some 0%Q |};
     rto := Some {| rrow := Some 0%Q; rcol := Some 0%Q |};
     rpromotion := None |}.

(** A request body carrying [nullMove] for game g1 and no claim. *)
Definition nullBody : Body :=
  {| gameId := "g1"; move := Some nullMove; timeRemaining := None;
     gameEnd := None |}.

(** A submission that reaches, and passes, the participant, turn and status
    checks of the handler. *)
Record PassesChecks (now : Z) (uid : string) (bd : Body) (st : Store)
    (game : GameRow) : Prop := {
  pc_rate : (checkRateLimit now uid (rateLimitMap st)).1 = true;
  pc_id : gameId bd ≠ EmptyString;
  pc_game : games st !! gameId bd = Some game;
  pc_participant : white_player game = uid ∨ black_player game = uid;
  pc_turn : bool_decide (length (moves game) `mod` 2 = 0)%nat
            = bool_decide (white_player game = uid);
  pc_active : row_status game = "active"%string
}.

(** White resigns in the initial position: the claim names Black as winner. *)
Definition resignBody : Body :=
  {| gameId := "g1"; move := Some nullMove; timeRemaining := None;
     gameEnd := Some {| ge_result := Some "black"%string;
                        eloChangeWhite := Some (-16);
                        eloChangeBlack := Some 16 |} |}.





(** Successive [checkRateLimit] calls of one user at the given times. *)
Fixpoint runLimiter (uid : string) (times : list Z)
    (rl : gmap string RateEntry) : list bool * gmap string RateEntry :=
  match times with
  | [] => ([], rl)
  | t :: rest =>
      let '(ok, rl1) := checkRateLimit t uid rl in
      let '(oks, rl2) := runLimiter uid rest rl1 in
      (ok :: oks, rl2)
  end.

(** Number of accepted calls among those made at a time in [[lo, hi]]. *)
Definition acceptedBetween (lo hi : Z) (times : list Z) (oks : list bool)
  : nat :=
  length (filter (fun p => p.2 = true ∧ lo ≤ p.1 ≤ hi) (zip times oks)).

(** One submission at 0 ms, 29 at 1000 ms and 30 at 60001 ms. *)
Definition burstTimes : list Z :=
  [0] ++ replicate 29 1000 ++ replicate 30 60001.

(** Number of accepted calls. *)
Definition accepted (oks : list bool) : nat := length (filter (eq true) oks).

(** The counter of a participant's entry, if any, lies between 0 and the
    limit, as it does in every table the limiter itself has built. *)
Definition validEntry (uid : string) (rl : gmap string RateEntry) : Prop :=
  match rl !! uid with
  | Some e => 0 ≤ count e ≤ RATE_LIMIT
  | None => True
  end.

End HandlerVocabulary.

Section ClientVocabulary.
Import Client.

(** The refs agree with the [gameRow] state, as after any completed render. *)
Definition synced (v : View) : Prop :=
  moveCountRef v = length (from_option moves [] (gameRow v))
  ∧ gameRowRef v = gameRow v.

(** The two guards of [syncFromRow]. *)
Definition stale (data : GameRow) (v : View) : bool :=
  bool_decide (length (moves data) < moveCountRef v)%nat
  || (bool_decide (length (moves data) = moveCountRef v)
      && bool_decide (Some (row_status data) = row_status <$> gameRowRef v)).

(** The record of [freshGame] completed by a resignation, with no move
    added. *)
Definition completedGame : GameRow :=
  {| id := "g1"; white_player := alice; black_player := bob; moves := [];
     result := Some "black"%string; time_control := "rapid"; time_white := 600;
     time_black := 600; elo_change_white := -16; elo_change_black := 16;
     row_status := "completed"; started_at := 0; ended_at := Some 9;
     last_move_at := None |}.

(** The view right after the initial load of [freshGame]. *)
Definition loadedView : View :=
  {| gameRow := Some freshGame; gameState := createInitialState;
     timeWhite := 600; timeBlack := 600; moveCountRef := 0;
     gameRowRef := Some freshGame |}.

End ClientVocabulary.

(** ** Vocabulary of the further properties *)

(** The side to move after [n] half-moves. *)
Definition sideAfter (n : nat) : PieceColor :=
  if Nat.even n then White else Black.

(** An 8×8 grid. *)
Definition wfBoard (bd : Board) : Prop :=
  length bd = 8%nat ∧ Forall (fun rw => length rw = 8%nat) bd.

(** The directions along which a piece of type [t] slides, and the offsets
    by which it steps. *)
Definition slideDirs (t : PieceType) : list (Z * Z) :=
  match t with
  | Rook => rookDirs | Bishop => bishopDirs | Queen => queenDirs
  | _ => []
  end.

Definition stepOffsets (t : PieceType) : list (Z * Z) :=
  match t with
  | Knight => knightOffsets | King => kingOffsets
  | _ => []
  end.

(** The columns between king and rook that castling to [side] requires to be
    empty. *)
Definition between (side : CastlingSide) : list Z :=
  match side with kingside => [5; 6] | queenside => [3; 2; 1] end.

(** The square [dest] does not hold a piece of the colour of [pc]. *)
Definition notOwn (s : GameState) (pc : Piece) (dest : Position) : Prop :=
  ∀ o, readSq (board s) (row dest) (col dest) = Some (Some o) →
       color o ≠ color pc.

(** Where a pseudo-legal move of the piece [pc] on [frm] goes, by kind of
    movement: a pawn push, a pawn's diagonal step, a knight's or king's step,
    a slide along a free ray, or castling. *)
Inductive Geometry (s : GameState) (frm : Position) (pc : Piece) (m : Move)
  : Prop :=
| GeoPush :
    type pc = Pawn → col (to m) = col frm → row (to m) ≠ row frm →
    readSq (board s) (row (to m)) (col (to m)) = Some None →
    enPassant m = false → castlingSide m = None →
    Geometry s frm pc m
| GeoDiag dc :
    type pc = Pawn → dc = -1 ∨ dc = 1 →
    to m = pos (row frm + pawnDir (color pc)) (col frm + dc) →
    (enPassant m = false →
     ∃ o, readSq (board s) (row (to m)) (col (to m)) = Some (Some o)
          ∧ color o ≠ color pc) →
    castlingSide m = None →
    Geometry s frm pc m
| GeoStep dr dc :
    (dr, dc) ∈ stepOffsets (type pc) →
    to m = pos (row frm + dr) (col frm + dc) →
    notOwn s pc (to m) →
    enPassant m = false → castlingSide m = None →
    Geometry s frm pc m
| GeoSlide dr dc n :
    (dr, dc) ∈ slideDirs (type pc) → 0 ≤ n →
    to m = pos (row frm + (n + 1) * dr) (col frm + (n + 1) * dc) →
    (∀ j, 1 ≤ j ≤ n →
          inBounds (row frm + j * dr) (col frm + j * dc) = true
          ∧ readSq (board s) (row frm + j * dr) (col frm + j * dc)
            = Some None) →
    notOwn s pc (to m) →
    enPassant m = false → castlingSide m = None →
    Geometry s frm pc m
| GeoCastle side :
    type pc = King → castlingSide m = Some side →
    to m = pos (row frm) (castleCol side) →
    (∀ c, c ∈ between side → readSq (board s) (row frm) c = Some None) →
    enPassant m = false →
    Geometry s frm pc m.

(** The king of colour [c] stands on [(r, cl)]. *)
Definition kingAt (bd : Board) (c : PieceColor) (r cl : Z) : Prop :=
  readSq bd r cl = Some (Some {| type := King; color := c |}).

(** Colour [c] has a king on exactly one square. *)
Definition oneKing (bd : Board) (c : PieceColor) : Prop :=
  ∃ r cl, kingAt bd c r cl
          ∧ ∀ r' c', kingAt bd c r' c' → r' = r ∧ c' = cl.

(** What legal play maintains besides [Inv]: the board is a grid with one
    king of each colour; the pawn that made the en-passant target stands right
    behind it; and the side that has just moved is not in check. *)
Record Sound (s : GameState) : Prop := {
  snd_shape : wfBoard (board s);
  snd_kings : ∀ c, oneKing (board s) c;
  snd_ep : ∀ e, enPassantTarget s = Some e →
             readSq (board s) (row e - pawnDir (turn s)) (col e)
             = Some (Some {| type := Pawn; color := opposite (turn s) |});
  snd_quiet : isInCheck (board s) (opposite (turn s)) = Some false
}.

(** The origin row of a stored entry is an integer from 0 to 7. *)
Definition rowOnBoard (e : Wire.MoveData) : Prop :=
  ∃ r, Num.toZ (Wire.row (Wire.from e)) = Some r ∧ 0 ≤ r < 8.

(** 1. e4 d5: the white e-pawn and the black d-pawn face each other
    diagonally. *)
Definition pawnsMeetEntries : list Wire.MoveData :=
  [entry 6 4 4 4; entry 1 3 3 3].

Definition pawnsMeet : GameState :=
  Eval vm_compute in
    default createInitialState (Client.replayMoves pawnsMeetEntries).

(** exd5 in [pawnsMeet]. *)
Definition pawnTakes : Move :=
  plain (pos 4 4) {| type := Pawn; color := White |} (pos 3 3)
    (Some {| type := Pawn; color := Black |}).

(** What the status of a state says about the position: [all] are the
    legal moves of the side to move. *)
Definition statusMeans (s : GameState) (all : list Move) : Prop :=
  match status s with
  | active => all ≠ [] ∧ halfMoveClock s < 100 ∧ winner s = None
  | checkmate =>
      all = [] ∧ isInCheck (board s) (turn s) = Some true
      ∧ winner s = Some (opposite (turn s))
  | stalemate =>
      all = [] ∧ isInCheck (board s) (turn s) = Some false
      ∧ winner s = None
  | draw => all ≠ [] ∧ 100 ≤ halfMoveClock s ∧ winner s = None
  | resigned => False
  end.

(** The row on which the pieces of colour [c] start, and the column on
    which the rook of [side] starts. *)
Definition homeRow (c : PieceColor) : Z :=
  match c with White => 7 | Black => 0 end.

Definition rookCol (side : CastlingSide) : Z :=
  match side with kingside => 7 | queenside => 0 end.

(** Whoever still has a castling right has king and rook on their home
    squares. *)
Definition AtHome (s : GameState) : Prop :=
  ∀ c side, hasRight (rightsOf (castling s) c) side = true →
    readSq (board s) (homeRow c) 4
    = Some (Some {| type := King; color := c |})
    ∧ readSq (board s) (homeRow c) (rookCol side)
      = Some (Some {| type := Rook; color := c |}).

(** The three stages of the castling-rights update of [makeMove]: a king
    move, a rook leaving its corner file, a rook captured on a corner. *)
Definition kingStage (m : Move) (cs : Castling) : Castling :=
  if bool_decide (type (piece m) = King)
  then setRights cs (color (piece m)) {| k := false; q := false |} else cs.

Definition rookStage (m : Move) (cs : Castling) : Castling :=
  let c := color (piece m) in
  if bool_decide (type (piece m) = Rook) then
    let a := if col (from m) =? 0
             then setRights cs c (clearQ (rightsOf cs c)) else cs in
    if col (from m) =? 7
    then setRights a c (clearK (rightsOf a c)) else a
  else cs.

Definition captureStage (m : Move) (cs : Castling) : Castling :=
  if isType (captured m) Rook then
    let a1 := if (row (to m) =? 0) && (col (to m) =? 0)
              then setRights cs Black (clearQ (b cs)) else cs in
    let a2 := if (row (to m) =? 0) && (col (to m) =? 7)
              then setRights a1 Black (clearK (b a1)) else a1 in
    let a3 := if (row (to m) =? 7) && (col (to m) =? 0)
              then setRights a2 White (clearQ (w a2)) else a2 in
    if (row (to m) =? 7) && (col (to m) =? 7)
    then setRights a3 White (clearK (w a3)) else a3
  else cs.

Section ServerVocabulary.
Import Server.

(** The store after a successful submission of [mv] by [uid] to [game]. *)
Definition accept (now : Z) (uid : string) (bd : Body) (st : Store)
    (game : GameRow) (mv : ReqMove) : Store :=
  {| games :=
       <[gameId bd := updatedRow now game
                        (bool_decide (white_player game = uid)) bd mv]>
         (games st);
     profiles :=
       match gameEnd bd with
       | Some ge =>
           updateProfile game ge (black_player game)
             (updateProfile game ge (white_player game) (profiles st))
       | None => profiles st
       end;
     rateLimitMap := (checkRateLimit now uid (rateLimitMap st)).2 |}.

(** A stored entry that names two squares of the board, with a promotion
    code among q, r, b, n, if any. *)
Definition wellFormed (e : Wire.MoveData) : Prop :=
  (∃ f, squareOf (Wire.from e) = Some f ∧ inBounds (row f) (col f) = true)
  ∧ (∃ t, squareOf (Wire.to e) = Some t ∧ inBounds (row t) (col t) = true)
  ∧ match Wire.promotion e with
    | Some pr => pr ∈ ["q"; "r"; "b"; "n"]%string
    | None => True
    end.

(** A number from 0 to 7, an integer or not. *)
Definition inRange (x : Q) : Prop := (0 <= x)%Q ∧ (x <= 7)%Q.

(** A stored entry as the handler admits it: four numbers from 0 to 7 and a
    promotion code among q, r, b, n, if any. *)
Definition admitted (e : Wire.MoveData) : Prop :=
  inRange (Wire.row (Wire.from e)) ∧ inRange (Wire.col (Wire.from e))
  ∧ inRange (Wire.row (Wire.to e)) ∧ inRange (Wire.col (Wire.to e))
  ∧ match Wire.promotion e with
    | Some pr => pr ∈ ["q"; "r"; "b"; "n"]%string
    | None => True
    end.

(** Every stored game holds admitted entries and non-negative clocks. *)
Definition gamesOk (st : Store) : Prop :=
  ∀ g rw, games st !! g = Some rw →
    Forall admitted (moves rw) ∧ 0 ≤ time_white rw ∧ 0 ≤ time_black rw.

(** The counters of every profile add up. *)
Definition statsOk (st : Store) : Prop :=
  ∀ u p, profiles st !! u = Some p →
    games_played p = wins p + losses p + draws p.

(** Every coordinate that the descriptor carries is an integer. *)
Definition integral (mv : ReqMove) : Prop :=
  ∀ p, rfrom mv = Some p ∨ rto mv = Some p →
    ∀ x, rrow p = Some x ∨ rcol p = Some x → is_Some (Num.toZ x).

(** Every stored entry names two squares of the board. *)
Definition gamesOnBoard (st : Store) : Prop :=
  ∀ g rw, games st !! g = Some rw → Forall wellFormed (moves rw).

(** The request that [handleMove] sends for 1. f3 with ten minutes left. *)
Definition f3Body : Body :=
  GameEnd.moveBody freshGame (foolsMateMove 1) 600 (foolsMate 1).

(** A descriptor whose origin row is 6.5, and a request body carrying it. *)
Definition halfRowMove : ReqMove :=
  {| rfrom := Some {| rrow := Some 6.5%Q; rcol := Some 4%Q |};
     rto := Some {| rrow := Some 4%Q; rcol := Some 4%Q |};
     rpromotion := None |}.

Definition halfRowBody : Body :=
  {| gameId := "g1"; move := Some halfRowMove; timeRemaining := None;
     gameEnd := None |}.

(** The store after White's a8-a8 has been accepted: it is Black's turn. *)
Definition store1 : Store :=
  Eval vm_compute in (handler 5 (authenticated alice nullBody) store0).2.

(** The store after White's resignation has been accepted. *)
Definition store2 : Store :=
  Eval vm_compute in (handler 5 (authenticated alice resignBody) store0).2.

End ServerVocabulary.

(** The delay before retry number [i + 1]. *)
Definition backoff (i : nat) : Z := Z.min (500 * 2 ^ Z.of_nat i) 4000.

(** Ticks of the connection monitor while the browser stays offline, at the
    given times. *)
Definition offlineTicks (ts : list Z) (c : Stability.Connection)
  : Stability.Connection :=
  foldl (fun c t => Stability.tick false t t c) c ts.

(** The selection state is consistent with the props: the stored list is the
    list of legal moves of the selected square, and a promotion dialog is
    open only while the guard of [handleClick] holds. *)
Definition consistent (pr : BoardView.Props) (st : BoardView.Selection)
  : Prop :=
  match BoardView.selectedSquare st with
  | Some sel =>
      getLegalMoves (BoardView.gameState pr) sel
      = Some (BoardView.legalMoves st)
  | None => BoardView.legalMoves st = []
  end
  ∧ (BoardView.promotionMove st ≠ None → BoardView.guard pr = true).

(** What is true of a move handed to [onMove] after the event [ev]. *)
Definition emittedOk (pr : BoardView.Props) (ev : BoardView.Event) (m : Move)
  : Prop :=
  BoardView.guard pr = true
  ∧ color (piece m) = BoardView.playerColor pr
  ∧ (∃ legal, getLegalMoves (BoardView.gameState pr) (from m) = Some legal
              ∧ m ∈ legal)
  ∧ promotion m = match ev with
                  | BoardView.Click _ _ => None
                  | BoardView.Promote t => Some t
                  end.

(** White's view of the position [promotionState]. *)
Definition promotionProps : BoardView.Props :=
  {| BoardView.gameState := promotionState;
     BoardView.playerColor := White;
     BoardView.interactive := true |}.

(** A move on the board, as far as its notation is concerned. *)
Definition onGrid (m : Move) : Prop :=
  inBounds (row (from m)) (col (from m)) = true
  ∧ inBounds (row (to m)) (col (to m)) = true.

(** The promotion a7-a8=N. *)
Definition knightPromotion : Move :=
  withPromotion Knight
    (plain (pos 1 0) {| type := Pawn; color := White |} (pos 0 0) None).



(** The stored list of fool's mate followed by the descriptor a8-a8 that
    [endGame] sends with a resignation. *)
Definition resignedEntries : list Wire.MoveData :=
  foolsMateEntries ++ [entry 0 0 0 0].

(** * Properties *)

(** ** Board access lemmas *)

Lemma inBounds_spec r c : inBounds r c = true ↔ 0 ≤ r < 8 ∧ 0 ≤ c < 8.
Proof. unfold inBounds. rewrite !andb_true_iff. lia. Qed.

Lemma rowAt_is_Some (bd : Board) r :
  (8 ≤ length bd)%nat → 0 ≤ r < 8 → is_Some (rowAt bd r).
Proof.
  intros Hlen Hr. unfold rowAt.
  destruct (0 <=? r) eqn:E; [|lia].
  apply lookup_lt_is_Some. lia.
Qed.

Lemma readSq_is_Some (bd : Board) r c :
  (8 ≤ length bd)%nat → 0 ≤ r < 8 → is_Some (readSq bd r c).
Proof.
  intros Hlen Hr. unfold readSq.
  destruct (rowAt_is_Some bd r Hlen Hr) as [rw ->]. simpl. eauto.
Qed.

Lemma readSq_inBounds (bd : Board) r c :
  (8 ≤ length bd)%nat → inBounds r c = true → is_Some (readSq bd r c).
Proof.
  intros Hlen [Hr _]%inBounds_spec. by apply readSq_is_Some.
Qed.

Lemma elem_of_allSquares r c : (r, c) ∈ allSquares → 0 ≤ r < 8 ∧ 0 ≤ c < 8.
Proof.
  unfold allSquares. intros H.
  apply list_elem_of_bind in H as (r' & H & Hr).
  apply list_elem_of_bind in H as (c' & H & Hc).
  apply list_elem_of_singleton in H. simplify_eq.
  apply elem_of_seqZ in Hr, Hc. lia.
Qed.

(** ** Totality of attack detection on boards with eight rows *)

Lemma toEdge_le_8 r c dr dc :
  inBounds r c = true → toEdge r c dr dc ≤ 8.
Proof.
  intros E%inBounds_spec. unfold toEdge. repeat case_match; lia.
Qed.

Lemma attackDirections_unit :
  Forall (fun d => unitDir d.1.1 d.1.2) attackDirections.
Proof. repeat constructor; simpl; lia. Qed.

Lemma orElse_total a c : is_Some a → is_Some c → is_Some (orElse a c).
Proof. intros [x ->] [y ->]. destruct x; simpl; eauto. Qed.

Section Totality.
Context (bd : Board) (Hrows : (8 ≤ length bd)%nat).

Lemma findKingIn_total c cells :
  (∀ r cl, (r, cl) ∈ cells → 0 ≤ r < 8) → is_Some (findKingIn bd c cells).
Proof.
  induction cells as [|[r cl] rest IH]; intros Hin; simpl; [eauto|].
  destruct (readSq_is_Some bd r cl Hrows) as [sq ->].
  { apply (Hin r cl). left. }
  simpl. destruct (isPiece sq King c); [eauto|].
  apply IH. intros r' c' H'. apply (Hin r' c'). by right.
Qed.

Lemma findKing_total c : is_Some (findKing bd c).
Proof.
  apply findKingIn_total. intros r cl H.
  by apply elem_of_allSquares in H as [? _].
Qed.

Lemma probeOffsets_total rw cl t byColor offs :
  is_Some (probeOffsets bd rw cl t byColor offs).
Proof.
  induction offs as [|[dr dc] rest IH]; simpl; [eauto|].
  destruct (inBounds (rw + dr) (cl + dc)) eqn:E; [|done].
  destruct (readSq_inBounds bd _ _ Hrows E) as [sq ->]. simpl.
  destruct (isPiece sq t byColor); eauto.
Qed.

Lemma slideAttack_total fuel r c dr dc types byColor :
  unitDir dr dc →
  (inBounds r c = true → toEdge r c dr dc ≤ Z.of_nat fuel) →
  is_Some (slideAttack fuel bd r c dr dc types byColor).
Proof.
  intros Hd. revert r c.
  induction fuel as [|f IH]; intros r c Hfuel; simpl.
  - destruct (inBounds r c) eqn:E; [|eauto].
    specialize (Hfuel eq_refl). apply inBounds_spec in E.
    unfold toEdge, unitDir in *.
    repeat case_match; lia.
  - destruct (inBounds r c) eqn:E; [|eauto].
    destruct (readSq_inBounds bd _ _ Hrows E) as [sq ->]. simpl.
    destruct sq as [pc|]; [eauto|].
    apply IH. intros E'. specialize (Hfuel eq_refl).
    apply inBounds_spec in E, E'.
    unfold toEdge, unitDir in *.
    repeat case_match; lia.
Qed.

Lemma slideDirections_total rw cl byColor dirs :
  Forall (fun d => unitDir d.1.1 d.1.2) dirs →
  is_Some (slideDirections bd rw cl byColor dirs).
Proof.
  induction 1 as [|[[dr dc] types] rest Hd _ IH];
    cbn [slideDirections]; [eauto|].
  destruct (slideAttack_total 8 (rw + dr) (cl + dc) dr dc types byColor Hd)
    as [hit ->].
  { intros E. by apply toEdge_le_8. }
  simpl. destruct hit; eauto.
Qed.

Lemma isSquareAttacked_total p byColor :
  is_Some (isSquareAttacked bd p byColor).
Proof.
  unfold isSquareAttacked.
  do 3 (apply orElse_total; [apply probeOffsets_total|]).
  apply slideDirections_total, attackDirections_unit.
Qed.

Lemma isInCheck_is_Some c : is_Some (isInCheck bd c).
Proof.
  unfold isInCheck. destruct (findKing_total c) as [kp ->]. simpl.
  apply isSquareAttacked_total.
Qed.
End Totality.

(** ** Check detection on a board without a king *)

Lemma slideAttack_out fuel bd r c dr dc types byColor :
  inBounds r c = false → slideAttack fuel bd r c dr dc types byColor = Some false.
Proof. intros E. destruct fuel; simpl; by rewrite E. Qed.

Lemma isPiece_own (sq : Square) t c :
  (∀ pc, sq = Some pc → color pc = c) → isPiece sq t (opposite c) = false.
Proof.
  intros H. destruct sq as [pc|]; [|done]. simpl.
  rewrite (H pc eq_refl). destruct c, (type pc), t; done.
Qed.

Section NoKing.
Context (bd : Board) (c : PieceColor) (Hrows : (8 ≤ length bd)%nat).

Lemma findKingIn_sentinel cells :
  (∀ r cl, (r, cl) ∈ cells → 0 ≤ r < 8) →
  (∀ r cl pc, readSq bd r cl = Some (Some pc) →
              ¬ (type pc = King ∧ color pc = c)) →
  findKingIn bd c cells = Some (pos (-1) (-1)).
Proof.
  intros Hin Hnk.
  induction cells as [|[r cl] rest IH]; simpl; [done|].
  destruct (readSq_is_Some bd r cl Hrows) as [sq Hsq].
  { apply (Hin r cl). left. }
  rewrite Hsq. simpl.
  assert (isPiece sq King c = false) as ->.
  { destruct sq as [pc|]; [|done]. simpl.
    specialize (Hnk _ _ _ Hsq). rewrite andb_false_iff, !bool_decide_eq_false.
    destruct (decide (type pc = King)); [right|left]; tauto. }
  apply IH. intros r' c' H'. apply (Hin r' c'). by right.
Qed.

(** The long diagonal, walked from [(i, i)] towards [(7, 7)]. *)
Lemma slideAttack_diagonal fuel i types :
  (∀ j pc, 0 ≤ j < 8 → readSq bd j j = Some (Some pc) → color pc = c) →
  0 ≤ i → 8 - i ≤ Z.of_nat fuel →
  slideAttack fuel bd i i 1 1 types (opposite c) = Some false.
Proof.
  intros Hdiag. revert i.
  induction fuel as [|f IH]; intros i Hi Hf; simpl.
  - destruct (inBounds i i) eqn:E; [|done].
    apply inBounds_spec in E. lia.
  - destruct (inBounds i i) eqn:E; [|done].
    apply inBounds_spec in E as [E _].
    destruct (readSq_is_Some bd i i Hrows E) as [sq Hsq].
    rewrite Hsq. simpl. destruct sq as [pc|].
    + rewrite (Hdiag i pc E Hsq). by destruct c.
    + apply IH; lia.
Qed.

Lemma isSquareAttacked_sentinel :
  (∀ j pc, 0 ≤ j < 8 → readSq bd j j = Some (Some pc) → color pc = c) →
  (∀ pc, readSq bd 0 1 = Some (Some pc) → color pc = c) →
  (∀ pc, readSq bd 1 0 = Some (Some pc) → color pc = c) →
  isSquareAttacked bd (pos (-1) (-1)) (opposite c) = Some false.
Proof.
  intros Hdiag H01 H10.
  destruct (readSq_is_Some bd 0 0 Hrows) as [s00 E00]; [lia|].
  destruct (readSq_is_Some bd 0 1 Hrows) as [s01 E01]; [lia|].
  destruct (readSq_is_Some bd 1 0 Hrows) as [s10 E10]; [lia|].
  assert (∀ t, isPiece s00 t (opposite c) = false) as P00.
  { intros t. apply isPiece_own. intros pc ->. apply (Hdiag 0); [lia|done]. }
  assert (∀ t, isPiece s01 t (opposite c) = false) as P01.
  { intros t. apply isPiece_own. intros pc ->. by apply H01. }
  assert (∀ t, isPiece s10 t (opposite c) = false) as P10.
  { intros t. apply isPiece_own. intros pc ->. by apply H10. }
  unfold isSquareAttacked, attackDirections, knightOffsets, kingOffsets.
  cbn [row col pos slideDirections].
  repeat match goal with
  | |- context [slideAttack 8 bd ?r ?cl ?dr ?dc ?ts ?by_] =>
      rewrite (slideAttack_out 8 bd r cl dr dc ts by_) by reflexivity
  end.
  change (-1 + 1) with 0.
  rewrite (slideAttack_diagonal 8) by (done || lia).
  destruct c; cbn [probeOffsets];
    repeat match goal with
    | |- context [inBounds ?x ?y] =>
        let v := eval vm_compute in (inBounds x y) in
        change (inBounds x y) with v
    end; cbv iota;
    repeat match goal with
    | |- context [readSq bd ?x ?y] =>
        let x' := eval vm_compute in x in
        let y' := eval vm_compute in y in
        progress change (readSq bd x y) with (readSq bd x' y')
    end;
    rewrite ?E00, ?E01, ?E10; cbn -[isPiece];
    rewrite ?P00, ?P01, ?P10; cbn -[isPiece]; rewrite ?P00, ?P01, ?P10; done.
Qed.
End NoKing.

(** C10, as stated, fails: on a board without a black king the sentinel
    (-1,-1) is diagonally adjacent to (0,0), and a white queen there makes
    [isInCheck] answer [true]. *)
Lemma isInCheck_no_king_true :
  findKing loneQueenBoard Black = Some (pos (-1) (-1))
  ∧ isInCheck loneQueenBoard Black = Some true.
Proof. split; vm_compute; reflexivity. Qed.

(** C10 (amended): on every board with eight rows [isInCheck] returns a
    value (no read faults); when no king of the queried colour is on the
    board, [findKing] yields the sentinel (-1,-1), and [isInCheck] returns
    [false] provided no piece of the other colour stands on the long diagonal
    (0,0)..(7,7) or on (0,1) or (1,0), the only squares reachable in bounds
    from the sentinel. *)
Theorem isInCheck_total (bd : Board) (c : PieceColor) :
  (8 ≤ length bd)%nat →
  is_Some (isInCheck bd c)
  ∧ ((∀ r cl pc, readSq bd r cl = Some (Some pc) →
                 ¬ (type pc = King ∧ color pc = c)) →
     findKing bd c = Some (pos (-1) (-1))
     ∧ ((∀ j pc, 0 ≤ j < 8 → readSq bd j j = Some (Some pc) → color pc = c) →
        (∀ pc, readSq bd 0 1 = Some (Some pc) → color pc = c) →
        (∀ pc, readSq bd 1 0 = Some (Some pc) → color pc = c) →
        isInCheck bd c = Some false)).
Proof.
  intros Hrows. split; [by apply isInCheck_is_Some|].
  intros Hnk.
  assert (findKing bd c = Some (pos (-1) (-1))) as Hk.
  { apply findKingIn_sentinel; [done| |done].
    intros r cl H. by apply elem_of_allSquares in H as [? _]. }
  split; [done|]. intros Hdiag H01 H10.
  unfold isInCheck. rewrite Hk. simpl.
  by apply isSquareAttacked_sentinel.
Qed.

Lemma readSq_emptyBoard r c pc : readSq emptyBoard r c ≠ Some (Some pc).
Proof.
  unfold readSq, rowAt, emptyBoard. intros H.
  destruct (0 <=? r); [|done].
  apply bind_Some in H as (rw & E & H).
  apply lookup_replicate in E as [-> _]. injection H as H.
  destruct (0 <=? c); [|done].
  destruct (_ !! Z.to_nat c) as [sq|] eqn:E'; [|done].
  apply (lookup_replicate 8 None) in E' as [-> _]. done.
Qed.

Lemma isInCheck_total_witness :
  is_Some (isInCheck emptyBoard White)
  ∧ findKing emptyBoard White = Some (pos (-1) (-1))
  ∧ isInCheck emptyBoard White = Some false.
Proof.
  destruct (isInCheck_total emptyBoard White) as [H1 H2].
  - vm_compute. lia.
  - split; [exact H1|].
    destruct H2 as [H2 H3].
    + intros r cl pc H. by apply readSq_emptyBoard in H.
    + split; [exact H2|].
      apply H3; intros; by eapply False_ind, readSq_emptyBoard.
Defined.

(** ** The initial position *)

(** C9: from the initial position the side to move (White) has exactly 20
    legal moves, and after each of them the white king is not attacked. *)
Theorem initial_position_20_moves :
  ∃ ms, getAllLegalMoves createInitialState = Some ms
        ∧ length ms = 20%nat
        ∧ Forall (fun m =>
            ∃ nb, applyMoveToBoard (board createInitialState) m = Some nb
                  ∧ isInCheck nb White = Some false) ms.
Proof.
  eexists. split; [vm_compute; reflexivity|]. split; [reflexivity|].
  repeat constructor; (eexists; split; [vm_compute; reflexivity|reflexivity]).
Qed.

(** The en-passant capture removes the pawn beside the capturing pawn, not
    one on the destination square. *)
Example enPassant_capture :
  (enPassant <$> last (moveHistory enPassantGame)) = Some true
  ∧ (captured <$> last (moveHistory enPassantGame))
    = Some (Some {| type := Pawn; color := Black |})
  ∧ readSq (board enPassantGame) 2 3
    = Some (Some {| type := Pawn; color := White |})
  ∧ readSq (board enPassantGame) 3 3 = Some None
  ∧ readSq (board enPassantGame) 3 4 = Some None
  ∧ halfMoveClock enPassantGame = 0.
Proof. repeat split. Qed.

(** Castling kingside moves the rook next to the king and clears both of
    White's rights. *)
Example castling_kingside :
  (castlingSide <$> last (moveHistory castledGame)) = Some (Some kingside)
  ∧ readSq (board castledGame) 7 6
    = Some (Some {| type := King; color := White |})
  ∧ readSq (board castledGame) 7 5
    = Some (Some {| type := Rook; color := White |})
  ∧ readSq (board castledGame) 7 4 = Some None
  ∧ readSq (board castledGame) 7 7 = Some None
  ∧ w (castling castledGame) = {| k := false; q := false |}
  ∧ b (castling castledGame) = {| k := true; q := true |}
  ∧ halfMoveClock castledGame = 5
  ∧ fullMoveNumber castledGame = 4.
Proof. repeat split. Qed.

(** A pawn reaching the far rank yields one move per promotion piece, and the
    promoted piece replaces the pawn. *)
Example promotion_moves :
  getLegalMoves promotionState (pos 1 0) = Some promotionMoves
  ∧ promotion <$> promotionMoves
    = [Some Queen; Some Rook; Some Bishop; Some Knight]
  ∧ (makeMove promotionState <$> head promotionMoves)
    = Some (Some promotedState)
  ∧ readSq (board promotedState) 0 0
    = Some (Some {| type := Queen; color := White |})
  ∧ readSq (board promotedState) 1 0 = Some None
  ∧ isInCheck (board promotedState) Black = Some true
  ∧ status promotedState = active
  ∧ halfMoveClock promotedState = 0.
Proof. repeat split; vm_compute; reflexivity. Qed.

(** ** What [makeMove] computes *)

Lemma makeMove_inv s m s' :
  makeMove s m = Some s' →
  ∃ nb legal,
    applyMoveToBoard (board s) m = Some nb
    ∧ getAllLegalMoves (movedState s m nb) = Some legal
    ∧ ((legal = [] ∧ isInCheck nb (opposite (turn s)) = Some true
        ∧ s' = withStatus (movedState s m nb) checkmate (Some (turn s)))
       ∨ (legal = [] ∧ isInCheck nb (opposite (turn s)) = Some false
          ∧ s' = withStatus (movedState s m nb) stalemate None)
       ∨ (legal ≠ [] ∧ 100 ≤ halfMoveClock (movedState s m nb)
          ∧ s' = withStatus (movedState s m nb) draw None)
       ∨ (legal ≠ [] ∧ halfMoveClock (movedState s m nb) < 100
          ∧ s' = movedState s m nb)).
Proof.
  unfold makeMove. fold (movedState s m). intros H.
  apply bind_Some in H as (nb & Hnb & H). fold (movedState s m nb) in H.
  apply bind_Some in H as (legal & Hlegal & H).
  exists nb, legal. split; [done|]. split; [done|].
  destruct (bool_decide (length legal = 0%nat)) eqn:E.
  - apply bool_decide_eq_true in E. apply length_zero_iff_nil in E.
    apply bind_Some in H as (chk & Hchk & H).
    destruct chk; injection H as <-; [left|right; left]; done.
  - apply bool_decide_eq_false in E.
    assert (legal ≠ []) by (intros ->; by apply E).
    destruct (100 <=? halfMoveClock (movedState s m nb)) eqn:E100;
      injection H as <-; right; right; [left|right]; split_and!; try done; lia.
Qed.

Lemma makeMove_fields s m s' :
  makeMove s m = Some s' →
  applyMoveToBoard (board s) m = Some (board s')
  ∧ turn s' = opposite (turn s)
  ∧ castling s' = newCastling (castling s) m
  ∧ enPassantTarget s' = newEnPassant m
  ∧ halfMoveClock s' =
      (if bool_decide (type (piece m) = Pawn) || negb (isEmpty (captured m))
       then 0 else halfMoveClock s + 1)
  ∧ fullMoveNumber s' =
      (if bool_decide (turn s = Black)
       then fullMoveNumber s + 1 else fullMoveNumber s)
  ∧ moveHistory s' = moveHistory s ++ [m].
Proof.
  intros (nb & legal & Hnb & _ & H)%makeMove_inv.
  destruct H as [(_ & _ & ->)|[(_ & _ & ->)|[(_ & _ & ->)|(_ & _ & ->)]]];
    done.
Qed.

Lemma playMoves_None ms :
  foldl (fun acc m => s' ← acc; makeMove s' m) None ms = None.
Proof. induction ms; simpl; done. Qed.

Lemma playMoves_cons s m ms s' :
  playMoves s (m :: ms) = Some s' →
  ∃ s1, makeMove s m = Some s1 ∧ playMoves s1 ms = Some s'.
Proof.
  unfold playMoves. simpl. destruct (makeMove s m) as [s1|]; [eauto|].
  by rewrite playMoves_None.
Qed.

(** ** Castling rights only ever shrink *)

Lemma rights_le_refl a : rights_le a a.
Proof. unfold rights_le. tauto. Qed.

Lemma rights_le_trans a c d : rights_le a c → rights_le c d → rights_le a d.
Proof. unfold rights_le. tauto. Qed.

Lemma newCastling_le cs m : rights_le (newCastling cs m) cs.
Proof.
  destruct cs as [[wk wq] [bk bq]].
  unfold newCastling, rights_le, setRights, clearK, clearQ, rightsOf.
  destruct (color (piece m));
    repeat (case_match; simpl); simpl; try tauto; try (repeat split; congruence).
Qed.

Lemma makeMove_rights_le s m s' :
  makeMove s m = Some s' → rights_le (castling s') (castling s).
Proof.
  intros (_ & _ & -> & _)%makeMove_fields. apply newCastling_le.
Qed.

(** C7: castling rights are monotonically non-increasing under [makeMove],
    over any sequence of moves: a right that is false is never set back to
    true, so a rook that leaves its home square and later returns does not
    restore the right it lost. *)
Theorem castling_rights_never_restored s ms s' :
  playMoves s ms = Some s' → rights_le (castling s') (castling s).
Proof.
  revert s. induction ms as [|m ms IH]; intros s H.
  - injection H as <-. apply rights_le_refl.
  - apply playMoves_cons in H as (s1 & H1 & H2).
    eapply rights_le_trans; [by apply IH|by eapply makeMove_rights_le].
Qed.

Lemma castling_rights_never_restored_witness :
  playMoves createInitialState (moveHistory rookTrip) = Some rookTrip
  ∧ rights_le (castling rookTrip) (castling createInitialState)
  ∧ readSq (board rookTrip) 7 7 = Some (Some {| type := Rook; color := White |})
  ∧ k (w (castling rookTrip)) = false.
Proof.
  assert (playMoves createInitialState (moveHistory rookTrip) = Some rookTrip)
    as H by (vm_compute; reflexivity).
  split; [exact H|]. split.
  - exact (castling_rights_never_restored _ _ _ H).
  - split; reflexivity.
Defined.

(** ** The shape of generated moves *)

Lemma addMove_Some bd frm pc dest m :
  addMove bd frm pc dest = Some m →
  ∃ sq, readSq bd (row dest) (col dest) = Some sq ∧ m = plain frm pc dest sq.
Proof.
  unfold addMove. intros (sq & Hsq & H)%bind_Some.
  injection H as <-. eauto.
Qed.

Lemma addOne_Some bd frm pc dest ms :
  addOne bd frm pc dest = Some ms →
  ∃ sq, readSq bd (row dest) (col dest) = Some sq
        ∧ ms = [plain frm pc dest sq].
Proof.
  unfold addOne. intros (m & (sq & Hsq & ->)%addMove_Some & H)%bind_Some.
  injection H as <-. eauto.
Qed.

Lemma addPromotions_Some bd frm pc dest ms :
  addPromotions bd frm pc dest = Some ms →
  ∃ sq, readSq bd (row dest) (col dest) = Some sq
        ∧ ms = (fun pr => withPromotion pr (plain frm pc dest sq))
               <$> promotionPieces.
Proof.
  unfold addPromotions, promotionPieces. intros H.
  destruct (addMove bd frm pc dest) as [m|] eqn:E; [|done].
  apply addMove_Some in E as (sq & Hsq & ->).
  simpl in H. injection H as <-. eauto.
Qed.

Lemma andThen_true a c :
  a &&& c = Some true → a = Some true ∧ c = Some true.
Proof. unfold andThen. destruct a as [[]|]; simpl; by intros. Qed.

Section RawMoves.
Context (s : GameState) (frm : Position) (pc : Piece).

Lemma pawnForward_sound ms m :
  type pc = Pawn →
  pawnForward (board s) frm pc = Some ms → m ∈ ms → RawMove s frm pc m.
Proof.
  intros Hp. unfold pawnForward.
  destruct (inBounds _ _) eqn:Hin; [|intros [= <-]; by intros ?%elem_of_nil].
  intros (ahead & Hahead & H)%bind_Some.
  destruct ahead as [?|]; simpl in H;
    [injection H as <-; by intros ?%elem_of_nil|].
  apply bind_Some in H as (single & Hs & H).
  apply bind_Some in H as (double & Hd & H).
  injection H as <-. intros [Hm|Hm]%elem_of_app.
  - destruct (_ =? promoRow _) eqn:Epr.
    + apply addPromotions_Some in Hs as (sq & Hsq & ->).
      apply list_elem_of_fmap in Hm as (pr & -> & Hpr).
      simpl in Hsq. rewrite Hahead in Hsq. injection Hsq as <-.
      apply RawPromotion; simpl; try done; lia.
    + apply addOne_Some in Hs as (sq & Hsq & ->).
      apply list_elem_of_singleton in Hm as ->.
      simpl in Hsq. rewrite Hahead in Hsq. injection Hsq as <-.
      apply RawPlain; simpl; try done; [|congruence].
      intros _. split; simpl; [lia|]. left. auto.
  - destruct (_ =? startRow _) eqn:Est;
      [|injection Hd as <-; by apply elem_of_nil in Hm].
    apply bind_Some in Hd as (two & Htwo & Hd).
    destruct two as [?|]; simpl in Hd;
      [injection Hd as <-; by apply elem_of_nil in Hm|].
    apply addOne_Some in Hd as (sq & Hsq & ->).
    apply list_elem_of_singleton in Hm as ->.
    simpl in Hsq. rewrite Htwo in Hsq. injection Hsq as <-.
    apply inBounds_spec in Hin.
    apply RawPlain; simpl; try done; [| |congruence].
    + apply inBounds_spec. unfold startRow, pawnDir in *.
      destruct (color pc); lia.
    + intros _. split; simpl.
      * unfold startRow, pawnDir, promoRow in *. destruct (color pc); lia.
      * left. split; [done|]. split; [done|]. right. done.
Qed.

Lemma pawnCapture_sound dc ms m :
  type pc = Pawn → dc ≠ 0 →
  pawnCapture (board s) frm pc (enPassantTarget s) dc = Some ms →
  m ∈ ms → RawMove s frm pc m.
Proof.
  intros Hp Hdc. unfold pawnCapture.
  destruct (inBounds _ _) eqn:Hin; simpl;
    [|intros [= <-]; by intros ?%elem_of_nil].
  intros (target & Htarget & H)%bind_Some.
  apply bind_Some in H as (caps & Hcaps & H).
  apply bind_Some in H as (eps & Heps & H).
  injection H as <-. intros [Hm|Hm]%elem_of_app.
  - destruct target as [o|];
      [|injection Hcaps as <-; by apply elem_of_nil in Hm].
    destruct (bool_decide (color o ≠ color pc));
      [|injection Hcaps as <-; by apply elem_of_nil in Hm].
    destruct (_ =? promoRow _) eqn:Epr.
    + apply addPromotions_Some in Hcaps as (sq & Hsq & ->).
      apply list_elem_of_fmap in Hm as (pr & -> & Hpr).
      simpl in Hsq. rewrite Htarget in Hsq. injection Hsq as <-.
      apply RawPromotion; simpl; try done; lia.
    + apply addOne_Some in Hcaps as (sq & Hsq & ->).
      apply list_elem_of_singleton in Hm as ->.
      simpl in Hsq. rewrite Htarget in Hsq. injection Hsq as <-.
      apply RawPlain; simpl; try done; [|congruence].
      intros _. split; simpl; [lia|]. right. split; [lia|]. done.
  - destruct (enPassantTarget s) as [e|] eqn:Eep;
      [|injection Heps as <-; by apply elem_of_nil in Hm].
    destruct ((row e =? _) && (col e =? _)) eqn:Ee;
      [|injection Heps as <-; by apply elem_of_nil in Hm].
    apply andb_true_iff in Ee as [Er Ec].
    apply bind_Some in Heps as (cap & Hcap & Heps).
    apply bind_Some in Heps as (m0 & (sq & Hsq & ->)%addMove_Some & Heps).
    injection Heps as <-. apply list_elem_of_singleton in Hm as ->.
    assert (e = pos (row frm + pawnDir (color pc)) (col frm + dc)) as ->.
    { destruct e as [er ec]. simpl in *. unfold pos. f_equal; lia. }
    apply RawEnPassant; simpl; try done. lia.
Qed.

Lemma stepMoves_sound offs ms m :
  stepMoves (board s) frm pc offs = Some ms → m ∈ ms →
  ∃ dr dc sq,
    (dr, dc) ∈ offs
    ∧ inBounds (row frm + dr) (col frm + dc) = true
    ∧ readSq (board s) (row frm + dr) (col frm + dc) = Some sq
    ∧ m = plain frm pc (pos (row frm + dr) (col frm + dc)) sq.
Proof.
  revert ms. induction offs as [|[dr dc] rest IH]; intros ms; simpl.
  { intros [= <-]. by intros ?%elem_of_nil. }
  intros (here & Hhere & H)%bind_Some.
  apply bind_Some in H as (more & Hmore & H).
  injection H as <-. intros [Hm|Hm]%elem_of_app.
  - assert (∃ sq, readSq (board s) (row frm + dr) (col frm + dc) = Some sq
                  ∧ inBounds (row frm + dr) (col frm + dc) = true
                  ∧ here = [plain frm pc (pos (row frm + dr) (col frm + dc)) sq])
      as (sq & Hsq & Hin & ->).
    { destruct (inBounds _ _) eqn:Hin;
        [|injection Hhere as <-; by apply elem_of_nil in Hm].
      apply bind_Some in Hhere as (sq & Hsq & Hhere).
      destruct sq as [o|].
      - destruct (bool_decide _);
          [|injection Hhere as <-; by apply elem_of_nil in Hm].
        apply addOne_Some in Hhere as (sq & Hsq' & ->).
        simpl in Hsq'. eauto.
      - apply addOne_Some in Hhere as (sq & Hsq' & ->).
        simpl in Hsq'. eauto. }
    apply list_elem_of_singleton in Hm as ->.
    exists dr, dc, sq. split_and!; try done. left.
  - destruct (IH _ Hmore Hm) as (dr' & dc' & sq & Hin & ?).
    exists dr', dc', sq. split; [by right|done].
Qed.

Lemma castlingMoves_sound ms m :
  type pc = King →
  castlingMoves (board s) frm pc (castling s) (turn s) = Some ms →
  m ∈ ms → RawMove s frm pc m.
Proof.
  intros Hk. unfold castlingMoves.
  intros (ks & Hks & H)%bind_Some.
  apply bind_Some in H as (km & Hkm & H).
  apply bind_Some in H as (qs & Hqs & H).
  apply bind_Some in H as (qm & Hqm & H).
  injection H as <-. intros [Hm|Hm]%elem_of_app.
  - destruct ks; [|injection Hkm as <-; by apply elem_of_nil in Hm].
    apply bind_Some in Hkm as (m0 & (sq & Hsq & ->)%addMove_Some & Hkm).
    injection Hkm as <-. apply list_elem_of_singleton in Hm as ->.
    do 5 apply andThen_true in Hks as [Hks _].
    injection Hks as Hks.
    by apply (RawCastle s frm pc kingside).
  - destruct qs; [|injection Hqm as <-; by apply elem_of_nil in Hm].
    apply bind_Some in Hqm as (m0 & (sq & Hsq & ->)%addMove_Some & Hqm).
    injection Hqm as <-. apply list_elem_of_singleton in Hm as ->.
    do 6 apply andThen_true in Hqs as [Hqs _].
    injection Hqs as Hqs.
    by apply (RawCastle s frm pc queenside).
Qed.

Lemma slideMoves_sound fuel r c dr dc ms m :
  slideMoves fuel (board s) frm pc r c dr dc = Some ms → m ∈ ms →
  ∃ r' c' sq,
    inBounds r' c' = true
    ∧ readSq (board s) r' c' = Some sq
    ∧ m = plain frm pc (pos r' c') sq.
Proof.
  revert r c ms. induction fuel as [|f IH]; intros r c ms; simpl.
  { destruct (inBounds r c); [done|].
    intros [= <-]. by intros ?%elem_of_nil. }
  destruct (inBounds r c) eqn:Hin;
    [|intros [= <-]; by intros ?%elem_of_nil].
  intros (sq & Hsq & H)%bind_Some. destruct sq as [o|].
  - destruct (bool_decide _);
      [|injection H as <-; by intros ?%elem_of_nil].
    apply addOne_Some in H as (sq & Hsq' & ->).
    intros ->%list_elem_of_singleton. simpl in Hsq'. eauto 10.
  - apply bind_Some in H as (m0 & (sq & Hsq' & ->)%addMove_Some & H).
    apply bind_Some in H as (more & Hmore & H).
    injection H as <-. intros [->|Hm]%elem_of_cons.
    + simpl in Hsq'. eauto 10.
    + by eapply IH.
Qed.

Lemma slideAll_sound dirs ms m :
  slideAll (board s) frm pc dirs = Some ms → m ∈ ms →
  ∃ r' c' sq,
    inBounds r' c' = true
    ∧ readSq (board s) r' c' = Some sq
    ∧ m = plain frm pc (pos r' c') sq.
Proof.
  revert ms. induction dirs as [|[dr dc] rest IH]; intros ms;
    cbn [slideAll].
  { intros [= <-]. by intros ?%elem_of_nil. }
  intros (here & Hhere & H)%bind_Some.
  apply bind_Some in H as (more & Hmore & H).
  injection H as <-. intros [Hm|Hm]%elem_of_app.
  - by eapply slideMoves_sound.
  - by eapply IH.
Qed.
End RawMoves.

(** Every move produced by [getRawMoves] belongs to the piece of the side to
    move that stands on the origin square, and has one of the shapes of
    [RawMove]. *)
Lemma getRawMoves_sound s frm ms m :
  getRawMoves s frm = Some ms → m ∈ ms →
  ∃ pc, readSq (board s) (row frm) (col frm) = Some (Some pc)
        ∧ color pc = turn s
        ∧ RawMove s frm pc m.
Proof.
  unfold getRawMoves. intros (sq & Hsq & H)%bind_Some Hm.
  destruct sq as [pc|]; [|injection H as <-; by apply elem_of_nil in Hm].
  destruct (bool_decide (color pc ≠ turn s)) eqn:Ec;
    [injection H as <-; by apply elem_of_nil in Hm|].
  apply bool_decide_eq_false in Ec. apply dec_stable in Ec.
  exists pc. split; [done|]. split; [done|].
  destruct (type pc) eqn:Ht.
  - apply bind_Some in H as (fwd & Hfwd & H).
    apply bind_Some in H as (lft & Hlft & H).
    apply bind_Some in H as (rgt & Hrgt & H).
    injection H as <-.
    apply elem_of_app in Hm as [Hm|[Hm|Hm]%elem_of_app].
    + by eapply pawnForward_sound.
    + by eapply (pawnCapture_sound s frm pc (-1)).
    + by eapply (pawnCapture_sound s frm pc 1).
  - destruct (stepMoves_sound _ _ _ _ _ _ H Hm)
      as (dr & dc & sq & _ & Hin & Hsq' & ->).
    apply RawPlain; simpl; try done; congruence.
  - destruct (slideAll_sound _ _ _ _ _ _ H Hm) as (r' & c' & sq & Hin & Hsq' & ->).
    apply RawPlain; simpl; try done; congruence.
  - destruct (slideAll_sound _ _ _ _ _ _ H Hm) as (r' & c' & sq & Hin & Hsq' & ->).
    apply RawPlain; simpl; try done; congruence.
  - destruct (slideAll_sound _ _ _ _ _ _ H Hm) as (r' & c' & sq & Hin & Hsq' & ->).
    apply RawPlain; simpl; try done; congruence.
  - apply bind_Some in H as (steps & Hsteps & H).
    apply bind_Some in H as (cast & Hcast & H).
    injection H as <-. apply elem_of_app in Hm as [Hm|Hm].
    + destruct (stepMoves_sound _ _ _ _ _ _ Hsteps Hm)
        as (dr & dc & sq & Hoff & Hin & Hsq' & ->).
      apply RawPlain; simpl; try done; [congruence|].
      intros _. unfold kingOffsets in Hoff.
      repeat (apply elem_of_cons in Hoff as [[= -> ->]|Hoff]; [lia|]).
      by apply elem_of_nil in Hoff.
    + by eapply castlingMoves_sound.
Qed.

(** ** Membership in the list of legal moves *)

Lemma filterM_elem_of {A} (f : A → option bool) l l' x :
  filterM f l = Some l' → x ∈ l' → x ∈ l ∧ f x = Some true.
Proof.
  revert l'. induction l as [|y rest IH]; intros l'; simpl.
  { intros [= <-]. by intros ?%elem_of_nil. }
  intros (keep & Hkeep & H)%bind_Some.
  apply bind_Some in H as (more & Hmore & H). injection H as <-.
  destruct keep.
  - intros [->|Hx]%elem_of_cons; [split; [left|done]|].
    destruct (IH _ Hmore Hx). split; [by right|done].
  - intros Hx. destruct (IH _ Hmore Hx). split; [by right|done].
Qed.

Lemma getLegalMoves_elem_of s frm legal m :
  getLegalMoves s frm = Some legal → m ∈ legal →
  ∃ raw, getRawMoves s frm = Some raw ∧ m ∈ raw
         ∧ leavesKingSafe s m = Some true.
Proof.
  unfold getLegalMoves. intros (raw & Hraw & H)%bind_Some Hm.
  destruct (filterM_elem_of _ _ _ _ H Hm). eauto.
Qed.

(** ** Reading a board after a write *)

Lemma cloneBoard_id bd : cloneBoard bd = bd.
Proof.
  unfold cloneBoard. rewrite <- (list_fmap_id bd) at 2.
  apply list_fmap_ext. intros _ rw _.
  rewrite <- (list_fmap_id rw) at 2.
  apply list_fmap_ext. intros _ [[]|] _; done.
Qed.

Lemma rowAt_Some bd r rw :
  rowAt bd r = Some rw → 0 ≤ r ∧ bd !! Z.to_nat r = Some rw.
Proof. unfold rowAt. destruct (0 <=? r) eqn:E; [|done]. split; [lia|done]. Qed.

(** [board[r][c]] after [board[r0][c0] = v]. *)
Lemma readSq_writeSq bd r0 c0 v bd' r c :
  writeSq bd r0 c0 v = Some bd' →
  readSq bd' r c =
    if bool_decide (r = r0 ∧ c = c0) then Some v else readSq bd r c.
Proof.
  unfold writeSq. intros (rw & [Hr0 Hrw]%rowAt_Some & H)%bind_Some.
  destruct (0 <=? c0) eqn:Hc0; [|done]. injection H as <-.
  apply Z.leb_le in Hc0.
  pose proof (lookup_lt_Some _ _ _ Hrw) as Hlen.
  unfold readSq, rowAt.
  destruct (0 <=? r) eqn:Hr; simpl.
  2:{ rewrite bool_decide_eq_false_2 by lia. done. }
  apply Z.leb_le in Hr.
  destruct (decide (r = r0)) as [->|Hne].
  2:{ rewrite list_lookup_insert_ne by lia.
      rewrite bool_decide_eq_false_2 by lia. done. }
  rewrite list_lookup_insert_eq by done. rewrite Hrw. simpl.
  destruct (0 <=? c) eqn:Hc.
  2:{ rewrite bool_decide_eq_false_2 by lia. done. }
  apply Z.leb_le in Hc.
  destruct (decide (c = c0)) as [->|Hnc].
  - rewrite bool_decide_eq_true_2 by done. f_equal.
    case_decide.
    + by rewrite list_lookup_insert_eq.
    + rewrite lookup_app_r by lia.
      rewrite lookup_app_r by (rewrite length_replicate; lia).
      rewrite length_replicate.
      replace (_ - _ - _)%nat with 0%nat by lia. done.
  - rewrite bool_decide_eq_false_2 by tauto. f_equal.
    case_decide.
    + rewrite list_lookup_insert_ne by lia. done.
    + destruct (decide (Z.to_nat c < length rw)%nat).
      * by rewrite lookup_app_l.
      * rewrite lookup_app_r by lia.
        rewrite (lookup_ge_None_2 rw) by lia. simpl.
        destruct (decide (Z.to_nat c < Z.to_nat c0)%nat).
        -- rewrite lookup_app_l by (rewrite length_replicate; lia).
           destruct (replicate _ _ !! _) as [x|] eqn:E; [|done].
           by apply lookup_replicate in E as [-> _].
        -- rewrite lookup_app_r by (rewrite length_replicate; lia).
           rewrite length_replicate.
           rewrite lookup_ge_None_2; [done|]. simpl. lia.
Qed.

(** ** Move generation and application never fault on eight rows *)

Lemma andThen_total a c : is_Some a → is_Some c → is_Some (a &&& c).
Proof. intros [x ->] [y ->]. destruct x; simpl; eauto. Qed.

Lemma filterM_total {A} (f : A → option bool) l :
  (∀ x, x ∈ l → is_Some (f x)) → is_Some (filterM f l).
Proof.
  induction l as [|x rest IH]; intros H; simpl; [eauto|].
  destruct (H x) as [keep ->]; [left|].
  destruct IH as [more ->]; [intros y Hy; apply H; by right|].
  simpl. eauto.
Qed.

Lemma readSq_Some_col (bd : Board) r c x :
  readSq bd r c = Some (Some x) → 0 ≤ c.
Proof.
  unfold readSq. intros (rw & _ & H)%bind_Some.
  destruct (0 <=? c) eqn:E; [lia|done].
Qed.

Lemma writeSq_total (bd : Board) r c v :
  (8 ≤ length bd)%nat → 0 ≤ r < 8 → 0 ≤ c →
  ∃ bd', writeSq bd r c v = Some bd' ∧ length bd' = length bd.
Proof.
  intros Hrows Hr Hc. unfold writeSq.
  destruct (rowAt_is_Some bd r Hrows Hr) as [rw ->]. simpl.
  destruct (0 <=? c) eqn:E; [|lia].
  eexists. split; [done|]. apply length_insert.
Qed.

Section GeneratorTotality.
Context (bd : Board) (Hrows : (8 ≤ length bd)%nat).
Context (frm : Position) (pc : Piece) (Hfrm : 0 ≤ row frm < 8).

Lemma addMove_total dest :
  0 ≤ row dest < 8 → is_Some (addMove bd frm pc dest).
Proof.
  intros Hd. unfold addMove.
  destruct (readSq_is_Some bd (row dest) (col dest) Hrows Hd) as [sq ->].
  simpl. eauto.
Qed.

Lemma addOne_total dest :
  0 ≤ row dest < 8 → is_Some (addOne bd frm pc dest).
Proof.
  intros Hd. unfold addOne.
  destruct (addMove_total dest Hd) as [m ->]. simpl. eauto.
Qed.

Lemma addPromotions_total dest :
  0 ≤ row dest < 8 → is_Some (addPromotions bd frm pc dest).
Proof.
  intros Hd. unfold addPromotions, promotionPieces.
  destruct (addMove_total dest Hd) as [m Hm]. simpl. rewrite Hm. simpl. eauto.
Qed.

Lemma pawnForward_total : is_Some (pawnForward bd frm pc).
Proof.
  unfold pawnForward.
  destruct (inBounds _ _) eqn:Hin; [|eauto].
  apply inBounds_spec in Hin as [Hin _].
  destruct (readSq_is_Some bd _ (col frm) Hrows Hin) as [ahead ->]. simpl.
  destruct ahead; simpl; [eauto|].
  assert (is_Some (if row frm + pawnDir (color pc) =? promoRow (color pc)
                   then addPromotions bd frm pc
                          (pos (row frm + pawnDir (color pc)) (col frm))
                   else addOne bd frm pc
                          (pos (row frm + pawnDir (color pc)) (col frm))))
    as [single ->].
  { destruct (_ =? _); [apply addPromotions_total|apply addOne_total]; done. }
  simpl.
  destruct (row frm =? startRow (color pc)) eqn:Est; [|simpl; eauto].
  assert (0 ≤ row frm + 2 * pawnDir (color pc) < 8) as Htwo.
  { apply Z.eqb_eq in Est. unfold startRow, pawnDir in *.
    destruct (color pc); lia. }
  destruct (readSq_is_Some bd _ (col frm) Hrows Htwo) as [two ->]. simpl.
  destruct two; simpl; [eauto|].
  destruct (addOne_total (pos (row frm + 2 * pawnDir (color pc)) (col frm)))
    as [double ->]; [done|]. simpl. eauto.
Qed.

Lemma pawnCapture_total ep dc : is_Some (pawnCapture bd frm pc ep dc).
Proof.
  unfold pawnCapture.
  destruct (inBounds _ _) eqn:Hin; simpl; [|eauto].
  apply inBounds_spec in Hin as [Hin _].
  destruct (readSq_is_Some bd _ (col frm + dc) Hrows Hin) as [target ->].
  simpl.
  assert (is_Some (match target with
                   | Some o =>
                       if bool_decide (color o ≠ color pc) then
                         if row frm + pawnDir (color pc) =? promoRow (color pc)
                         then addPromotions bd frm pc
                                (pos (row frm + pawnDir (color pc)) (col frm + dc))
                         else addOne bd frm pc
                                (pos (row frm + pawnDir (color pc)) (col frm + dc))
                       else Some []
                   | None => Some []
                   end)) as [caps ->].
  { destruct target; [|eauto]. destruct (bool_decide _); [|eauto].
    destruct (_ =? _); [apply addPromotions_total|apply addOne_total]; done. }
  simpl.
  destruct ep as [e|]; [|simpl; eauto].
  destruct (_ && _); [|simpl; eauto].
  destruct (readSq_is_Some bd (row frm) (col frm + dc) Hrows Hfrm) as [cap ->].
  simpl.
  destruct (addMove_total (pos (row frm + pawnDir (color pc)) (col frm + dc)))
    as [m ->]; [done|]. simpl. eauto.
Qed.

Lemma stepMoves_total offs : is_Some (stepMoves bd frm pc offs).
Proof.
  induction offs as [|[dr dc] rest [more IH]]; simpl; [eauto|].
  rewrite IH.
  destruct (inBounds _ _) eqn:Hin; simpl; [|eauto].
  apply inBounds_spec in Hin as [Hin _].
  destruct (readSq_is_Some bd _ (col frm + dc) Hrows Hin) as [sq ->]. simpl.
  destruct (addOne_total (pos (row frm + dr) (col frm + dc))) as [one Hone];
    [done|].
  destruct sq; [destruct (bool_decide _)|]; rewrite ?Hone; simpl; eauto.
Qed.

Lemma castlingMoves_total cs trn : is_Some (castlingMoves bd frm pc cs trn).
Proof.
  unfold castlingMoves.
  assert (∀ c, is_Some (isEmpty <$> readSq bd (row frm) c)) as Hempty.
  { intros c. destruct (readSq_is_Some bd (row frm) c Hrows Hfrm) as [sq ->].
    simpl. eauto. }
  assert (∀ p col, is_Some (negb <$> isSquareAttacked bd p col)) as Hatt.
  { intros p col. destruct (isSquareAttacked_total bd Hrows p col) as [x ->].
    simpl. eauto. }
  destruct (addMove_total (pos (row frm) 6)) as [m6 H6]; [done|].
  destruct (addMove_total (pos (row frm) 2)) as [m2 H2]; [done|].
  match goal with |- is_Some (?a ≫= _) => assert (is_Some a) as [ks ->] end.
  { repeat apply andThen_total; eauto. }
  cbn [mbind option_bind].
  match goal with |- is_Some (?a ≫= _) => assert (is_Some a) as [km ->] end.
  { destruct ks; [rewrite H6|]; simpl; eauto. }
  cbn [mbind option_bind].
  match goal with |- is_Some (?a ≫= _) => assert (is_Some a) as [qs ->] end.
  { repeat apply andThen_total; eauto. }
  cbn [mbind option_bind].
  match goal with |- is_Some (?a ≫= _) => assert (is_Some a) as [qm ->] end.
  { destruct qs; [rewrite H2|]; simpl; eauto. }
  cbn [mbind option_bind]. eauto.
Qed.

Lemma slideMoves_total fuel r c dr dc :
  unitDir dr dc →
  (inBounds r c = true → toEdge r c dr dc ≤ Z.of_nat fuel) →
  is_Some (slideMoves fuel bd frm pc r c dr dc).
Proof.
  intros Hd. revert r c.
  induction fuel as [|f IH]; intros r c Hfuel; simpl.
  - destruct (inBounds r c) eqn:E; [|eauto].
    specialize (Hfuel eq_refl). apply inBounds_spec in E.
    unfold toEdge, unitDir in *. repeat case_match; lia.
  - destruct (inBounds r c) eqn:E; [|eauto].
    pose proof E as [Hr _]%inBounds_spec.
    destruct (readSq_is_Some bd r c Hrows Hr) as [sq ->]. simpl.
    destruct (addMove_total (pos r c)) as [m Hm]; [done|].
    destruct sq as [o|].
    + destruct (bool_decide _); [|eauto].
      unfold addOne. rewrite Hm. simpl. eauto.
    + rewrite Hm. simpl.
      destruct (IH (r + dr) (c + dc)) as [more ->]; [|simpl; eauto].
      intros E'. specialize (Hfuel eq_refl).
      apply inBounds_spec in E, E'.
      unfold toEdge, unitDir in *. repeat case_match; lia.
Qed.

Lemma slideAll_total dirs :
  Forall (fun d => unitDir d.1 d.2) dirs → is_Some (slideAll bd frm pc dirs).
Proof.
  induction 1 as [|[dr dc] rest Hd _ [more IH]]; cbn [slideAll]; [eauto|].
  rewrite IH.
  destruct (slideMoves_total 8 (row frm + dr) (col frm + dc) dr dc Hd)
    as [here ->]; [|simpl; eauto].
  intros E. by apply toEdge_le_8.
Qed.
End GeneratorTotality.

Lemma rookDirs_unit : Forall (fun d => unitDir d.1 d.2) rookDirs.
Proof. repeat constructor; simpl; lia. Qed.

Lemma bishopDirs_unit : Forall (fun d => unitDir d.1 d.2) bishopDirs.
Proof. repeat constructor; simpl; lia. Qed.

Lemma getRawMoves_total s frm :
  (8 ≤ length (board s))%nat → 0 ≤ row frm < 8 →
  is_Some (getRawMoves s frm).
Proof.
  intros Hrows Hfrm. unfold getRawMoves.
  destruct (readSq_is_Some (board s) (row frm) (col frm) Hrows Hfrm)
    as [sq ->]. cbn [mbind option_bind].
  destruct sq as [pc|]; [|eauto].
  destruct (bool_decide _); [eauto|].
  destruct (type pc).
  - assert (is_Some (pawnForward (board s) frm pc)) as [fwd ->]
      by by apply pawnForward_total.
    assert (is_Some (pawnCapture (board s) frm pc (enPassantTarget s) (-1)))
      as [lft ->] by by apply pawnCapture_total.
    assert (is_Some (pawnCapture (board s) frm pc (enPassantTarget s) 1))
      as [rgt ->] by by apply pawnCapture_total.
    simpl. eauto.
  - by apply stepMoves_total.
  - apply slideAll_total; [done|apply bishopDirs_unit].
  - apply slideAll_total; [done|apply rookDirs_unit].
  - apply slideAll_total; [done|].
    apply Forall_app. split; [apply rookDirs_unit|apply bishopDirs_unit].
  - assert (is_Some (stepMoves (board s) frm pc kingOffsets)) as [st ->]
      by by apply stepMoves_total.
    assert (is_Some (castlingMoves (board s) frm pc (castling s) (turn s)))
      as [cm ->] by by apply castlingMoves_total.
    simpl. eauto.
Qed.

Lemma readSq_Some_row (bd : Board) r c sq :
  readSq bd r c = Some sq → 0 ≤ r < Z.of_nat (length bd).
Proof.
  unfold readSq. intros (rw & [Hr Hrw]%rowAt_Some & _)%bind_Some.
  apply lookup_lt_Some in Hrw. lia.
Qed.

Lemma applyMoveToBoard_total (bd : Board) m :
  (8 ≤ length bd)%nat → onBoard m →
  ∃ nb, applyMoveToBoard bd m = Some nb ∧ length nb = length bd.
Proof.
  intros Hrows (Hfr & Hfc & Htr & Htc). unfold applyMoveToBoard.
  rewrite cloneBoard_id. fold (movedPiece bd m).
  assert (is_Some (movedPiece bd m)) as [v ->].
  { unfold movedPiece. destruct (promotion m); [eauto|].
    by apply readSq_is_Some. }
  cbn [mbind option_bind].
  destruct (writeSq_total bd (row (to m)) (col (to m)) v) as (b1 & -> & L1);
    try done.
  cbn [mbind option_bind].
  destruct (writeSq_total b1 (row (from m)) (col (from m)) None)
    as (b2 & -> & L2); try done; [lia|].
  cbn [mbind option_bind].
  assert (∃ b3, (if enPassant m
                 then writeSq b2 (row (from m)) (col (to m)) None
                 else Some b2) = Some b3 ∧ length b3 = length bd)
    as (b3 & -> & L3).
  { destruct (enPassant m); [|exists b2; split; [done|lia]].
    destruct (writeSq_total b2 (row (from m)) (col (to m)) None)
      as (b3 & -> & L3); try done; [lia|].
    exists b3. split; [done|lia]. }
  cbn [mbind option_bind].
  assert (∀ (b : Board) c1 c2,
            length b = length bd → 0 ≤ c1 → 0 ≤ c2 →
            ∃ b', (rook ← readSq b (row (from m)) c1;
                   nb ← writeSq b (row (from m)) c2 rook;
                   writeSq nb (row (from m)) c1 None) = Some b'
                  ∧ length b' = length bd) as Hrook.
  { intros b c1 c2 L Hc1 Hc2.
    destruct (readSq_is_Some b (row (from m)) c1) as [rook ->];
      [lia|done|].
    cbn [mbind option_bind].
    destruct (writeSq_total b (row (from m)) c2 rook) as (b' & -> & L');
      try done; [lia|].
    cbn [mbind option_bind].
    destruct (writeSq_total b' (row (from m)) c1 None) as (b'' & -> & L'');
      try done; [lia|].
    exists b''. split; [done|lia]. }
  assert (∃ b4, (if bool_decide (castlingSide m = Some kingside) then
                   rook ← readSq b3 (row (from m)) 7;
                   nb ← writeSq b3 (row (from m)) 5 rook;
                   writeSq nb (row (from m)) 7 None
                 else Some b3) = Some b4 ∧ length b4 = length bd)
    as (b4 & -> & L4).
  { destruct (bool_decide _); [|by exists b3].
    by apply Hrook. }
  cbn [mbind option_bind].
  assert (∃ b5, (if bool_decide (castlingSide m = Some queenside) then
                   rook ← readSq b4 (row (from m)) 0;
                   nb ← writeSq b4 (row (from m)) 3 rook;
                   writeSq nb (row (from m)) 0 None
                 else Some b4) = Some b5 ∧ length b5 = length bd)
    as (b5 & -> & L5).
  { destruct (bool_decide _); [|by exists b4].
    by apply Hrook. }
  cbn [mbind option_bind]. eauto.
Qed.

Lemma RawMove_onBoard s frm pc m :
  0 ≤ row frm < 8 →
  readSq (board s) (row frm) (col frm) = Some (Some pc) →
  RawMove s frm pc m → onBoard m.
Proof.
  intros Hfr Hpc Hraw. apply readSq_Some_col in Hpc.
  destruct Hraw as [dest sq Hin%inBounds_spec
                   |dest sq pr _ _ Hin%inBounds_spec
                   |dest sq cap _ _ Hin%inBounds_spec
                   |side sq];
    unfold onBoard; simpl; try lia.
  destruct side; simpl; lia.
Qed.

Lemma getLegalMoves_total s frm :
  (8 ≤ length (board s))%nat → 0 ≤ row frm < 8 →
  is_Some (getLegalMoves s frm).
Proof.
  intros Hrows Hfrm. unfold getLegalMoves.
  destruct (getRawMoves_total s frm Hrows Hfrm) as [raw Hraw].
  rewrite Hraw. cbn [mbind option_bind].
  apply filterM_total. intros m Hm.
  destruct (getRawMoves_sound _ _ _ _ Hraw Hm) as (pc & Hpc & _ & Hshape).
  unfold leavesKingSafe.
  destruct (applyMoveToBoard_total (board s) m Hrows) as (nb & -> & L).
  { by eapply RawMove_onBoard. }
  cbn [mbind option_bind].
  destruct (isInCheck_is_Some nb) with (c := turn s) as [x ->]; [lia|].
  simpl. eauto.
Qed.

Lemma legalMovesOver_total s cells :
  (8 ≤ length (board s))%nat →
  (∀ r c, (r, c) ∈ cells → 0 ≤ r < 8) →
  is_Some (legalMovesOver s cells).
Proof.
  intros Hrows. induction cells as [|[r c] rest IH]; intros Hin;
    cbn [legalMovesOver]; [eauto|].
  assert (0 ≤ r < 8) as Hr by (apply (Hin r c); left).
  destruct (readSq_is_Some (board s) r c Hrows Hr) as [sq ->].
  cbn [mbind option_bind].
  destruct IH as [more ->]; [intros r' c' H'; apply (Hin r' c'); by right|].
  destruct (getLegalMoves_total s (pos r c) Hrows Hr) as [here Hhere].
  destruct sq as [pc|]; [destruct (bool_decide _)|]; rewrite ?Hhere;
    simpl; eauto.
Qed.

Lemma getAllLegalMoves_total s :
  (8 ≤ length (board s))%nat → is_Some (getAllLegalMoves s).
Proof.
  intros Hrows. apply legalMovesOver_total; [done|].
  intros r c H. by apply elem_of_allSquares in H as [? _].
Qed.

Lemma makeMove_total s m :
  (8 ≤ length (board s))%nat → onBoard m → is_Some (makeMove s m).
Proof.
  intros Hrows Hm. unfold makeMove. fold (movedState s m).
  destruct (applyMoveToBoard_total (board s) m Hrows Hm) as (nb & -> & L).
  cbn [mbind option_bind]. fold (movedState s m nb).
  destruct (getAllLegalMoves_total (movedState s m nb)) as [legal ->];
    [simpl; lia|].
  cbn [mbind option_bind].
  destruct (isInCheck_is_Some nb) with (c := opposite (turn s)) as [x Hx];
    [lia|].
  destruct (bool_decide _); [rewrite Hx; destruct x|destruct (_ <=? _)];
    simpl; eauto.
Qed.

(** Legal play never faults: a legal move of a state with eight rows can be
    made, and the board keeps its eight rows. *)
Lemma makeMove_legal_total s frm legal m :
  length (board s) = 8%nat →
  getLegalMoves s frm = Some legal → m ∈ legal →
  ∃ s', makeMove s m = Some s' ∧ length (board s') = 8%nat.
Proof.
  intros Hrows Hlegal Hm.
  destruct (getLegalMoves_elem_of _ _ _ _ Hlegal Hm) as (raw & Hraw & Hin & _).
  destruct (getRawMoves_sound _ _ _ _ Hraw Hin) as (pc & Hpc & _ & Hshape).
  assert (onBoard m) as Hon.
  { eapply RawMove_onBoard; [|done..].
    apply readSq_Some_row in Hpc. lia. }
  destruct (makeMove_total s m) as [s' Hs']; [lia|done|].
  exists s'. split; [done|].
  apply makeMove_fields in Hs' as (Hnb & _).
  destruct (applyMoveToBoard_total (board s) m) as (nb & Hnb' & L);
    [lia|done|].
  rewrite Hnb in Hnb'. injection Hnb' as <-. lia.
Qed.

(** ** Legal moves never leave the mover's king attacked *)

(** C3: on a state whose board has eight rows [getLegalMoves(state, origin)]
    returns a list for every origin on rows 0..7; and, for every state and
    origin, every move it returns is a move of the side to move that, applied
    with [applyMoveToBoard], yields a board on which the mover's own king is
    not in check. *)
Theorem legal_moves_keep_king_safe s frm :
  (length (board s) = 8%nat → 0 ≤ row frm < 8 →
   is_Some (getLegalMoves s frm))
  ∧ ∀ legal m,
      getLegalMoves s frm = Some legal → m ∈ legal →
      color (piece m) = turn s
      ∧ ∃ nb, applyMoveToBoard (board s) m = Some nb
              ∧ isInCheck nb (color (piece m)) = Some false.
Proof.
  split.
  { intros Hrows Hfrm. apply getLegalMoves_total; [lia|done]. }
  intros legal m Hlegal Hm.
  destruct (getLegalMoves_elem_of _ _ _ _ Hlegal Hm) as (raw & Hraw & Hin & Hsafe).
  destruct (getRawMoves_sound _ _ _ _ Hraw Hin) as (pc & _ & Hc & Hshape).
  assert (piece m = pc) as Hpc by (destruct Hshape; done).
  rewrite Hpc, Hc. split; [done|].
  unfold leavesKingSafe in Hsafe.
  apply bind_Some in Hsafe as (nb & Hnb & Hchk).
  exists nb. split; [done|].
  destruct (isInCheck nb (turn s)) as [[]|]; done.
Qed.

Lemma legal_moves_keep_king_safe_witness :
  getLegalMoves createInitialState (pos 7 6) = Some knightMoves
  ∧ color (piece knightOut) = turn createInitialState
  ∧ ∃ nb, applyMoveToBoard (board createInitialState) knightOut = Some nb
          ∧ isInCheck nb (color (piece knightOut)) = Some false.
Proof.
  destruct (legal_moves_keep_king_safe createInitialState (pos 7 6))
    as [Htotal Hsafe].
  destruct Htotal as [legal Hl]; [reflexivity|simpl; lia|].
  assert (legal = knightMoves) as ->.
  { vm_compute in Hl. by injection Hl as <-. }
  split; [exact Hl|].
  apply (Hsafe _ knightOut Hl). left.
Defined.

(** ** Half-move clock and the hundred-half-move draw *)

Lemma legalMovesOver_withStatus s st wn cells :
  legalMovesOver (withStatus s st wn) cells = legalMovesOver s cells.
Proof.
  induction cells as [|[r c] rest IH]; [done|].
  cbn [legalMovesOver]. rewrite IH. reflexivity.
Qed.

Lemma getAllLegalMoves_withStatus s st wn :
  getAllLegalMoves (withStatus s st wn) = getAllLegalMoves s.
Proof. apply legalMovesOver_withStatus. Qed.

(** C8: a legal move of a state with eight rows can always be made; and
    whenever [makeMove] returns, the half-move clock of the result is 0 if the
    move is a pawn move or a capture and the old clock plus one otherwise,
    and if that clock has reached 100 while the side now to move has a legal
    move, the resulting status is [draw]. *)
Theorem halfmove_clock_draw s m :
  (∀ frm legal,
     length (board s) = 8%nat → getLegalMoves s frm = Some legal →
     m ∈ legal → is_Some (makeMove s m))
  ∧ ∀ s', makeMove s m = Some s' →
      halfMoveClock s' =
        (if bool_decide (type (piece m) = Pawn) || negb (isEmpty (captured m))
         then 0 else halfMoveClock s + 1)
      ∧ (∀ legal, getAllLegalMoves s' = Some legal → legal ≠ [] →
                  100 ≤ halfMoveClock s' → status s' = draw).
Proof.
  split.
  { intros frm legal Hrows Hlegal Hm.
    destruct (makeMove_legal_total _ _ _ _ Hrows Hlegal Hm) as (s' & -> & _).
    eauto. }
  intros s' H. split; [by apply makeMove_fields in H as (_&_&_&_&?&_)|].
  apply makeMove_inv in H as (nb & legal0 & _ & Hl & H).
  intros legal Hlegal Hne Hclock.
  destruct H as [(-> & _ & ->)|[(-> & _ & ->)|[(_ & _ & ->)|(_ & Hlt & ->)]]].
  - rewrite getAllLegalMoves_withStatus, Hl in Hlegal. by injection Hlegal as <-.
  - rewrite getAllLegalMoves_withStatus, Hl in Hlegal. by injection Hlegal as <-.
  - done.
  - lia.
Qed.

Lemma halfmove_clock_draw_witness :
  makeMove quiet99 knightOut = Some quiet100
  ∧ halfMoveClock quiet100 = 100 ∧ status quiet100 = draw.
Proof.
  destruct (halfmove_clock_draw quiet99 knightOut) as [Htotal Hclock].
  destruct (Htotal (pos 7 6) knightMoves) as [s' Hs'];
    [reflexivity|vm_compute; reflexivity|left|].
  assert (s' = quiet100) as ->.
  { vm_compute in Hs'. by injection Hs' as <-. }
  split; [exact Hs'|].
  destruct (Hclock _ Hs') as [Hc Hd].
  split; [exact Hc|].
  destruct (getAllLegalMoves quiet100) as [legal|] eqn:E;
    [|vm_compute in E; discriminate].
  apply (Hd legal eq_refl).
  - intros ->. vm_compute in E. discriminate.
  - rewrite Hc. vm_compute. discriminate.
Defined.

(** ** Where the pieces of the new board come from *)

Section Provenance.
Context (bd : Board) (m : Move).

Lemma fromOld_refl : fromOld bd m bd.
Proof. intros r c x H. by left. Qed.

Lemma fromOld_write (b1 b2 : Board) (r0 c0 : Z) (v : Square) :
  fromOld bd m b1 → writeSq b1 r0 c0 v = Some b2 →
  (∀ x, v = Some x → relocated bd m x) → fromOld bd m b2.
Proof.
  intros Hold Hw Hv r c x. rewrite (readSq_writeSq _ _ _ _ _ _ _ Hw).
  case_bool_decide.
  - intros [= ->]. right. by apply Hv.
  - apply Hold.
Qed.

Lemma fromOld_read (b1 : Board) (c0 : Z) (rook : Square) :
  fromOld bd m b1 → readSq b1 (row (from m)) c0 = Some rook →
  readSq bd (row (from m)) c0 = Some rook
  ∨ ∀ x, rook = Some x → relocated bd m x.
Proof.
  intros Hold Hr. destruct rook as [x|]; [|by right].
  destruct (Hold _ _ _ Hr); [by left|right]. by intros ? [= <-].
Qed.

Lemma applyMoveToBoard_fromOld (nb : Board) :
  applyMoveToBoard bd m = Some nb → fromOld bd m nb.
Proof.
  unfold applyMoveToBoard. rewrite cloneBoard_id.
  fold (movedPiece bd m).
  intros (v & Hv & H)%bind_Some.
  apply bind_Some in H as (b1 & W1 & H).
  apply bind_Some in H as (b2 & W2 & H).
  apply bind_Some in H as (b3 & W3 & H).
  apply bind_Some in H as (b4 & W4 & H).
  apply bind_Some in H as (b5 & W5 & H).
  injection H as <-.
  assert (fromOld bd m b1) as F1.
  { eapply fromOld_write; [apply fromOld_refl|done|].
    intros x ->. by left. }
  assert (fromOld bd m b2) as F2 by (eapply fromOld_write; done).
  assert (fromOld bd m b3) as F3.
  { destruct (enPassant m); [|by injection W3 as <-].
    eapply fromOld_write; done. }
  assert (fromOld bd m b4) as F4.
  { destruct (bool_decide (castlingSide m = Some kingside));
      [|by injection W4 as <-].
    apply bind_Some in W4 as (rook & Hrook & W4).
    apply bind_Some in W4 as (b' & W4a & W4b).
    eapply fromOld_write; [|done|done].
    eapply fromOld_write; [done|done|].
    destruct (fromOld_read _ _ _ F3 Hrook) as [Hr|Hr]; [|done].
    intros x ->. right. by left. }
  destruct (bool_decide (castlingSide m = Some queenside));
    [|by injection W5 as <-].
  apply bind_Some in W5 as (rook & Hrook & W5).
  apply bind_Some in W5 as (b' & W5a & W5b).
  eapply fromOld_write; [|done|done].
  eapply fromOld_write; [done|done|].
  destruct (fromOld_read _ _ _ F4 Hrook) as [Hr|Hr]; [|done].
  intros x ->. right. by right.
Qed.

(** A move without en-passant or castling flag touches two squares only. *)
Lemma applyMoveToBoard_simple (nb : Board) (r c : Z) :
  enPassant m = false → castlingSide m = None →
  applyMoveToBoard bd m = Some nb →
  readSq nb r c =
    if bool_decide (r = row (from m) ∧ c = col (from m)) then Some None
    else if bool_decide (r = row (to m) ∧ c = col (to m))
         then movedPiece bd m
         else readSq bd r c.
Proof.
  intros Hep Hcs. unfold applyMoveToBoard. rewrite cloneBoard_id, Hep, Hcs.
  fold (movedPiece bd m). simpl.
  intros (v & Hv & H)%bind_Some.
  apply bind_Some in H as (b1 & W1 & H).
  apply bind_Some in H as (b2 & W2 & H).
  injection H as <-.
  rewrite (readSq_writeSq _ _ _ _ _ _ _ W2).
  rewrite (readSq_writeSq _ _ _ _ _ _ _ W1).
  repeat case_bool_decide; done.
Qed.
End Provenance.

(** ** Invariants of states reached by legal play *)

Lemma hasAnyRight_le a c col :
  rights_le a c → hasAnyRight a col → hasAnyRight c col.
Proof.
  unfold rights_le, hasAnyRight, rightsOf. destruct col; tauto.
Qed.

Lemma newCastling_king cs m :
  type (piece m) = King → ¬ hasAnyRight (newCastling cs m) (color (piece m)).
Proof.
  intros Hk. destruct cs as [[wk wq] [bk bq]].
  unfold newCastling, hasAnyRight, setRights, clearK, clearQ, rightsOf.
  rewrite Hk. simpl.
  destruct (color (piece m));
    repeat (case_match; simpl); simpl; intros [?|?]; congruence.
Qed.

Lemma RawMove_from s frm pc m : RawMove s frm pc m → from m = frm.
Proof. by destruct 1. Qed.

Lemma RawMove_piece s frm pc m : RawMove s frm pc m → piece m = pc.
Proof. by destruct 1. Qed.

Lemma RawMove_promotion s frm pc m pr :
  RawMove s frm pc m → promotion m = Some pr → pr ∈ promotionPieces.
Proof. destruct 1; simpl; intros [= <-] || intros [=]; done. Qed.

Lemma pawnDir_unit c : pawnDir c = 1 ∨ pawnDir c = -1.
Proof. destruct c; simpl; lia. Qed.

Lemma Inv_initial : Inv createInitialState.
Proof.
  split; [done|]. intros r c x H Hk _.
  unfold readSq, rowAt in H. simpl in H.
  destruct (0 <=? r) eqn:Hr; [|done].
  destruct (0 <=? c) eqn:Hc.
  2:{ destruct (_ !! Z.to_nat r); done. }
  apply Z.leb_le in Hc.
  destruct (Z.to_nat r) as [|[|[|[|[|[|[|[|]]]]]]]] eqn:Er; simpl in H;
    try done;
    destruct (Z.to_nat c) as [|[|[|[|[|[|[|[|]]]]]]]] eqn:Ec; simpl in H;
    try done; injection H as <-; try done; lia.
Qed.

Lemma Inv_makeMove s frm pc m s' :
  Inv s → readSq (board s) (row frm) (col frm) = Some (Some pc) →
  RawMove s frm pc m → makeMove s m = Some s' → Inv s'.
Proof.
  intros [Hep Hking] Hpc Hraw Hmk.
  pose proof (makeMove_rights_le _ _ _ Hmk) as Hle.
  apply makeMove_fields in Hmk as (Hnb & _ & Hcs & Hnep & _).
  pose proof (RawMove_from _ _ _ _ Hraw) as Hfrom.
  pose proof (RawMove_piece _ _ _ _ Hraw) as Hpiece.
  split.
  - intros e. rewrite Hnep. unfold newEnPassant.
    destruct (bool_decide (type (piece m) = Pawn)
              && (Z.abs (row (to m) - row (from m)) =? 2)) eqn:E; [|done].
    apply andb_true_iff in E as [Ht%bool_decide_eq_true Habs].
    rewrite Hpiece in Ht. intros [= <-]. simpl.
    destruct (pawnDir_unit (color pc)).
    all: destruct Hraw as [dest sq Hin Hsq Hpawn _| | |]; simpl in *;
      try lia; try congruence.
    all: destruct (Hpawn Ht) as [_ [(Hc & -> & [Hr|[Hr Hmid]])|(_ & _ & Hr)]];
      try lia.
    all: rewrite (applyMoveToBoard_simple (board s) (plain frm pc dest None)
                    (board s') _ _ eq_refl eq_refl Hnb); simpl.
    all: replace ((row frm + row dest) / 2) with (row frm + pawnDir (color pc))
      by (rewrite Hr; apply Z.div_unique with 0; lia).
    all: rewrite !bool_decide_eq_false_2 by lia; done.
  - intros r c x Hx Hk Hright. rewrite Hcs in Hright.
    assert (hasAnyRight (castling s) (color x)) as Hold.
    { eapply hasAnyRight_le; [|done]. apply newCastling_le. }
    destruct (applyMoveToBoard_fromOld _ _ _ Hnb _ _ _ Hx)
      as [Hsame|[Hmoved|[Hrook|Hrook]]].
    + by eapply Hking.
    + unfold movedPiece in Hmoved.
      destruct (promotion m) as [pr|] eqn:Epr.
      * apply (RawMove_promotion _ _ _ _ _ Hraw) in Epr.
        injection Hmoved as <-. simpl in Hk. subst pr.
        unfold promotionPieces in Epr.
        repeat (apply elem_of_cons in Epr as [Epr|Epr]; [done|]).
        by apply elem_of_nil in Epr.
      * rewrite Hfrom, Hpc in Hmoved. injection Hmoved as <-.
        exfalso. apply (newCastling_king (castling s) m); by rewrite Hpiece.
    + by specialize (Hking _ _ _ Hrook Hk Hold).
    + by specialize (Hking _ _ _ Hrook Hk Hold).
Qed.

(** ** A stored descriptor identifies one legal move *)

(** Two pseudo-legal moves of the same piece with the same destination, the
    second carrying the promotion piece of the first whenever the first has
    one, are the same move. *)
Lemma RawMove_unique s frm pc m l :
  Inv s → readSq (board s) (row frm) (col frm) = Some (Some pc) →
  color pc = turn s →
  RawMove s frm pc m → RawMove s frm pc l →
  to l = to m → (promotion m = None ∨ promotion l = promotion m) → l = m.
Proof.
  intros [Hep Hking] Hpc Hturn Hm Hl Hto Hpr.
  assert (∀ side, type pc = King →
                  hasRight (rightsOf (castling s) (turn s)) side = true →
                  col frm = 4) as Hhome.
  { intros side Hk Hr. apply (Hking _ _ _ Hpc Hk). rewrite Hturn.
    unfold hasAnyRight. destruct side; simpl in Hr; tauto. }
  destruct Hm as [d1 q1 Hin1 Hsq1 Hp1 Hk1
                 |d1 q1 pr1 Ht1 Hpr1 Hin1 Hsq1 Hrow1 Hstep1 Hcap1
                 |d1 q1 cap1 Ht1 Hep1 Hin1 Hsq1 Hcap1 Hrow1 Hcol1
                 |side1 q1 Ht1 Hr1 Hsq1];
  destruct Hl as [d2 q2 Hin2 Hsq2 Hp2 Hk2
                 |d2 q2 pr2 Ht2 Hpr2 Hin2 Hsq2 Hrow2 Hstep2 Hcap2
                 |d2 q2 cap2 Ht2 Hep2 Hin2 Hsq2 Hcap2 Hrow2 Hcol2
                 |side2 q2 Ht2 Hr2 Hsq2];
  simpl in Hto, Hpr; try subst d2; try subst d1.
  - (* plain, plain *)
    rewrite Hsq1 in Hsq2. by injection Hsq2 as <-.
  - (* plain, promotion *)
    destruct (Hp1 Ht2) as [Hne _]. congruence.
  - (* plain, en passant *)
    specialize (Hep _ Hep2). rewrite Hep in Hsq1. injection Hsq1 as <-.
    destruct (Hp1 Ht2) as [_ [(?&_)|(_&?&_)]]; congruence.
  - (* plain, castling *)
    specialize (Hhome _ Ht2 Hr2). specialize (Hk1 Ht2). simpl in Hk1.
    destruct side2; simpl in Hk1; lia.
  - (* promotion, plain *)
    destruct Hpr; done.
  - (* promotion, promotion *)
    destruct Hpr as [?|[= ->]]; [done|].
    rewrite Hsq1 in Hsq2. by injection Hsq2 as <-.
  - (* promotion, en passant *)
    destruct Hpr; done.
  - (* promotion, castling *)
    congruence.
  - (* en passant, plain *)
    specialize (Hep _ Hep1). rewrite Hep in Hsq2. injection Hsq2 as <-.
    destruct (Hp2 Ht1) as [_ [(?&_)|(_&?&_)]]; congruence.
  - (* en passant, promotion *)
    specialize (Hep _ Hep1). rewrite Hep in Hsq2. injection Hsq2 as <-.
    by specialize (Hcap2 Hcol1).
  - (* en passant, en passant *)
    rewrite Hsq1 in Hsq2. injection Hsq2 as <-.
    rewrite Hcap1 in Hcap2. by injection Hcap2 as <-.
  - (* en passant, castling *)
    congruence.
  - (* castling, plain *)
    specialize (Hhome _ Ht1 Hr1). specialize (Hk2 Ht1). simpl in Hk2.
    destruct side1; simpl in Hk2; lia.
  - (* castling, promotion *)
    congruence.
  - (* castling, en passant *)
    congruence.
  - (* castling, castling *)
    assert (side2 = side1) as ->.
    { injection Hto as Hc. destruct side1, side2; simpl in Hc; done. }
    rewrite Hsq1 in Hsq2. by injection Hsq2 as <-.
Qed.

Lemma code_inj t1 t2 : Client.code t1 = Client.code t2 → t1 = t2.
Proof. destruct t1, t2; simpl; intros [=]; done. Qed.

Lemma code_nonempty t : Client.code t ≠ EmptyString.
Proof. by destruct t. Qed.

(** Stored coordinates that are integers behave like the square they
    name. *)
Lemma toZ_ofZ z : Num.toZ (Num.ofZ z) = Some z.
Proof.
  unfold Num.toZ, Num.ofZ. cbn [inject_Z Qnum Qden].
  by rewrite Z.mod_1_r, Z.div_1_r.
Qed.

Lemma eqb_ofZ a x : Num.eqb (Num.ofZ a) x = true ↔ Num.toZ x = Some a.
Proof.
  unfold Num.eqb, Num.ofZ, Num.toZ, Qeq_bool. destruct x as [n d].
  cbn [inject_Z Qnum Qden]. rewrite Z.eqb_eq, Z.mul_1_r.
  split.
  - intros <-. rewrite Z.mod_mul, Z.div_mul by done. done.
  - case_match eqn:E; [|done]. intros [= <-]. apply Z.eqb_eq in E.
    pose proof (Z.div_mod n (Z.pos d)). lia.
Qed.

Lemma squareOf_toWire p : squareOf (toWire p) = Some p.
Proof. unfold squareOf, toWire. simpl. rewrite !toZ_ofZ. by destruct p. Qed.

Lemma squareOf_Some p f :
  squareOf p = Some f →
  Num.toZ (Wire.row p) = Some (row f) ∧ Num.toZ (Wire.col p) = Some (col f).
Proof.
  unfold squareOf. intros H.
  destruct (Num.toZ (Wire.row p)) as [r|]; [|done].
  destruct (Num.toZ (Wire.col p)) as [c|]; [|done].
  by injection H as <-.
Qed.

Lemma getLegalMovesAt_square s p f :
  squareOf p = Some f → Client.getLegalMovesAt s p = getLegalMoves s f.
Proof.
  intros [Hr Hc]%squareOf_Some. unfold Client.getLegalMovesAt.
  rewrite Hr, Hc. by destruct f.
Qed.

Lemma matchesEntry_square e l t :
  squareOf (Wire.to e) = Some t →
  Client.matchesEntry e l
  = (row (to l) =? row t) && (col (to l) =? col t)
    && match Wire.promotion e with
       | None => true
       | Some pr => if bool_decide (pr = EmptyString) then true
                    else Client.samePromotion l pr
       end.
Proof.
  intros [Hr Hc]%squareOf_Some. unfold Client.matchesEntry. do 2 f_equal.
  - apply eq_true_iff_eq. rewrite eqb_ofZ, Hr, Z.eqb_eq.
    split; [by intros [= ->]|by intros ->].
  - apply eq_true_iff_eq. rewrite eqb_ofZ, Hc, Z.eqb_eq.
    split; [by intros [= ->]|by intros ->].
Qed.

Lemma describes_to e m : describes e m → squareOf (Wire.to e) = Some (to m).
Proof. by intros (_ & ? & _). Qed.

Lemma matchesEntry_self e m : describes e m → Client.matchesEntry e m = true.
Proof.
  intros He. rewrite (matchesEntry_square e m _ (describes_to e m He)).
  destruct He as (_ & Hto & Hpr). unfold Client.samePromotion.
  rewrite Hpr, !Z.eqb_refl. simpl.
  destruct (promotion m) as [t|]; simpl; [|done].
  rewrite (bool_decide_eq_false_2 _ (code_nonempty t)).
  by apply bool_decide_eq_true.
Qed.

Lemma matchesEntry_inv e m l :
  describes e m → Client.matchesEntry e l = true →
  to l = to m ∧ (promotion m = None ∨ promotion l = promotion m).
Proof.
  intros He. rewrite (matchesEntry_square e l _ (describes_to e m He)).
  destruct He as (_ & Hto & Hpr). unfold Client.samePromotion.
  rewrite Hpr, !andb_true_iff, !Z.eqb_eq. intros [[Hr Hc] H].
  split.
  { destruct (to l), (to m); simpl in *; congruence. }
  destruct (promotion m) as [t|]; simpl in H; [right|by left].
  rewrite (bool_decide_eq_false_2 _ (code_nonempty t)) in H.
  destruct (promotion l) as [t'|]; [|done].
  apply bool_decide_eq_true, code_inj in H. by subst.
Qed.

Lemma findLegal_describes s frm legal m e :
  Inv s → getLegalMoves s frm = Some legal → m ∈ legal → describes e m →
  Client.findLegal s e = Some (Some m).
Proof.
  intros HI Hlegal Hm He.
  destruct (getLegalMoves_elem_of _ _ _ _ Hlegal Hm) as (raw & Hraw & Hin & _).
  destruct (getRawMoves_sound _ _ _ _ Hraw Hin) as (pc & Hpc & Hc & Hshape).
  pose proof (RawMove_from _ _ _ _ Hshape) as Hfrom.
  unfold Client.findLegal.
  pose proof He as (Hef & Het & Hep).
  rewrite (getLegalMovesAt_square s _ frm) by by rewrite Hef, Hfrom.
  rewrite Hlegal. simpl. f_equal.
  destruct (List.find _ legal) as [l|] eqn:Ef.
  - apply List.find_some in Ef as [Hl%list_elem_of_In Hmatch].
    destruct (getLegalMoves_elem_of _ _ _ _ Hlegal Hl)
      as (raw' & Hraw' & Hin' & _).
    rewrite Hraw in Hraw'. injection Hraw' as <-.
    destruct (getRawMoves_sound _ _ _ _ Hraw Hin')
      as (pc' & Hpc' & _ & Hshape').
    rewrite Hpc in Hpc'. injection Hpc' as <-.
    destruct (matchesEntry_inv e m l) as [Hto Hpr]; [done|done|].
    f_equal. by eapply RawMove_unique.
  - apply List.find_none with (x := m) in Ef; [|by apply list_elem_of_In].
    by rewrite matchesEntry_self in Ef.
Qed.

(** ** Replaying the history reconstructs the state *)

Lemma Reachable_Inv s : Reachable s → Inv s.
Proof.
  induction 1 as [|s frm legal m s' _ IH Hlegal Hm Hmk];
    [apply Inv_initial|].
  destruct (getLegalMoves_elem_of _ _ _ _ Hlegal Hm) as (raw & Hraw & Hin & _).
  destruct (getRawMoves_sound _ _ _ _ Hraw Hin) as (pc & Hpc & _ & Hshape).
  by eapply Inv_makeMove.
Qed.

Lemma replayMoves_snoc es e :
  Client.replayMoves (es ++ [e])
  = Client.replayStep (Client.replayMoves es) e.
Proof. unfold Client.replayMoves. by rewrite foldl_snoc. Qed.

(** C2: for every state reached from [createInitialState] by legal play,
    replaying its move history from the initial position, each entry matched
    by origin, destination and promotion against [getLegalMoves] as
    [replayMoves] does, returns that very state: the same board, side to
    move, castling rights, en-passant target, clocks, history and status. *)
Theorem replay_reconstructs_state s es :
  Reachable s → Forall2 describes es (moveHistory s) →
  Client.replayMoves es = Some s.
Proof.
  intros Hreach. revert es.
  induction Hreach as [|s frm legal m s' Hreach IH Hlegal Hm Hmk]; intros es.
  - simpl. by intros ->%Forall2_nil_inv_r.
  - pose proof Hmk as (_&_&_&_&_&_&Hhist)%makeMove_fields.
    rewrite Hhist.
    intros (es0 & e1 & Hes0 & He1 & ->)%Forall2_app_inv_r.
    apply Forall2_cons_inv_r in He1 as (e & tl & He & ->%Forall2_nil_inv_r & ->).
    rewrite replayMoves_snoc, (IH _ Hes0).
    unfold Client.replayStep. simpl.
    rewrite (findLegal_describes s frm legal m e); try done.
    by apply Reachable_Inv.
Qed.

(** A checked step of legal play. *)
Lemma reach_check s m s' :
  Reachable s →
  match getLegalMoves s (from m) with
  | Some legal => bool_decide (m ∈ legal)
  | None => false
  end = true →
  makeMove s m = Some s' →
  Reachable s'.
Proof.
  intros Hs Hl Hmk.
  destruct (getLegalMoves s (from m)) as [legal|] eqn:E; [|done].
  apply bool_decide_eq_true in Hl. by eapply reach_move.
Qed.

Lemma foolsMate_reachable : Reachable foolsMateFinal.
Proof.
  apply (reach_check (foolsMate 3) (foolsMateMove 4));
    [|vm_compute; reflexivity..].
  apply (reach_check (foolsMate 2) (foolsMateMove 3));
    [|vm_compute; reflexivity..].
  apply (reach_check (foolsMate 1) (foolsMateMove 2));
    [|vm_compute; reflexivity..].
  apply (reach_check createInitialState (foolsMateMove 1));
    [|vm_compute; reflexivity..].
  apply reach_init.
Defined.

Lemma foolsMate_described :
  Forall2 describes foolsMateEntries (moveHistory foolsMateFinal).
Proof. repeat constructor. Defined.

Lemma replay_reconstructs_state_witness :
  Client.replayMoves foolsMateEntries = Some foolsMateFinal
  ∧ status foolsMateFinal = checkmate
  ∧ winner foolsMateFinal = Some Black.
Proof.
  split; [|split; reflexivity].
  exact (replay_reconstructs_state _ _ foolsMate_reachable foolsMate_described).
Defined.

Lemma Reachable_rows s : Reachable s → length (board s) = 8%nat.
Proof.
  induction 1 as [|s frm legal m s' _ IH Hlegal Hm Hmk]; [done|].
  destruct (makeMove_legal_total _ _ _ _ IH Hlegal Hm) as (s'' & Hs & L).
  rewrite Hmk in Hs. by injection Hs as <-.
Qed.

(** Legal play can always go on: every legal move of a reachable state can be
    made, and leads to a reachable state. *)
Lemma Reachable_step s frm legal m :
  Reachable s → getLegalMoves s frm = Some legal → m ∈ legal →
  ∃ s', makeMove s m = Some s' ∧ Reachable s'.
Proof.
  intros Hs Hlegal Hm.
  destruct (makeMove_legal_total s frm legal m) as (s' & Hs' & _);
    [by apply Reachable_rows|done..|].
  exists s'. split; [done|]. by eapply reach_move.
Qed.

(** ** The submission handler checks structure, not legality *)

Section Submit.
Import Server.

End Submit.

Section Handler.
Import Server.

Lemma submit_passes now uid bd st game mv :
  PassesChecks now uid bd st game →
  move bd = Some mv → validateMoveStructure (move bd) = true →
  submit now uid bd st =
    let rl := (checkRateLimit now uid (rateLimitMap st)).2 in
    let row' := updatedRow now game (bool_decide (white_player game = uid))
                  bd mv in
    (Success (length (moves row')),
     {| games := <[gameId bd := row']> (games st);
        profiles :=
          match gameEnd bd with
          | Some ge =>
              updateProfile game ge (black_player game)
                (updateProfile game ge (white_player game) (profiles st))
          | None => profiles st
          end;
        rateLimitMap := rl |}).
Proof.
  intros [Hrate Hid Hgame Hpart Hturn Hact] Hmv Hvalid.
  unfold submit.
  destruct (checkRateLimit now uid (rateLimitMap st)) as [allowed rl].
  simpl in Hrate. subst allowed. cbn [negb games withRate].
  rewrite Hmv in Hvalid.
  rewrite Hmv, (bool_decide_eq_false_2 _ Hid), Hvalid. cbn [negb].
  rewrite Hgame.
  assert (bool_decide (white_player game ≠ uid)
          && bool_decide (black_player game ≠ uid) = false) as ->.
  { destruct Hpart as [<-|<-].
    - by rewrite (bool_decide_eq_false_2 (_ ≠ _)) by (by intros ?).
    - rewrite (bool_decide_eq_false_2 (black_player game ≠ _))
        by (by intros ?).
      by rewrite andb_false_r. }
  rewrite Hturn, eqb_reflx. cbn [negb].
  rewrite (bool_decide_eq_false_2 (row_status game ≠ _)) by (by intros ?).
  done.
Qed.

End Handler.

Section HandlerExamples.
Import Server.


End HandlerExamples.

(** ** A game-end claim is taken at face value *)

Section GameEndClaim.
Import Server.






End GameEndClaim.

(** ** The rate limiter counts per fixed window *)

Section RateLimit.
Import Server.

(** C6, as stated, fails: a window opened at time 0 is used up to its end and
    the next one starts at 60001 ms, so 59 submissions made between 1000 ms
    and 60001 ms (a span shorter than 60 s) are all accepted. *)
Lemma rolling_window_exceeds_limit :
  60001 - 1000 < RATE_WINDOW
  ∧ acceptedBetween 1000 60001 burstTimes
      (runLimiter alice burstTimes ∅).1 = 59%nat.
Proof. split; [done|]. vm_compute. reflexivity. Qed.

Lemma accepted_cons ok oks :
  accepted (ok :: oks) = ((if ok then 1 else 0) + accepted oks)%nat.
Proof.
  unfold accepted. rewrite filter_cons. destruct ok; case_decide; done.
Qed.

(** Inside a window: every call made no later than [resetAt] draws on the
    same counter. *)
Lemma runLimiter_in_window uid times rl e :
  rl !! uid = Some e →
  Forall (fun t => t ≤ resetAt e) times →
  0 ≤ count e ≤ RATE_LIMIT →
  Z.of_nat (accepted (runLimiter uid times rl).1) ≤ RATE_LIMIT - count e.
Proof.
  revert rl e. induction times as [|t rest IH]; intros rl e He Ht Hc.
  { simpl. unfold accepted. simpl. lia. }
  apply Forall_cons in Ht as [Ht Hrest].
  cbn [runLimiter]. unfold checkRateLimit. rewrite He.
  destruct (resetAt e <? t) eqn:E1; [lia|].
  destruct (RATE_LIMIT <=? count e) eqn:E2.
  - specialize (IH rl e He Hrest Hc).
    destruct (runLimiter uid rest rl) as [oks rl2]. simpl in *.
    rewrite accepted_cons. lia.
  - apply Z.leb_gt in E2.
    specialize (IH (<[uid := {| count := count e + 1; resetAt := resetAt e |}]> rl)
                  {| count := count e + 1; resetAt := resetAt e |}).
    rewrite lookup_insert_eq in IH. specialize (IH eq_refl Hrest).
    simpl in IH.
    destruct (runLimiter uid rest _) as [oks rl2]. simpl in *.
    rewrite accepted_cons. lia.
Qed.

Lemma submit_rate_limited now uid bd st :
  (checkRateLimit now uid (rateLimitMap st)).1 = false →
  submit now uid bd st = (Failure 429 "Rate limited", st).
Proof.
  unfold submit, checkRateLimit.
  destruct (rateLimitMap st !! uid) as [e|]; [|done].
  destruct (resetAt e <? now); [done|].
  destruct (RATE_LIMIT <=? count e); [|done].
  intros _. simpl. by destruct st.
Qed.

Lemma fixed_window_bound uid t0 times rl :
  match rl !! uid with Some e => resetAt e < t0 | None => True end →
  Forall (fun t => t ≤ t0 + RATE_WINDOW) times →
  Z.of_nat (accepted (runLimiter uid (t0 :: times) rl).1) ≤ RATE_LIMIT.
Proof.
  intros Hopen Htimes. cbn [runLimiter].
  assert (checkRateLimit t0 uid rl
          = (true, <[uid := {| count := 1; resetAt := t0 + RATE_WINDOW |}]> rl))
    as ->.
  { unfold checkRateLimit. destruct (rl !! uid) as [e|]; [|done].
    apply Z.ltb_lt in Hopen. by rewrite Hopen. }
  pose proof (runLimiter_in_window uid times
                (<[uid := {| count := 1; resetAt := t0 + RATE_WINDOW |}]> rl)
                {| count := 1; resetAt := t0 + RATE_WINDOW |}) as H.
  rewrite lookup_insert_eq in H. specialize (H eq_refl Htimes).
  destruct (runLimiter uid times _) as [oks rl2]. simpl in *.
  rewrite accepted_cons. unfold RATE_LIMIT in *. lia.
Qed.

Lemma checkRateLimit_valid now uid rl :
  validEntry uid rl → validEntry uid (checkRateLimit now uid rl).2.
Proof.
  unfold validEntry, checkRateLimit. intros Hv.
  destruct (rl !! uid) as [e|] eqn:E.
  - destruct (resetAt e <? now); cbn [snd].
    { rewrite lookup_insert_eq. unfold RATE_LIMIT. simpl. lia. }
    destruct (RATE_LIMIT <=? count e) eqn:E2; cbn [snd]; [by rewrite E|].
    apply Z.leb_gt in E2. rewrite lookup_insert_eq. simpl. lia.
  - cbn [snd]. rewrite lookup_insert_eq. unfold RATE_LIMIT. simpl. lia.
Qed.

Lemma runLimiter_valid uid times rl :
  validEntry uid rl → validEntry uid (runLimiter uid times rl).2.
Proof.
  revert rl. induction times as [|t rest IH]; intros rl Hv; [done|].
  cbn [runLimiter].
  pose proof (checkRateLimit_valid t uid rl Hv) as Hv1.
  destruct (checkRateLimit t uid rl) as [ok rl1]. simpl in Hv1.
  specialize (IH rl1 Hv1).
  by destruct (runLimiter uid rest rl1) as [oks rl2].
Qed.

(** Calls that all fall into one span of 60 s draw on at most two windows:
    the one current at the first call, and one opened inside the span. *)
Lemma runLimiter_in_span uid a times rl :
  validEntry uid rl →
  Forall (fun t => a ≤ t < a + RATE_WINDOW) times →
  Z.of_nat (accepted (runLimiter uid times rl).1)
  ≤ RATE_LIMIT + match rl !! uid with
                 | Some e => RATE_LIMIT - count e
                 | None => 0
                 end.
Proof.
  revert rl. induction times as [|t rest IH]; intros rl Hv Ht.
  { unfold validEntry in Hv. simpl.
    destruct (rl !! uid); unfold accepted, RATE_LIMIT in *; simpl; lia. }
  apply Forall_cons in Ht as [Ht Hrest].
  assert (Forall (fun t' => t' ≤ t + RATE_WINDOW) rest) as Hnew.
  { eapply Forall_impl; [exact Hrest|]. simpl. intros t' ?. lia. }
  pose proof (fixed_window_bound uid t rest rl) as Hopen.
  pose proof Hv as Hc. unfold validEntry in Hc.
  cbn [runLimiter] in *. unfold checkRateLimit in *.
  destruct (rl !! uid) as [e|] eqn:E.
  - destruct (resetAt e <? t) eqn:E1.
    + apply Z.ltb_lt in E1. specialize (Hopen E1 Hnew). lia.
    + destruct (RATE_LIMIT <=? count e) eqn:E2.
      * specialize (IH rl Hv Hrest). rewrite E in IH.
        destruct (runLimiter uid rest rl) as [oks rl2]. simpl in *.
        rewrite accepted_cons. lia.
      * apply Z.leb_gt in E2.
        specialize (IH (<[uid := {| count := count e + 1;
                                    resetAt := resetAt e |}]> rl)).
        unfold validEntry in IH.
        rewrite lookup_insert_eq in IH. simpl in IH.
        specialize (IH ltac:(lia) Hrest).
        destruct (runLimiter uid rest _) as [oks rl2]. simpl in *.
        rewrite accepted_cons. lia.
  - specialize (Hopen I Hnew). lia.
Qed.

(** C6 (amended): the limiter counts per fixed window.  When a submission at
    time [t0] opens a window for a participant (no entry yet, or the previous
    one expired), then of that submission and any further ones made up to
    [t0 + 60000] at most 30 are accepted.  A rolling span of 60 s can straddle
    two such windows, so of the submissions made within it, after any earlier
    ones, at most 60 are accepted.  A submission that exceeds the limit is
    answered with 429 before the game record is read, leaving the whole
    store, limiter table included, unchanged. *)
Theorem rate_limit_per_window uid :
  (∀ t0 times rl,
     match rl !! uid with Some e => resetAt e < t0 | None => True end →
     Forall (fun t => t ≤ t0 + RATE_WINDOW) times →
     (accepted (runLimiter uid (t0 :: times) rl).1 ≤ 30)%nat)
  ∧ (∀ a earlier times,
       Forall (fun t => a ≤ t < a + RATE_WINDOW) times →
       (accepted (runLimiter uid times (runLimiter uid earlier ∅).2).1
        ≤ 60)%nat)
  ∧ ∀ now bd st,
      (checkRateLimit now uid (rateLimitMap st)).1 = false →
      handler now (authenticated uid bd) st = (Failure 429 "Rate limited", st).
Proof.
  split_and!.
  - intros t0 times rl Hopen Htimes.
    pose proof (fixed_window_bound uid t0 times rl Hopen Htimes).
    unfold RATE_LIMIT in *. lia.
  - intros a earlier times Htimes.
    pose proof (runLimiter_valid uid earlier ∅) as Hv.
    pose proof (runLimiter_in_span uid a times _ (Hv ltac:(done)) Htimes) as H.
    unfold validEntry in Hv. specialize (Hv ltac:(done)).
    destruct (_ !! uid); unfold RATE_LIMIT in *; lia.
  - intros. by apply submit_rate_limited.
Qed.

Lemma rate_limit_per_window_witness :
  (accepted (runLimiter alice (0 :: replicate 40 1000)%Z ∅).1 ≤ 30)%nat
  ∧ accepted (runLimiter alice (0 :: replicate 40 1000) ∅).1 = 30%nat
  ∧ (accepted (runLimiter alice
                 (replicate 29 1000 ++ replicate 30 60001)%Z
                 (runLimiter alice [0]%Z ∅).2).1 ≤ 60)%nat
  ∧ accepted (runLimiter alice (replicate 29 1000 ++ replicate 30 60001)
                (runLimiter alice [0] ∅).2).1 = 59%nat.
Proof.
  destruct (rate_limit_per_window alice) as (Hfixed & Hspan & _).
  split_and!.
  - apply (Hfixed 0 (replicate 40 1000) ∅).
    + rewrite lookup_empty. exact I.
    + apply Forall_forall. intros t Ht.
      apply elem_of_replicate in Ht as [-> _]. vm_compute. discriminate.
  - vm_compute. reflexivity.
  - apply (Hspan 1000). apply Forall_app.
    split; apply Forall_forall; intros t Ht;
      apply elem_of_replicate in Ht as [-> _]; unfold RATE_WINDOW; lia.
  - vm_compute. reflexivity.
Defined.
End RateLimit.

(** ** Client reconciliation *)

Section Reconcile.
Import Client.

Lemma syncRefs_synced v : synced (syncRefs v).
Proof. done. Qed.

Lemma syncRefs_id v : synced v → syncRefs v = v.
Proof. destruct v. intros [H1 H2]. simpl in *. by subst. Qed.

Lemma syncFromRow_stale data v : stale data v = true → syncFromRow data v = v.
Proof.
  unfold stale, syncFromRow. intros H.
  destruct (bool_decide (_ < _)%nat); [done|]. simpl in H. by rewrite H.
Qed.

Lemma syncFromRow_fresh data v :
  stale data v = false → gameRow (syncFromRow data v) = Some data.
Proof.
  unfold stale, syncFromRow. intros H.
  destruct (bool_decide (_ < _)%nat); [done|]. simpl in H. by rewrite H.
Qed.

Lemma deliver_stale data v :
  synced v → stale data v = true → deliver data v = v.
Proof.
  intros Hs H. unfold deliver. rewrite syncFromRow_stale by done.
  by apply syncRefs_id.
Qed.

Lemma deliver_fresh data v :
  stale data v = false →
  gameRow (deliver data v) = Some data
  ∧ gameRowRef (deliver data v) = Some data
  ∧ moveCountRef (deliver data v) = length (moves data).
Proof.
  intros H. unfold deliver, syncRefs. simpl.
  by rewrite syncFromRow_fresh.
Qed.

Lemma deliver_count data v :
  synced v → (length (moves data) ≤ moveCountRef (deliver data v))%nat.
Proof.
  intros Hs. destruct (stale data v) eqn:E.
  - rewrite deliver_stale by done. unfold stale in E.
    apply orb_true_iff in E as [E|E].
    + apply bool_decide_eq_true in E. lia.
    + apply andb_true_iff in E as [E _]. apply bool_decide_eq_true in E. lia.
  - destruct (deliver_fresh data v E) as (_ & _ & ->). lia.
Qed.

(** C4 (amended): [syncFromRow] discards a record with fewer moves than
    locally known, and one with equally many moves and the same status; every
    other record is accepted.  Hence delivering the same record twice equals
    delivering it once, and a record with strictly fewer moves delivered
    after one with more moves is discarded, the local state staying at a
    record with at least the higher move count. *)
Theorem reconcile_idempotent_monotone (data : GameRow) (v : View) :
  synced v →
  ((length (moves data) < moveCountRef v)%nat → syncFromRow data v = v)
  ∧ (length (moves data) = moveCountRef v →
     Some (row_status data) = row_status <$> gameRowRef v →
     syncFromRow data v = v)
  ∧ ((moveCountRef v ≤ length (moves data))%nat →
     (length (moves data) = moveCountRef v →
      Some (row_status data) ≠ row_status <$> gameRowRef v) →
     gameRow (syncFromRow data v) = Some data)
  ∧ deliver data (deliver data v) = deliver data v
  ∧ ∀ older, (length (moves older) < length (moves data))%nat →
      deliver older (deliver data v) = deliver data v
      ∧ (length (moves data) ≤ moveCountRef (deliver data v))%nat.
Proof.
  intros Hs. split_and!.
  - intros H. apply syncFromRow_stale. unfold stale.
    by rewrite bool_decide_eq_true_2.
  - intros H1 H2. apply syncFromRow_stale. unfold stale.
    rewrite (bool_decide_eq_true_2 (_ = _)) by done.
    rewrite (bool_decide_eq_true_2 (Some _ = _)) by done.
    apply orb_true_r.
  - intros H1 H2. apply syncFromRow_fresh. unfold stale.
    rewrite bool_decide_eq_false_2 by lia. simpl.
    destruct (decide (length (moves data) = moveCountRef v)) as [E|E].
    + rewrite (bool_decide_eq_false_2 (Some _ = _)) by auto.
      apply andb_false_r.
    + by rewrite bool_decide_eq_false_2.
  - destruct (stale data v) eqn:E.
    + by rewrite !(deliver_stale data v).
    + destruct (deliver_fresh data v E) as (Hg & Hr & Hc).
      apply deliver_stale; [apply syncRefs_synced|].
      unfold stale. rewrite Hc, Hr. simpl.
      rewrite (bool_decide_eq_true_2 (_ = _)) by done.
      rewrite (bool_decide_eq_true_2 (Some _ = _)) by done.
      apply orb_true_r.
  - intros older Hlt. pose proof (deliver_count data v Hs) as Hc.
    split; [|done].
    apply deliver_stale; [apply syncRefs_synced|].
    unfold stale. rewrite bool_decide_eq_true_2 by lia. done.
Qed.

(** C4, as stated, fails: with equal move counts the older, still active
    record delivered after the completed one is accepted because its status
    differs, and the terminal status is lost; in the other order it is
    kept. *)
Lemma stale_active_record_overrides_completed :
  synced loadedView
  ∧ length (moves freshGame) = length (moves completedGame)
  ∧ gameRow (deliver freshGame (deliver completedGame loadedView))
    = Some freshGame
  ∧ status (gameState (deliver freshGame (deliver completedGame loadedView)))
    = active
  ∧ gameRow (deliver completedGame (deliver freshGame loadedView))
    = Some completedGame.
Proof. repeat split; vm_compute; reflexivity. Qed.

Lemma reconcile_idempotent_monotone_witness :
  deliver completedGame (deliver completedGame loadedView)
  = deliver completedGame loadedView
  ∧ gameRow (deliver completedGame loadedView) = Some completedGame.
Proof.
  destruct (reconcile_idempotent_monotone completedGame loadedView)
    as (_ & _ & _ & Hidem & _).
  - split; reflexivity.
  - split; [exact Hidem|]. vm_compute. reflexivity.
Defined.
End Reconcile.

(** * Further properties of the engine, the handler and the client *)

(** ** Turn, move counter and move history of reachable states *)

Lemma sideAfter_S n : sideAfter (S n) = opposite (sideAfter n).
Proof.
  unfold sideAfter. rewrite Nat.even_succ, <- Nat.negb_even.
  by destruct (Nat.even n).
Qed.

Lemma div2_S n :
  Z.of_nat (S n / 2) =
    Z.of_nat (n / 2) + (if Nat.even n then 0 else 1).
Proof.
  destruct (Nat.even n) eqn:E.
  - apply Nat.even_spec in E as [k ->].
    replace (S (2 * k)) with (1 + k * 2)%nat by lia.
    rewrite Nat.div_add by lia. replace (2 * k)%nat with (k * 2)%nat by lia.
    rewrite Nat.div_mul by lia. simpl. lia.
  - assert (Nat.odd n = true) as O by (by rewrite <- Nat.negb_even, E).
    apply Nat.odd_spec in O as [k ->].
    replace (S (2 * k + 1)) with ((k + 1) * 2)%nat by lia.
    rewrite Nat.div_mul by lia.
    replace (2 * k + 1)%nat with (1 + k * 2)%nat by lia.
    rewrite Nat.div_add by lia. simpl. lia.
Qed.

(** X1: in every state reached by legal play the side to move is given by
    the parity of the history (White after an even number of half-moves),
    and the full-move counter is one more than the number of completed
    move pairs. *)
Theorem reachable_turn_parity s :
  Reachable s →
  turn s = sideAfter (length (moveHistory s))
  ∧ fullMoveNumber s = 1 + Z.of_nat (length (moveHistory s) / 2).
Proof.
  induction 1 as [|s frm legal m s' _ [IHt IHn] _ _ Hmk]; [done|].
  apply makeMove_fields in Hmk as (_ & Ht & _ & _ & _ & Hn & Hh).
  rewrite Ht, Hn, Hh, length_app. cbn [length].
  replace (length (moveHistory s) + 1)%nat
    with (S (length (moveHistory s))) by lia.
  rewrite sideAfter_S, div2_S, IHt, IHn. split; [done|].
  unfold sideAfter. destruct (Nat.even _); simpl; lia.
Qed.

Lemma reachable_turn_parity_witness :
  turn foolsMateFinal = sideAfter (length (moveHistory foolsMateFinal))
  ∧ fullMoveNumber foolsMateFinal
    = 1 + Z.of_nat (length (moveHistory foolsMateFinal) / 2).
Proof. exact (reachable_turn_parity _ foolsMate_reachable). Defined.

(** ** [getAllLegalMoves] collects the legal moves of the 64 squares *)

Lemma allSquares_elem_of r c : 0 ≤ r < 8 → 0 ≤ c < 8 → (r, c) ∈ allSquares.
Proof.
  intros Hr Hc. unfold allSquares.
  apply list_elem_of_bind. exists r. split; [|apply elem_of_seqZ; lia].
  apply list_elem_of_bind. exists c. split; [|apply elem_of_seqZ; lia].
  by apply list_elem_of_singleton.
Qed.

Lemma legalMovesOver_elem_of s cells all m :
  legalMovesOver s cells = Some all →
  m ∈ all ↔
  ∃ r c pc legal,
    (r, c) ∈ cells ∧ readSq (board s) r c = Some (Some pc)
    ∧ color pc = turn s
    ∧ getLegalMoves s (pos r c) = Some legal ∧ m ∈ legal.
Proof.
  revert all. induction cells as [|[r c] rest IH]; intros all;
    cbn [legalMovesOver].
  - intros [= <-]. split; [by intros ?%elem_of_nil|].
    by intros (? & ? & ? & ? & ?%elem_of_nil & _).
  - destruct (readSq (board s) r c) as [sq|] eqn:Hsq; [|done].
    cbn [mbind option_bind].
    destruct (match sq with Some _ => _ | None => _ end) as [here|] eqn:Hhere;
      [|done].
    cbn [mbind option_bind].
    destruct (legalMovesOver s rest) as [more|]; [|done].
    cbn [mbind option_bind]. intros [= <-].
    rewrite elem_of_app, (IH more eq_refl). split.
    + intros [Hm|(r' & c' & pc & legal & Hin & ?)].
      * destruct sq as [pc|]; [|simplify_eq; by apply elem_of_nil in Hm].
        case_bool_decide; [|simplify_eq; by apply elem_of_nil in Hm].
        exists r, c, pc, here. split_and!; try done. by left.
      * exists r', c', pc, legal. split; [by right|done].
    + intros (r' & c' & pc & legal & Hin & Hpc & Hcol & Hlegal & Hm).
      apply elem_of_cons in Hin as [[= -> ->]|Hin].
      * left. rewrite Hpc in Hsq. injection Hsq as <-.
        rewrite bool_decide_true in Hhere by done. by simplify_eq.
      * right. by exists r', c', pc, legal.
Qed.

(** X2: a move is returned by [getAllLegalMoves] exactly when
    [getLegalMoves] returns it for one of the 64 squares. *)
Theorem getAllLegalMoves_elem_of s all m :
  getAllLegalMoves s = Some all →
  m ∈ all ↔
  ∃ r c legal, 0 ≤ r < 8 ∧ 0 ≤ c < 8
               ∧ getLegalMoves s (pos r c) = Some legal ∧ m ∈ legal.
Proof.
  intros Hall. rewrite (legalMovesOver_elem_of _ _ _ _ Hall). split.
  - intros (r & c & pc & legal & Hin & _ & _ & Hlegal & Hm).
    apply elem_of_allSquares in Hin as [Hr Hc]. by exists r, c, legal.
  - intros (r & c & legal & Hr & Hc & Hlegal & Hm).
    destruct (getLegalMoves_elem_of _ _ _ _ Hlegal Hm)
      as (raw & Hraw & Hin & _).
    destruct (getRawMoves_sound _ _ _ _ Hraw Hin) as (pc & Hpc & Hcol & _).
    exists r, c, pc, legal. split_and!; try done.
    by apply allSquares_elem_of.
Qed.

Lemma getAllLegalMoves_elem_of_witness :
  ∃ all, getAllLegalMoves createInitialState = Some all
  ∧ (knightOut ∈ all ↔
     ∃ r c legal, 0 ≤ r < 8 ∧ 0 ≤ c < 8
       ∧ getLegalMoves createInitialState (pos r c) = Some legal
       ∧ knightOut ∈ legal).
Proof.
  eexists. split; [vm_compute; reflexivity|].
  apply getAllLegalMoves_elem_of. vm_compute; reflexivity.
Defined.

(** ** The board stays an 8×8 grid *)

Lemma wfBoard_row bd r rw :
  wfBoard bd → rowAt bd r = Some rw → 0 ≤ r < 8 ∧ length rw = 8%nat.
Proof.
  intros [L F] [Hr Hrw]%rowAt_Some.
  pose proof (lookup_lt_Some _ _ _ Hrw).
  split; [lia|]. by eapply (Forall_lookup_1 _ _ _ _ F).
Qed.

Lemma readSq_wf bd r c x :
  wfBoard bd → readSq bd r c = Some (Some x) → inBounds r c = true.
Proof.
  intros Hwf. unfold readSq. intros (rw & Hrw & H)%bind_Some.
  destruct (wfBoard_row _ _ _ Hwf Hrw) as [Hr L].
  destruct (0 <=? c) eqn:Hc; [|done]. apply Z.leb_le in Hc.
  destruct (rw !! Z.to_nat c) eqn:E; [|done].
  apply lookup_lt_Some in E. apply inBounds_spec. lia.
Qed.

Lemma writeSq_wf bd r c v bd' :
  wfBoard bd → 0 ≤ c < 8 → writeSq bd r c v = Some bd' → wfBoard bd'.
Proof.
  intros Hwf Hc. unfold writeSq. intros (rw & Hrw & H)%bind_Some.
  destruct (wfBoard_row _ _ _ Hwf Hrw) as [Hr L].
  destruct (0 <=? c) eqn:E; [|lia].
  rewrite decide_True in H by lia. injection H as <-.
  destruct Hwf as [L8 F]. split; [by rewrite length_insert|].
  apply Forall_insert; [done|]. by rewrite length_insert.
Qed.

Lemma applyMoveToBoard_wf bd m nb :
  wfBoard bd → 0 ≤ col (from m) < 8 → 0 ≤ col (to m) < 8 →
  applyMoveToBoard bd m = Some nb → wfBoard nb.
Proof.
  intros Hwf Hf Ht. unfold applyMoveToBoard. rewrite cloneBoard_id.
  intros (v & Hv & H)%bind_Some.
  apply bind_Some in H as (b1 & W1 & H).
  apply bind_Some in H as (b2 & W2 & H).
  apply bind_Some in H as (b3 & W3 & H).
  apply bind_Some in H as (b4 & W4 & H).
  apply bind_Some in H as (b5 & W5 & H).
  injection H as <-.
  apply writeSq_wf in W1; [|done..].
  apply writeSq_wf in W2; [|done..].
  assert (wfBoard b3) as F3.
  { destruct (enPassant m); [|by injection W3 as <-].
    by apply writeSq_wf in W3. }
  assert (wfBoard b4) as F4.
  { destruct (bool_decide (castlingSide m = Some kingside));
      [|by injection W4 as <-].
    apply bind_Some in W4 as (rook & Hrook & W4).
    apply bind_Some in W4 as (b' & W4a & W4b).
    apply writeSq_wf in W4a; [|done|lia].
    apply writeSq_wf in W4b; [done|done|lia]. }
  destruct (bool_decide (castlingSide m = Some queenside));
    [|by injection W5 as <-].
  apply bind_Some in W5 as (rook & Hrook & W5).
  apply bind_Some in W5 as (b' & W5a & W5b).
  apply writeSq_wf in W5a; [|done|lia].
  apply writeSq_wf in W5b; [done|done|lia].
Qed.

Lemma RawMove_cols s frm pc m :
  wfBoard (board s) →
  readSq (board s) (row frm) (col frm) = Some (Some pc) →
  RawMove s frm pc m →
  inBounds (row (from m)) (col (from m)) = true
  ∧ inBounds (row (to m)) (col (to m)) = true.
Proof.
  intros Hwf Hpc Hraw. pose proof (readSq_wf _ _ _ _ Hwf Hpc) as Hin.
  destruct Hraw as [dest sq ?|dest sq pr _ _ ?|dest sq cap _ _ ?|side sq];
    simpl; split; try done.
  apply inBounds_spec in Hin. apply inBounds_spec.
  destruct side; simpl; lia.
Qed.

Lemma wfBoard_initial : wfBoard createInitialBoard.
Proof. split; [done|]. repeat constructor. Qed.

Lemma makeMove_wf s frm legal m s' :
  wfBoard (board s) →
  getLegalMoves s frm = Some legal → m ∈ legal →
  makeMove s m = Some s' → wfBoard (board s').
Proof.
  intros Hwf Hlegal Hm Hmk.
  destruct (getLegalMoves_elem_of _ _ _ _ Hlegal Hm) as (raw & Hraw & Hin & _).
  destruct (getRawMoves_sound _ _ _ _ Hraw Hin) as (pc & Hpc & _ & Hshape).
  destruct (RawMove_cols _ _ _ _ Hwf Hpc Hshape)
    as [Hf%inBounds_spec Ht%inBounds_spec].
  apply makeMove_fields in Hmk as (Hnb & _).
  eapply applyMoveToBoard_wf; [done| | |done]; lia.
Qed.

Lemma Reachable_wf s : Reachable s → wfBoard (board s).
Proof.
  induction 1 as [|s frm legal m s' _ IH Hlegal Hm Hmk];
    [apply wfBoard_initial|].
  by eapply makeMove_wf.
Qed.

(** X3: the board of every state reached by legal play is an 8×8 grid, and
    every piece on it stands on a square inside the board. *)
Theorem reachable_board_8x8 s :
  Reachable s →
  wfBoard (board s)
  ∧ ∀ r c x, readSq (board s) r c = Some (Some x) → inBounds r c = true.
Proof.
  intros Hs. pose proof (Reachable_wf s Hs) as Hwf. split; [done|].
  intros r c x. by apply readSq_wf.
Qed.

Lemma reachable_board_8x8_witness :
  wfBoard (board foolsMateFinal)
  ∧ ∀ r c x, readSq (board foolsMateFinal) r c = Some (Some x) →
             inBounds r c = true.
Proof. exact (reachable_board_8x8 _ foolsMate_reachable). Defined.

(** ** Where generated moves go *)

Section Geometry.
Context (s : GameState) (frm : Position) (pc : Piece).

Lemma pawnForward_geo ms m :
  type pc = Pawn →
  pawnForward (board s) frm pc = Some ms → m ∈ ms → Geometry s frm pc m.
Proof.
  intros Hp. unfold pawnForward.
  destruct (inBounds _ _) eqn:Hin; [|intros [= <-]; by intros ?%elem_of_nil].
  intros (ahead & Hahead & H)%bind_Some.
  destruct ahead as [?|]; simpl in H;
    [injection H as <-; by intros ?%elem_of_nil|].
  apply bind_Some in H as (single & Hs & H).
  apply bind_Some in H as (double & Hd & H).
  injection H as <-.
  pose proof (pawnDir_unit (color pc)) as Hdir.
  intros [Hm|Hm]%elem_of_app.
  - destruct (_ =? promoRow _) eqn:Epr.
    + apply addPromotions_Some in Hs as (sq & Hsq & ->).
      apply list_elem_of_fmap in Hm as (pr & -> & Hpr).
      apply GeoPush; simpl; try done; lia.
    + apply addOne_Some in Hs as (sq & Hsq & ->).
      apply list_elem_of_singleton in Hm as ->.
      apply GeoPush; simpl; try done; lia.
  - destruct (_ =? startRow _) eqn:Est;
      [|injection Hd as <-; by apply elem_of_nil in Hm].
    apply bind_Some in Hd as (two & Htwo & Hd).
    destruct two as [?|]; simpl in Hd;
      [injection Hd as <-; by apply elem_of_nil in Hm|].
    apply addOne_Some in Hd as (sq & Hsq & ->).
    apply list_elem_of_singleton in Hm as ->.
    apply GeoPush; simpl; try done; lia.
Qed.

Lemma pawnCapture_geo dc ms m :
  type pc = Pawn → dc = -1 ∨ dc = 1 →
  pawnCapture (board s) frm pc (enPassantTarget s) dc = Some ms →
  m ∈ ms → Geometry s frm pc m.
Proof.
  intros Hp Hdc. unfold pawnCapture.
  destruct (inBounds _ _) eqn:Hin; simpl;
    [|intros [= <-]; by intros ?%elem_of_nil].
  intros (target & Htarget & H)%bind_Some.
  apply bind_Some in H as (caps & Hcaps & H).
  apply bind_Some in H as (eps & Heps & H).
  injection H as <-. intros [Hm|Hm]%elem_of_app.
  - destruct target as [o|];
      [|injection Hcaps as <-; by apply elem_of_nil in Hm].
    destruct (bool_decide (color o ≠ color pc)) eqn:Eo;
      [|injection Hcaps as <-; by apply elem_of_nil in Hm].
    apply bool_decide_eq_true in Eo.
    destruct (_ =? promoRow _) eqn:Epr.
    + apply addPromotions_Some in Hcaps as (sq & Hsq & ->).
      apply list_elem_of_fmap in Hm as (pr & -> & Hpr).
      apply (GeoDiag _ _ _ _ dc); simpl; try done. eauto.
    + apply addOne_Some in Hcaps as (sq & Hsq & ->).
      apply list_elem_of_singleton in Hm as ->.
      apply (GeoDiag _ _ _ _ dc); simpl; try done. eauto.
  - destruct (enPassantTarget s) as [e|] eqn:Eep;
      [|injection Heps as <-; by apply elem_of_nil in Hm].
    destruct ((row e =? _) && (col e =? _)) eqn:Ee;
      [|injection Heps as <-; by apply elem_of_nil in Hm].
    apply bind_Some in Heps as (cap & Hcap & Heps).
    apply bind_Some in Heps as (m0 & (sq & Hsq & ->)%addMove_Some & Heps).
    injection Heps as <-. apply list_elem_of_singleton in Hm as ->.
    apply (GeoDiag _ _ _ _ dc); simpl; done.
Qed.

Lemma stepMoves_geo offs ms m :
  stepMoves (board s) frm pc offs = Some ms → m ∈ ms →
  ∃ dr dc,
    (dr, dc) ∈ offs
    ∧ to m = pos (row frm + dr) (col frm + dc)
    ∧ notOwn s pc (to m)
    ∧ enPassant m = false ∧ castlingSide m = None.
Proof.
  revert ms. induction offs as [|[dr dc] rest IH]; intros ms; simpl.
  { intros [= <-]. by intros ?%elem_of_nil. }
  intros (here & Hhere & H)%bind_Some.
  apply bind_Some in H as (more & Hmore & H).
  injection H as <-. intros [Hm|Hm]%elem_of_app.
  - exists dr, dc. split; [left|].
    destruct (inBounds _ _) eqn:Hin;
      [|injection Hhere as <-; by apply elem_of_nil in Hm].
    apply bind_Some in Hhere as (sq & Hsq & Hhere).
    destruct sq as [o|].
    + destruct (bool_decide _) eqn:Eo;
        [|injection Hhere as <-; by apply elem_of_nil in Hm].
      apply bool_decide_eq_true in Eo.
      apply addOne_Some in Hhere as (sq & Hsq' & ->).
      apply list_elem_of_singleton in Hm as ->. simpl. split_and!; try done.
      intros o'. simpl. rewrite Hsq. by intros [= <-].
    + apply addOne_Some in Hhere as (sq & Hsq' & ->).
      apply list_elem_of_singleton in Hm as ->. simpl. split_and!; try done.
      intros o'. simpl. by rewrite Hsq.
  - destruct (IH _ Hmore Hm) as (dr' & dc' & Hin & ?).
    exists dr', dc'. split; [by right|done].
Qed.

Lemma slideMoves_geo fuel r c dr dc ms m :
  slideMoves fuel (board s) frm pc r c dr dc = Some ms → m ∈ ms →
  ∃ n, 0 ≤ n
    ∧ to m = pos (r + n * dr) (c + n * dc)
    ∧ (∀ j, 0 ≤ j < n →
            inBounds (r + j * dr) (c + j * dc) = true
            ∧ readSq (board s) (r + j * dr) (c + j * dc) = Some None)
    ∧ notOwn s pc (to m)
    ∧ enPassant m = false ∧ castlingSide m = None.
Proof.
  revert r c ms. induction fuel as [|f IH]; intros r c ms; simpl.
  { destruct (inBounds r c); [done|].
    intros [= <-]. by intros ?%elem_of_nil. }
  destruct (inBounds r c) eqn:Hin;
    [|intros [= <-]; by intros ?%elem_of_nil].
  intros (sq & Hsq & H)%bind_Some.
  assert (pos (r + 0 * dr) (c + 0 * dc) = pos r c) as H0
    by (unfold pos; f_equal; lia).
  destruct sq as [o|].
  - destruct (bool_decide _) eqn:Eo;
      [|injection H as <-; by intros ?%elem_of_nil].
    apply bool_decide_eq_true in Eo.
    apply addOne_Some in H as (sq & Hsq' & ->).
    intros ->%list_elem_of_singleton. exists 0. simpl.
    split_and!; try done; [lia|].
    intros o'. simpl. rewrite Hsq. by intros [= <-].
  - apply bind_Some in H as (m0 & (sq & Hsq' & ->)%addMove_Some & H).
    apply bind_Some in H as (more & Hmore & H).
    injection H as <-. intros [->|Hm]%elem_of_cons.
    + exists 0. simpl. split_and!; try done; [lia|].
      intros o'. simpl. by rewrite Hsq.
    + destruct (IH _ _ _ Hmore Hm) as (n & Hn & Hto & Hfree & Hrest).
      exists (n + 1). split; [lia|]. split.
      { rewrite Hto. unfold pos. f_equal; lia. }
      split; [|done]. intros j Hj.
      destruct (decide (j = 0)) as [->|Hne].
      * replace (r + 0 * dr) with r by lia.
        replace (c + 0 * dc) with c by lia. done.
      * destruct (Hfree (j - 1)) as [Hi Hr]; [lia|].
        replace (r + dr + (j - 1) * dr) with (r + j * dr) in * by lia.
        replace (c + dc + (j - 1) * dc) with (c + j * dc) in * by lia.
        done.
Qed.

Lemma slideAll_geo dirs ms m :
  slideAll (board s) frm pc dirs = Some ms → m ∈ ms →
  ∃ dr dc n,
    (dr, dc) ∈ dirs ∧ 0 ≤ n
    ∧ to m = pos (row frm + (n + 1) * dr) (col frm + (n + 1) * dc)
    ∧ (∀ j, 1 ≤ j ≤ n →
            inBounds (row frm + j * dr) (col frm + j * dc) = true
            ∧ readSq (board s) (row frm + j * dr) (col frm + j * dc)
              = Some None)
    ∧ notOwn s pc (to m)
    ∧ enPassant m = false ∧ castlingSide m = None.
Proof.
  revert ms. induction dirs as [|[dr dc] rest IH]; intros ms;
    cbn [slideAll].
  { intros [= <-]. by intros ?%elem_of_nil. }
  intros (here & Hhere & H)%bind_Some.
  apply bind_Some in H as (more & Hmore & H).
  injection H as <-. intros [Hm|Hm]%elem_of_app.
  - destruct (slideMoves_geo _ _ _ _ _ _ _ Hhere Hm)
      as (n & Hn & Hto & Hfree & Hrest).
    exists dr, dc, n. split; [left|]. split; [done|]. split.
    { rewrite Hto. unfold pos. f_equal; lia. }
    split; [|done]. intros j Hj.
    destruct (Hfree (j - 1)) as [Hi Hr]; [lia|].
    replace (row frm + dr + (j - 1) * dr) with (row frm + j * dr) in * by lia.
    replace (col frm + dc + (j - 1) * dc) with (col frm + j * dc) in * by lia.
    done.
  - destruct (IH _ Hmore Hm) as (dr' & dc' & n & Hin & ?).
    exists dr', dc', n. split; [by right|done].
Qed.

Lemma isEmpty_read (bd : Board) r c :
  isEmpty <$> readSq bd r c = Some true → readSq bd r c = Some None.
Proof. destruct (readSq bd r c) as [[?|]|]; simpl; by intros. Qed.

Lemma castlingMoves_geo ms m :
  type pc = King →
  castlingMoves (board s) frm pc (castling s) (turn s) = Some ms →
  m ∈ ms → Geometry s frm pc m.
Proof.
  intros Hk. unfold castlingMoves.
  intros (ks & Hks & H)%bind_Some.
  apply bind_Some in H as (km & Hkm & H).
  apply bind_Some in H as (qs & Hqs & H).
  apply bind_Some in H as (qm & Hqm & H).
  injection H as <-. intros [Hm|Hm]%elem_of_app.
  - destruct ks; [|injection Hkm as <-; by apply elem_of_nil in Hm].
    apply bind_Some in Hkm as (m0 & (sq & Hsq & ->)%addMove_Some & Hkm).
    injection Hkm as <-. apply list_elem_of_singleton in Hm as ->.
    do 3 apply andThen_true in Hks as [Hks _].
    apply andThen_true in Hks as [Hks H6%isEmpty_read].
    apply andThen_true in Hks as [Hks H5%isEmpty_read].
    apply (GeoCastle _ _ _ _ kingside); simpl; try done.
    intros c [->|[->|[]%elem_of_nil]%elem_of_cons]%elem_of_cons; done.
  - destruct qs; [|injection Hqm as <-; by apply elem_of_nil in Hm].
    apply bind_Some in Hqm as (m0 & (sq & Hsq & ->)%addMove_Some & Hqm).
    injection Hqm as <-. apply list_elem_of_singleton in Hm as ->.
    do 3 apply andThen_true in Hqs as [Hqs _].
    apply andThen_true in Hqs as [Hqs H1%isEmpty_read].
    apply andThen_true in Hqs as [Hqs H2%isEmpty_read].
    apply andThen_true in Hqs as [Hqs H3%isEmpty_read].
    apply (GeoCastle _ _ _ _ queenside); simpl; try done.
    intros c [->|[->|[->|[]%elem_of_nil]%elem_of_cons]%elem_of_cons]%elem_of_cons;
      done.
Qed.
End Geometry.

Lemma getRawMoves_geometry s frm ms m :
  getRawMoves s frm = Some ms → m ∈ ms →
  ∃ pc, readSq (board s) (row frm) (col frm) = Some (Some pc)
        ∧ color pc = turn s
        ∧ Geometry s frm pc m.
Proof.
  unfold getRawMoves. intros (sq & Hsq & H)%bind_Some Hm.
  destruct sq as [pc|]; [|injection H as <-; by apply elem_of_nil in Hm].
  destruct (bool_decide (color pc ≠ turn s)) eqn:Ec;
    [injection H as <-; by apply elem_of_nil in Hm|].
  apply bool_decide_eq_false in Ec. apply dec_stable in Ec.
  exists pc. split; [done|]. split; [done|].
  destruct (type pc) eqn:Ht.
  - apply bind_Some in H as (fwd & Hfwd & H).
    apply bind_Some in H as (lft & Hlft & H).
    apply bind_Some in H as (rgt & Hrgt & H).
    injection H as <-.
    apply elem_of_app in Hm as [Hm|[Hm|Hm]%elem_of_app].
    + by eapply pawnForward_geo.
    + eapply (pawnCapture_geo s frm pc (-1)); try done. by left.
    + eapply (pawnCapture_geo s frm pc 1); try done. by right.
  - destruct (stepMoves_geo _ _ _ _ _ _ H Hm) as (dr & dc & Hoff & Hto & ?).
    apply (GeoStep _ _ _ _ dr dc); try tauto. by rewrite Ht.
  - destruct (slideAll_geo _ _ _ _ _ _ H Hm)
      as (dr & dc & n & Hoff & Hn & Hto & Hfree & ?).
    apply (GeoSlide _ _ _ _ dr dc n); try tauto. by rewrite Ht.
  - destruct (slideAll_geo _ _ _ _ _ _ H Hm)
      as (dr & dc & n & Hoff & Hn & Hto & Hfree & ?).
    apply (GeoSlide _ _ _ _ dr dc n); try tauto. by rewrite Ht.
  - destruct (slideAll_geo _ _ _ _ _ _ H Hm)
      as (dr & dc & n & Hoff & Hn & Hto & Hfree & ?).
    apply (GeoSlide _ _ _ _ dr dc n); try tauto. by rewrite Ht.
  - apply bind_Some in H as (steps & Hsteps & H).
    apply bind_Some in H as (cast & Hcast & H).
    injection H as <-. apply elem_of_app in Hm as [Hm|Hm].
    + destruct (stepMoves_geo _ _ _ _ _ _ Hsteps Hm)
        as (dr & dc & Hoff & Hto & ?).
      apply (GeoStep _ _ _ _ dr dc); try tauto. by rewrite Ht.
    + by eapply castlingMoves_geo.
Qed.

(** ** A capture is an attack *)

Lemma orElse_l a c : a = Some true → orElse a c = Some true.
Proof. by intros ->. Qed.

Lemma orElse_r a c : is_Some a → c = Some true → orElse a c = Some true.
Proof. intros [[] ->] ->; done. Qed.

Lemma isPiece_true sq t c :
  isPiece sq t c = true ↔ sq = Some {| type := t; color := c |}.
Proof.
  destruct sq as [[t' c']|]; simpl; [|done].
  rewrite andb_true_iff, !bool_decide_eq_true. split.
  - by intros [-> ->].
  - by intros [= -> ->].
Qed.

Lemma probeOffsets_hit (bd : Board) rw cl t byColor offs dr dc r c :
  (8 ≤ length bd)%nat →
  (dr, dc) ∈ offs → r = rw + dr → c = cl + dc →
  inBounds r c = true →
  readSq bd r c = Some (Some {| type := t; color := byColor |}) →
  probeOffsets bd rw cl t byColor offs = Some true.
Proof.
  intros Hrows Hin -> -> Hb Hsq.
  induction offs as [|[dr' dc'] rest IH]; [by apply elem_of_nil in Hin|].
  simpl. apply elem_of_cons in Hin as [[= <- <-]|Hin].
  - rewrite Hb, Hsq. simpl. by rewrite !bool_decide_eq_true_2.
  - destruct (inBounds (rw + dr') (cl + dc')) eqn:E; [|by apply IH].
    destruct (readSq_inBounds bd _ _ Hrows E) as [sq ->]. simpl.
    destruct (isPiece sq t byColor); [done|by apply IH].
Qed.

Lemma slideAttack_hit (bd : Board) dr dc types byColor pc (n : nat) :
  ∀ fuel r c,
  (n < fuel)%nat →
  (∀ j, 0 ≤ j < Z.of_nat n →
        inBounds (r + j * dr) (c + j * dc) = true
        ∧ readSq bd (r + j * dr) (c + j * dc) = Some None) →
  inBounds (r + Z.of_nat n * dr) (c + Z.of_nat n * dc) = true →
  readSq bd (r + Z.of_nat n * dr) (c + Z.of_nat n * dc) = Some (Some pc) →
  color pc = byColor → type pc ∈ types →
  slideAttack fuel bd r c dr dc types byColor = Some true.
Proof.
  induction n as [|n IH]; intros fuel r c Hfuel Hfree Hin Hsq Hc Ht;
    (destruct fuel as [|f]; [lia|]); simpl.
  - replace (r + Z.of_nat 0 * dr) with r in * by lia.
    replace (c + Z.of_nat 0 * dc) with c in * by lia.
    rewrite Hin, Hsq. simpl. by rewrite !bool_decide_eq_true_2.
  - destruct (Hfree 0) as [H0 H0']; [lia|].
    replace (r + 0 * dr) with r in * by lia.
    replace (c + 0 * dc) with c in * by lia.
    rewrite H0, H0'. simpl. apply IH; [lia| | | |done..].
    + intros j Hj. destruct (Hfree (j + 1)) as [H1 H1']; [lia|].
      replace (r + dr + j * dr) with (r + (j + 1) * dr) by lia.
      replace (c + dc + j * dc) with (c + (j + 1) * dc) by lia. done.
    + replace (r + dr + Z.of_nat n * dr) with (r + Z.of_nat (S n) * dr) by lia.
      replace (c + dc + Z.of_nat n * dc) with (c + Z.of_nat (S n) * dc) by lia. done.
    + replace (r + dr + Z.of_nat n * dr) with (r + Z.of_nat (S n) * dr) by lia.
      replace (c + dc + Z.of_nat n * dc) with (c + Z.of_nat (S n) * dc) by lia. done.
Qed.

Lemma slideDirections_hit (bd : Board) rw cl byColor dirs dr dc types :
  (8 ≤ length bd)%nat →
  Forall (fun d => unitDir d.1.1 d.1.2) dirs →
  (dr, dc, types) ∈ dirs →
  slideAttack 8 bd (rw + dr) (cl + dc) dr dc types byColor = Some true →
  slideDirections bd rw cl byColor dirs = Some true.
Proof.
  intros Hrows Hunit Hin Hhit.
  induction Hunit as [|[[dr' dc'] types'] rest Hd _ IH];
    [by apply elem_of_nil in Hin|].
  cbn [slideDirections].
  apply elem_of_cons in Hin as [[= <- <- <-]|Hin].
  - by rewrite Hhit.
  - destruct (slideAttack_total bd Hrows 8 (rw + dr') (cl + dc') dr' dc'
                types' byColor Hd) as [hit ->].
    { intros E. by apply toEdge_le_8. }
    simpl. destruct hit; [done|by apply IH].
Qed.

(** The ray along which a piece slides is watched, in the opposite
    direction, for that piece's type. *)
Lemma slideDirs_attack t dr dc :
  (dr, dc) ∈ slideDirs t →
  unitDir dr dc
  ∧ ∃ types, (- dr, - dc, types) ∈ attackDirections ∧ t ∈ types.
Proof.
  unfold slideDirs, queenDirs, rookDirs, bishopDirs, attackDirections.
  destruct t; simpl; intros Hin;
    repeat (apply elem_of_cons in Hin as [[= -> ->]|Hin];
            [split; [unfold unitDir; lia|];
             eexists; split; [repeat constructor|repeat constructor]|]);
    by apply elem_of_nil in Hin.
Qed.

Lemma stepOffsets_sym t dr dc :
  (dr, dc) ∈ stepOffsets t → (- dr, - dc) ∈ stepOffsets t.
Proof.
  unfold stepOffsets, knightOffsets, kingOffsets.
  destruct t; simpl; intros Hin;
    repeat (apply elem_of_cons in Hin as [[= -> ->]|Hin];
            [repeat constructor|]);
    by apply elem_of_nil in Hin.
Qed.

Lemma castleCol_between side : castleCol side ∈ between side.
Proof. destruct side; repeat constructor. Qed.

Lemma Piece_eta (pc : Piece) : pc = {| type := type pc; color := color pc |}.
Proof. by destruct pc. Qed.

(** A pseudo-legal move onto an occupied square is seen by
    [isSquareAttacked]. *)
Lemma Geometry_attack s frm pc m x :
  (8 ≤ length (board s))%nat →
  readSq (board s) (row frm) (col frm) = Some (Some pc) →
  inBounds (row frm) (col frm) = true →
  inBounds (row (to m)) (col (to m)) = true →
  Geometry s frm pc m →
  readSq (board s) (row (to m)) (col (to m)) = Some (Some x) →
  isSquareAttacked (board s) (to m) (color pc) = Some true.
Proof.
  intros Hrows Hpc Hfrm Hto Hgeo Hx.
  rewrite (Piece_eta pc) in Hpc.
  destruct Hgeo as [Hp _ _ Hnone _ _
                   |dc Hp Hdc Hdest _ _
                   |dr dc Hoff Hdest _ _ _
                   |dr dc n Hoff Hn Hdest Hfree _ _ _
                   |side Hk _ Hdest Hempty _].
  - congruence.
  - unfold isSquareAttacked. apply orElse_l.
    rewrite Hp in Hpc. rewrite Hdest. cbn [row col pos].
    destruct (color pc), Hdc as [-> | ->]; cbn [pawnDir].
    + eapply (probeOffsets_hit _ _ _ _ _ _ 1 1 (row frm) (col frm));
        try done; try lia. repeat constructor.
    + eapply (probeOffsets_hit _ _ _ _ _ _ 1 (-1) (row frm) (col frm));
        try done; try lia. repeat constructor.
    + eapply (probeOffsets_hit _ _ _ _ _ _ (-1) 1 (row frm) (col frm));
        try done; try lia. repeat constructor.
    + eapply (probeOffsets_hit _ _ _ _ _ _ (-1) (-1) (row frm) (col frm));
        try done; try lia. repeat constructor.
  - unfold isSquareAttacked. rewrite Hdest. cbn [row col pos].
    apply stepOffsets_sym in Hoff.
    apply orElse_r; [by apply probeOffsets_total|].
    destruct (type pc) eqn:Ht; try by apply elem_of_nil in Hoff.
    + apply orElse_l.
      eapply (probeOffsets_hit _ _ _ _ _ _ (- dr) (- dc) (row frm) (col frm));
        try done; lia.
    + apply orElse_r; [by apply probeOffsets_total|]. apply orElse_l.
      eapply (probeOffsets_hit _ _ _ _ _ _ (- dr) (- dc) (row frm) (col frm));
        try done; lia.
  - unfold isSquareAttacked.
    do 3 (apply orElse_r; [by apply probeOffsets_total|]).
    destruct (slideDirs_attack _ _ _ Hoff) as (Hunit & types & Hdir & Ht).
    apply (slideDirections_hit _ _ _ _ _ (- dr) (- dc) types);
      [done|apply attackDirections_unit|done|].
    rewrite Hdest. cbn [row col pos].
    apply inBounds_spec in Hfrm. rewrite Hdest in Hto. cbn [row col pos] in Hto.
    apply inBounds_spec in Hto.
    assert (n < 7) as Hn7 by (unfold unitDir in Hunit; nia).
    apply (slideAttack_hit _ _ _ _ _ {| type := type pc; color := color pc |}
             (Z.to_nat n)); try done; [lia| | |].
    + intros j Hj. destruct (Hfree (n - j)) as [H1 H2]; [lia|].
      replace (row frm + (n + 1) * dr + - dr + j * - dr)
        with (row frm + (n - j) * dr) by lia.
      replace (col frm + (n + 1) * dc + - dc + j * - dc)
        with (col frm + (n - j) * dc) by lia. done.
    + rewrite Z2Nat.id by lia.
      replace (row frm + (n + 1) * dr + - dr + n * - dr) with (row frm) by lia.
      replace (col frm + (n + 1) * dc + - dc + n * - dc) with (col frm) by lia.
      by apply inBounds_spec.
    + rewrite Z2Nat.id by lia.
      replace (row frm + (n + 1) * dr + - dr + n * - dr) with (row frm) by lia.
      replace (col frm + (n + 1) * dc + - dc + n * - dc) with (col frm) by lia.
      done.
  - rewrite Hdest in Hx. cbn [row col pos] in Hx.
    rewrite (Hempty _ (castleCol_between side)) in Hx. done.
Qed.

(** ** One king of each colour *)

Lemma findKingIn_first (bd : Board) c cells r cl :
  (8 ≤ length bd)%nat →
  (∀ r' c', (r', c') ∈ cells → 0 ≤ r' < 8) →
  (r, cl) ∈ cells → kingAt bd c r cl →
  ∃ r' c', findKingIn bd c cells = Some (pos r' c') ∧ kingAt bd c r' c'.
Proof.
  intros Hrows. induction cells as [|[r0 c0] rest IH]; intros Hcells Hin Hk;
    [by apply elem_of_nil in Hin|].
  simpl.
  destruct (readSq_is_Some bd r0 c0 Hrows) as [sq Hsq].
  { apply (Hcells r0 c0). left. }
  rewrite Hsq. simpl. destruct (isPiece sq King c) eqn:E.
  - apply isPiece_true in E as ->. by exists r0, c0.
  - apply elem_of_cons in Hin as [[= -> ->]|Hin].
    + unfold kingAt in Hk. rewrite Hk in Hsq. injection Hsq as <-.
      simpl in E. by rewrite !bool_decide_eq_true_2 in E.
    + apply IH; [|done..]. intros r' c' H'. apply (Hcells r' c'). by right.
Qed.

Lemma findKing_unique bd c r cl :
  wfBoard bd → kingAt bd c r cl →
  (∀ r' c', kingAt bd c r' c' → r' = r ∧ c' = cl) →
  findKing bd c = Some (pos r cl).
Proof.
  intros Hwf Hk Huniq. pose proof (readSq_wf _ _ _ _ Hwf Hk) as Hin.
  apply inBounds_spec in Hin as [Hr Hc].
  destruct (findKingIn_first bd c allSquares r cl) as (r' & c' & Hf & Hk');
    [destruct Hwf; lia| |by apply allSquares_elem_of|done|].
  { intros r' c' H. by apply elem_of_allSquares in H as [? _]. }
  destruct (Huniq _ _ Hk') as [-> ->]. done.
Qed.

(** The board after a move, square by square: the piece is moved (or
    promoted), then the pawn taken en passant is removed, then the rook of a
    castling move is carried over. *)
Lemma applyMoveToBoard_steps bd m nb :
  applyMoveToBoard bd m = Some nb →
  ∃ (b2 b3 b4 : Board) v,
    movedPiece bd m = Some v
    ∧ (∀ r c, readSq b2 r c =
         if bool_decide (r = row (from m) ∧ c = col (from m)) then Some None
         else if bool_decide (r = row (to m) ∧ c = col (to m)) then Some v
         else readSq bd r c)
    ∧ (∀ r c, readSq b3 r c =
         if enPassant m && bool_decide (r = row (from m) ∧ c = col (to m))
         then Some None else readSq b2 r c)
    ∧ (castlingSide m = Some kingside →
       ∃ rook, readSq b3 (row (from m)) 7 = Some rook
         ∧ ∀ r c, readSq b4 r c =
             if bool_decide (r = row (from m) ∧ c = 7) then Some None
             else if bool_decide (r = row (from m) ∧ c = 5) then Some rook
             else readSq b3 r c)
    ∧ (castlingSide m ≠ Some kingside → ∀ r c, readSq b4 r c = readSq b3 r c)
    ∧ (castlingSide m = Some queenside →
       ∃ rook, readSq b4 (row (from m)) 0 = Some rook
         ∧ ∀ r c, readSq nb r c =
             if bool_decide (r = row (from m) ∧ c = 0) then Some None
             else if bool_decide (r = row (from m) ∧ c = 3) then Some rook
             else readSq b4 r c)
    ∧ (castlingSide m ≠ Some queenside → ∀ r c, readSq nb r c = readSq b4 r c).
Proof.
  unfold applyMoveToBoard. rewrite cloneBoard_id. fold (movedPiece bd m).
  intros (v & Hv & H)%bind_Some.
  apply bind_Some in H as (b1 & W1 & H).
  apply bind_Some in H as (b2 & W2 & H).
  apply bind_Some in H as (b3 & W3 & H).
  apply bind_Some in H as (b4 & W4 & H).
  apply bind_Some in H as (b5 & W5 & H).
  injection H as <-.
  exists b2, b3, b4, v. split; [done|]. split_and!.
  - intros r c. rewrite (readSq_writeSq _ _ _ _ _ _ _ W2).
    rewrite (readSq_writeSq _ _ _ _ _ _ _ W1). done.
  - intros r c. destruct (enPassant m); simpl.
    + by rewrite (readSq_writeSq _ _ _ _ _ _ _ W3).
    + by injection W3 as <-.
  - intros Hk. rewrite bool_decide_eq_true_2 in W4 by done.
    apply bind_Some in W4 as (rook & Hrook & W4).
    apply bind_Some in W4 as (b' & W4a & W4b).
    exists rook. split; [done|]. intros r c.
    rewrite (readSq_writeSq _ _ _ _ _ _ _ W4b).
    rewrite (readSq_writeSq _ _ _ _ _ _ _ W4a). done.
  - intros Hk. rewrite bool_decide_eq_false_2 in W4 by done.
    by injection W4 as <-.
  - intros Hq. rewrite bool_decide_eq_true_2 in W5 by done.
    apply bind_Some in W5 as (rook & Hrook & W5).
    apply bind_Some in W5 as (b' & W5a & W5b).
    exists rook. split; [done|]. intros r c.
    rewrite (readSq_writeSq _ _ _ _ _ _ _ W5b).
    rewrite (readSq_writeSq _ _ _ _ _ _ _ W5a). done.
  - intros Hq. rewrite bool_decide_eq_false_2 in W5 by done.
    by injection W5 as <-.
Qed.

Lemma oneKing_ext (bd bd' : Board) k :
  (∀ r c, readSq bd' r c = readSq bd r c) → oneKing bd k → oneKing bd' k.
Proof.
  intros Hrd (kr & kc & Hk & Huniq). exists kr, kc. unfold kingAt in *.
  split; [by rewrite Hrd|]. intros r' c'. rewrite Hrd. apply Huniq.
Qed.

(** Moving the content of one square onto another that does not hold the
    king, or replacing a piece that is not the king by another that is not
    the king, keeps the king unique. *)
Lemma oneKing_move (bd bd' : Board) k ar ac br bc v :
  (∀ r c, readSq bd' r c =
     if bool_decide (r = ar ∧ c = ac) then Some None
     else if bool_decide (r = br ∧ c = bc) then Some v
     else readSq bd r c) →
  ¬ (br = ar ∧ bc = ac) →
  ¬ kingAt bd k br bc →
  readSq bd ar ac = Some v
  ∨ (v ≠ Some {| type := King; color := k |} ∧ ¬ kingAt bd k ar ac) →
  oneKing bd k → oneKing bd' k.
Proof.
  intros Hrd Hne HB Hv (kr & kc & Hk & Huniq). unfold oneKing, kingAt in *.
  destruct (decide (kr = ar ∧ kc = ac)) as [[-> ->]|HA].
  - destruct Hv as [Hv|[_ Hv]]; [|done].
    rewrite Hk in Hv. injection Hv as <-.
    exists br, bc. split.
    + rewrite Hrd. rewrite bool_decide_eq_false_2 by done.
      by rewrite bool_decide_eq_true_2.
    + intros r' c'. rewrite Hrd. repeat case_bool_decide; try done.
      intros H'. destruct (Huniq _ _ H') as [-> ->]. by destruct H.
  - exists kr, kc. split.
    + rewrite Hrd. rewrite bool_decide_eq_false_2 by done.
      rewrite bool_decide_eq_false_2; [done|].
      intros [-> ->]. done.
    + intros r' c'. rewrite Hrd. repeat case_bool_decide; try done.
      * intros [= ->]. destruct Hv as [Hv|[Hv _]]; [|done].
        destruct (Huniq _ _ Hv) as [-> ->]. by destruct HA.
      * apply Huniq.
Qed.

Lemma oneKing_clear (bd bd' : Board) k ar ac :
  (∀ r c, readSq bd' r c =
     if bool_decide (r = ar ∧ c = ac) then Some None else readSq bd r c) →
  ¬ kingAt bd k ar ac →
  oneKing bd k → oneKing bd' k.
Proof.
  intros Hrd HA (kr & kc & Hk & Huniq). unfold oneKing, kingAt in *.
  exists kr, kc. split.
  - rewrite Hrd. rewrite bool_decide_eq_false_2; [done|].
    intros [-> ->]. done.
  - intros r' c'. rewrite Hrd. case_bool_decide; [done|]. apply Huniq.
Qed.

(** A generated move never ends on the square it starts from. *)
Lemma Geometry_to_ne s frm pc m :
  readSq (board s) (row frm) (col frm) = Some (Some pc) →
  Geometry s frm pc m →
  ¬ (row (to m) = row frm ∧ col (to m) = col frm).
Proof.
  intros Hpc Hgeo [Hr Hc].
  destruct Hgeo as [_ _ Hrow _ _ _
                   |dc _ Hdc Hdest _ _
                   |dr dc Hoff Hdest _ _ _
                   |dr dc n Hoff Hn Hdest _ _ _ _
                   |side _ _ Hdest Hempty _].
  - done.
  - rewrite Hdest in Hc. simpl in Hc. lia.
  - rewrite Hdest in Hr, Hc. simpl in Hr, Hc.
    assert (dr = 0 ∧ dc = 0) as [-> ->] by lia.
    unfold stepOffsets, knightOffsets, kingOffsets in Hoff.
    destruct (type pc);
      repeat (apply elem_of_cons in Hoff as [[=]|Hoff]);
      by apply elem_of_nil in Hoff.
  - rewrite Hdest in Hr, Hc. simpl in Hr, Hc.
    destruct (slideDirs_attack _ _ _ Hoff) as [Hunit _].
    unfold unitDir in Hunit. nia.
  - rewrite Hdest in Hc. simpl in Hc.
    specialize (Hempty _ (castleCol_between side)).
    rewrite Hc in Hempty. congruence.
Qed.

Lemma Geometry_castle s frm pc m side :
  Geometry s frm pc m → castlingSide m = Some side →
  ∀ c, c ∈ between side → readSq (board s) (row frm) c = Some None.
Proof.
  intros Hgeo Hside. destruct Hgeo as [| | | |side' _ Hs _ Hempty _];
    try congruence.
  rewrite Hs in Hside. by injection Hside as ->.
Qed.

Lemma Position_eta (p : Position) : pos (row p) (col p) = p.
Proof. by destruct p. Qed.

Lemma opposite_opposite c : opposite (opposite c) = c.
Proof. by destruct c. Qed.

Lemma opposite_ne c k : k ≠ c → k = opposite c.
Proof. destruct c, k; done. Qed.

(** No pseudo-legal move of a sound state ends on a king's square. *)
Lemma no_king_capture s frm pc m k :
  Sound s → Inv s →
  readSq (board s) (row frm) (col frm) = Some (Some pc) →
  color pc = turn s →
  RawMove s frm pc m → Geometry s frm pc m →
  ¬ kingAt (board s) k (row (to m)) (col (to m)).
Proof.
  intros [Hwf Hkings _ Hquiet] [Hep _] Hpc Hturn Hraw Hgeo Hk.
  pose proof (RawMove_cols _ _ _ _ Hwf Hpc Hraw) as [Hfrom Hto].
  rewrite (RawMove_from _ _ _ _ Hraw) in Hfrom.
  assert (enPassant m = false ∧ k ≠ color pc) as [Hnep Hcol].
  { unfold kingAt in Hk.
    destruct Hraw as [dest sq ? ? ? ?|dest sq pr ? ? ? ? ? ? ?
                     |dest sq cap _ Het _ _ _ _ _|side sq ? ? ?];
      simpl in *; try (split; [done|]).
    3:{ specialize (Hep _ Het). congruence. }
    all: destruct Hgeo as [_ _ _ Hnone _ _
                          |dc _ _ _ Hocc _
                          |dr dc _ _ Hown _ _
                          |dr dc n _ _ _ _ Hown _ _
                          |side' _ Hs Hdest Hempty _];
      simpl in *; try congruence.
    all: try (destruct (Hocc eq_refl) as (o & Ho & Hne);
              rewrite Hk in Ho; injection Ho as <-; by intros ->).
    all: try (intros ->; by apply (Hown _ Hk)).
    all: injection Hs as <-;
         specialize (Hempty _ (castleCol_between side)); congruence. }
  pose proof (Geometry_attack s frm pc m _ ltac:(destruct Hwf; lia)
                Hpc Hfrom Hto Hgeo Hk) as Hatt.
  destruct (Hkings k) as (kr & kc & Hk' & Huniq).
  destruct (Huniq _ _ Hk) as [<- <-].
  pose proof (findKing_unique _ _ _ _ Hwf Hk Huniq) as Hfind.
  rewrite Position_eta in Hfind.
  apply opposite_ne in Hcol. rewrite Hturn in Hcol. subst k.
  unfold isInCheck in Hquiet. rewrite Hfind in Hquiet. simpl in Hquiet.
  rewrite opposite_opposite, <- Hturn in Hquiet. congruence.
Qed.

Lemma RawMove_promotion_pawn s frm pc m pr :
  RawMove s frm pc m → promotion m = Some pr → type pc = Pawn.
Proof. destruct 1; simpl; intros [=]; done. Qed.

Lemma RawMove_enPassant s frm pc m :
  RawMove s frm pc m → enPassant m = true →
  type pc = Pawn ∧ enPassantTarget s = Some (to m)
  ∧ row (to m) = row frm + pawnDir (color pc)
  ∧ col (to m) ≠ col frm.
Proof. destruct 1; simpl; intros [=]; done. Qed.

Lemma RawMove_castle s frm pc m side :
  RawMove s frm pc m → castlingSide m = Some side →
  to m = pos (row frm) (castleCol side) ∧ enPassant m = false.
Proof. destruct 1; simpl; intros [=]; subst; done. Qed.

Lemma pawnDir_opposite c : pawnDir (opposite c) = - pawnDir c.
Proof. by destruct c. Qed.

Lemma Sound_initial : Sound createInitialState.
Proof.
  split.
  - apply wfBoard_initial.
  - intros c.
    exists (match c with White => 7 | Black => 0 end), 4.
    split; [by destruct c|].
    intros r cl H. unfold kingAt, readSq, rowAt in H. simpl in H.
    destruct (0 <=? r) eqn:Hr; [|done]. apply Z.leb_le in Hr.
    destruct (0 <=? cl) eqn:Hc.
    2:{ destruct (_ !! Z.to_nat r); done. }
    apply Z.leb_le in Hc.
    destruct (Z.to_nat r) as [|[|[|[|[|[|[|[|]]]]]]]] eqn:Er; simpl in H;
      try done;
      destruct (Z.to_nat cl) as [|[|[|[|[|[|[|[|]]]]]]]] eqn:Ec; simpl in H;
      try done; injection H as <-; lia.
  - done.
  - vm_compute. reflexivity.
Qed.

Lemma Sound_makeMove s frm legal m s' :
  Sound s → Inv s →
  getLegalMoves s frm = Some legal → m ∈ legal →
  makeMove s m = Some s' → Sound s'.
Proof.
  intros HS HI Hlegal Hm Hmk.
  destruct (getLegalMoves_elem_of _ _ _ _ Hlegal Hm)
    as (raw & Hraw & Hin & Hsafe).
  destruct (getRawMoves_sound _ _ _ _ Hraw Hin) as (pc & Hpc & Hturn & Hshape).
  destruct (getRawMoves_geometry _ _ _ _ Hraw Hin) as (pc' & Hpc' & _ & Hgeo).
  rewrite Hpc in Hpc'. injection Hpc' as <-.
  pose proof (RawMove_from _ _ _ _ Hshape) as Hfrom.
  pose proof (RawMove_piece _ _ _ _ Hshape) as Hpiece.
  pose proof (makeMove_wf _ _ _ _ _ (snd_shape _ HS) Hlegal Hm Hmk) as Hwf'.
  apply makeMove_fields in Hmk as (Hnb & Ht & _ & Hnep & _).
  split; [done| | |].
  - (* one king of each colour *)
    intros k.
    destruct (applyMoveToBoard_steps _ _ _ Hnb)
      as (b2 & b3 & b4 & v & Hv & R2 & R3 & R4k & R4n & R5q & R5n).
    rewrite Hfrom in *.
    assert (oneKing b2 k) as K2.
    { apply (oneKing_move (board s) b2 k _ _ _ _ v R2).
      - by apply (Geometry_to_ne s frm pc m).
      - by apply (no_king_capture s frm pc m).
      - unfold movedPiece in Hv. rewrite Hfrom in Hv.
        destruct (promotion m) as [pr|] eqn:Epr; [|by left].
        right. injection Hv as <-. split.
        + apply (RawMove_promotion _ _ _ _ _ Hshape) in Epr.
          intros [= -> _]. unfold promotionPieces in Epr.
          repeat (apply elem_of_cons in Epr as [Epr|Epr]; [done|]).
          by apply elem_of_nil in Epr.
        + apply (RawMove_promotion_pawn _ _ _ _ _ Hshape) in Epr.
          unfold kingAt. rewrite Hpc. intros [= ->]. done.
      - apply HS. }
    assert (oneKing b3 k) as K3.
    { destruct (enPassant m) eqn:Eep.
      - destruct (RawMove_enPassant _ _ _ _ Hshape Eep)
          as (Hp & Het & Hrow & Hcol).
        apply (oneKing_clear b2 b3 k _ _ R3); [|done].
        unfold kingAt. rewrite R2.
        pose proof (pawnDir_unit (color pc)).
        rewrite !bool_decide_eq_false_2 by lia.
        pose proof (snd_ep _ HS _ Het) as Hpawn.
        rewrite <- Hturn, Hrow in Hpawn.
        replace (row frm + pawnDir (color pc) - pawnDir (color pc))
          with (row frm) in Hpawn by lia.
        rewrite Hpawn. done.
      - by apply (oneKing_ext b2 b3 k R3). }
    assert (oneKing b4 k) as K4.
    { destruct (decide (castlingSide m = Some kingside)) as [Hk|Hk].
      - destruct (R4k Hk) as (rook & Hrook & R4).
        destruct (RawMove_castle _ _ _ _ _ Hshape Hk) as [Hto Hep].
        apply (oneKing_move b3 b4 k _ _ _ _ rook R4); try done; [lia| |by left].
        unfold kingAt. rewrite R3, Hep, R2. simpl.
        repeat case_bool_decide; try done.
        + rewrite Hto in *. simpl in *. lia.
        + rewrite (Geometry_castle _ _ _ _ _ Hgeo Hk); [done|].
          repeat constructor.
      - by apply (oneKing_ext b3 b4 k (R4n Hk)). }
    destruct (decide (castlingSide m = Some queenside)) as [Hq|Hq].
    + destruct (R5q Hq) as (rook & Hrook & R5).
      destruct (RawMove_castle _ _ _ _ _ Hshape Hq) as [Hto Hep].
      apply (oneKing_move b4 (board s') k _ _ _ _ rook R5); try done;
        [lia| |by left].
      unfold kingAt. rewrite R4n by congruence. rewrite R3, Hep, R2. simpl.
      repeat case_bool_decide; try done.
      * rewrite Hto in *. simpl in *. lia.
      * rewrite (Geometry_castle _ _ _ _ _ Hgeo Hq); [done|].
        repeat constructor.
    + by apply (oneKing_ext b4 (board s') k (R5n Hq)).
  - (* the pawn behind the en-passant target *)
    intros e. rewrite Hnep. unfold newEnPassant.
    destruct (bool_decide (type (piece m) = Pawn)
              && (Z.abs (row (to m) - row (from m)) =? 2)) eqn:E; [|done].
    apply andb_true_iff in E as [Hp%bool_decide_eq_true Habs].
    rewrite Hpiece in Hp. intros [= <-]. simpl.
    rewrite Ht, opposite_opposite, pawnDir_opposite, <- Hturn.
    destruct (pawnDir_unit (color pc)).
    all: destruct Hshape as [dest sq Hin' Hsq Hpawn _| | |]; simpl in *;
      try lia; try congruence.
    all: destruct (Hpawn Hp) as [_ [(Hc & -> & [Hr|[Hr Hmid]])|(_ & _ & Hr)]];
      try lia.
    all: rewrite (applyMoveToBoard_simple (board s) (plain frm pc dest None)
                    (board s') _ _ eq_refl eq_refl Hnb); simpl.
    all: replace ((row frm + row dest) / 2) with (row frm + pawnDir (color pc))
      by (rewrite Hr; apply Z.div_unique with 0; lia).
    all: rewrite bool_decide_eq_false_2 by lia.
    all: rewrite bool_decide_eq_true_2 by lia.
    all: unfold movedPiece; simpl; rewrite Hpc; do 2 f_equal.
    all: rewrite (Piece_eta pc); by rewrite Hp.
  - (* the side that has moved is not in check *)
    unfold leavesKingSafe in Hsafe. rewrite Hnb in Hsafe. simpl in Hsafe.
    rewrite Ht, opposite_opposite.
    destruct (isInCheck (board s') (turn s)) as [[]|]; done.
Qed.

Lemma Reachable_Sound s : Reachable s → Sound s.
Proof.
  induction 1 as [|s frm legal m s' Hs IH Hlegal Hm Hmk];
    [apply Sound_initial|].
  eapply Sound_makeMove; try done. by apply Reachable_Inv.
Qed.

(** ** Replaying any stored list yields a state of legal play *)

Lemma getLegalMovesAt_total s e :
  Reachable s → rowOnBoard e →
  ∃ legal, Client.getLegalMovesAt s (Wire.from e) = Some legal
    ∧ ∀ l, l ∈ legal →
        ∃ frm legal', getLegalMoves s frm = Some legal' ∧ l ∈ legal'.
Proof.
  intros Hs (r & Hr & Hrange). unfold Client.getLegalMovesAt. rewrite Hr.
  pose proof (Reachable_rows s Hs) as Hrows.
  destruct (Num.toZ (Wire.col (Wire.from e))) as [c|].
  - destruct (getLegalMoves_total s (pos r c)) as [legal Hlegal];
      [lia|done|].
    exists legal. split; [done|]. intros l Hl. by exists (pos r c), legal.
  - destruct (rowAt_is_Some (board s) r) as [rw ->]; [lia|done|].
    exists []. split; [done|]. by intros l Hl%elem_of_nil.
Qed.

Lemma replayStep_reachable s e :
  Reachable s → rowOnBoard e →
  ∃ s', Client.replayStep (Some s) e = Some s' ∧ Reachable s'.
Proof.
  intros Hs He. unfold Client.replayStep, Client.findLegal.
  cbn [mbind option_bind].
  destruct (getLegalMovesAt_total s e Hs He) as (legal & -> & Hlegal).
  cbn [mbind option_bind].
  destruct (List.find _ legal) as [l|] eqn:Ef; [|by exists s].
  apply List.find_some in Ef as [Hl%list_elem_of_In _].
  destruct (Hlegal l Hl) as (frm & legal' & Hfrm & Hl').
  by eapply Reachable_step.
Qed.

Lemma replayMoves_reachable es :
  Forall rowOnBoard es →
  ∃ s, Client.replayMoves es = Some s ∧ Reachable s.
Proof.
  induction es as [|e es IH] using rev_ind; intros Hes.
  - exists createInitialState. split; [done|apply reach_init].
  - apply Forall_app in Hes as [Hes He%Forall_inv].
    destruct (IH Hes) as (s & Hs & Hr).
    rewrite replayMoves_snoc, Hs.
    apply replayStep_reachable; [exact Hr|exact He].
Qed.

Lemma rowOnBoard_entry fr fc tr tc :
  0 ≤ fr < 8 → rowOnBoard (entry fr fc tr tc).
Proof. intros H. exists fr. split; [apply toZ_ofZ|done]. Qed.

Lemma pawnsMeet_reachable : Reachable pawnsMeet.
Proof.
  destruct (replayMoves_reachable pawnsMeetEntries) as (s & Hs & Hr).
  { repeat (constructor; [apply rowOnBoard_entry; lia|]). constructor. }
  vm_compute in Hs. injection Hs as <-. exact Hr.
Qed.

(** ** Kings, checks and captures in states of legal play *)

(** X4: every state reached by legal play has exactly one king of each
    colour, standing inside the board, and [findKing] returns its square. *)
Theorem reachable_one_king s c :
  Reachable s →
  ∃ r cl,
    inBounds r cl = true
    ∧ readSq (board s) r cl = Some (Some {| type := King; color := c |})
    ∧ findKing (board s) c = Some (pos r cl)
    ∧ ∀ r' c', readSq (board s) r' c'
               = Some (Some {| type := King; color := c |}) →
               r' = r ∧ c' = cl.
Proof.
  intros [Hwf Hkings _ _]%Reachable_Sound.
  destruct (Hkings c) as (r & cl & Hk & Huniq). exists r, cl.
  split_and!; try done.
  - by eapply readSq_wf.
  - by apply findKing_unique.
Qed.

Lemma reachable_one_king_witness :
  ∃ r cl,
    inBounds r cl = true
    ∧ readSq (board foolsMateFinal) r cl
      = Some (Some {| type := King; color := White |})
    ∧ findKing (board foolsMateFinal) White = Some (pos r cl)
    ∧ ∀ r' c', readSq (board foolsMateFinal) r' c'
               = Some (Some {| type := King; color := White |}) →
               r' = r ∧ c' = cl.
Proof. exact (reachable_one_king _ White foolsMate_reachable). Defined.

(** X5: in every state reached by legal play the side that has just moved
    is not in check. *)
Theorem reachable_mover_not_in_check s :
  Reachable s → isInCheck (board s) (opposite (turn s)) = Some false.
Proof. by intros []%Reachable_Sound. Qed.

Lemma reachable_mover_not_in_check_witness :
  isInCheck (board foolsMateFinal) (opposite (turn foolsMateFinal))
  = Some false.
Proof. exact (reachable_mover_not_in_check _ foolsMate_reachable). Defined.

(** X6: on an 8×8 board, whenever [getRawMoves] produces a move onto an
    occupied square, [isSquareAttacked] reports that square as attacked by
    the side to move. *)
Theorem capture_is_attack s frm raw m x :
  wfBoard (board s) →
  getRawMoves s frm = Some raw → m ∈ raw →
  readSq (board s) (row (to m)) (col (to m)) = Some (Some x) →
  isSquareAttacked (board s) (to m) (turn s) = Some true.
Proof.
  intros Hwf Hraw Hin Hx.
  destruct (getRawMoves_sound _ _ _ _ Hraw Hin) as (pc & Hpc & Hturn & Hshape).
  destruct (getRawMoves_geometry _ _ _ _ Hraw Hin) as (pc' & Hpc' & _ & Hgeo).
  rewrite Hpc in Hpc'. injection Hpc' as <-.
  destruct (RawMove_cols _ _ _ _ Hwf Hpc Hshape) as [Hf Ht].
  rewrite (RawMove_from _ _ _ _ Hshape) in Hf.
  rewrite <- Hturn. eapply Geometry_attack; try done.
  destruct Hwf. lia.
Qed.

Lemma capture_is_attack_witness :
  isSquareAttacked (board pawnsMeet) (pos 3 3) White = Some true.
Proof.
  eapply (capture_is_attack pawnsMeet (pos 4 4) _ pawnTakes
           {| type := Pawn; color := Black |}).
  - split; [reflexivity|]. repeat constructor.
  - vm_compute. reflexivity.
  - right. left.
  - vm_compute. reflexivity.
Defined.

Lemma Geometry_notOwn s frm pc m :
  Geometry s frm pc m → enPassant m = false → notOwn s pc (to m).
Proof.
  intros Hgeo Hep o Ho.
  destruct Hgeo as [_ _ _ Hnone _ _
                   |dc _ _ _ Hocc _
                   |dr dc _ _ Hown _ _
                   |dr dc n _ _ _ _ Hown _ _
                   |side _ _ Hdest Hempty _].
  - congruence.
  - destruct (Hocc Hep) as (o' & Ho' & Hne). congruence.
  - by apply Hown.
  - by apply Hown.
  - rewrite Hdest in Ho. simpl in Ho.
    rewrite (Hempty _ (castleCol_between side)) in Ho. done.
Qed.

(** X7: in a state reached by legal play, the piece a legal move records
    as captured is a piece of the opponent, and never a king. *)
Theorem legal_capture_enemy_piece s frm legal m x :
  Reachable s → getLegalMoves s frm = Some legal → m ∈ legal →
  captured m = Some x →
  color x = opposite (turn s) ∧ type x ≠ King.
Proof.
  intros Hs Hlegal Hm Hcap.
  pose proof (Reachable_Sound s Hs) as HS.
  pose proof (Reachable_Inv s Hs) as HI.
  destruct (getLegalMoves_elem_of _ _ _ _ Hlegal Hm) as (raw & Hraw & Hin & _).
  destruct (getRawMoves_sound _ _ _ _ Hraw Hin) as (pc & Hpc & Hturn & Hshape).
  destruct (getRawMoves_geometry _ _ _ _ Hraw Hin) as (pc' & Hpc' & _ & Hgeo).
  rewrite Hpc in Hpc'. injection Hpc' as <-.
  destruct (decide (enPassant m = true)) as [Hep|Hep%not_true_is_false].
  - destruct (RawMove_enPassant _ _ _ _ Hshape Hep) as (_ & Het & Hrow & _).
    pose proof (snd_ep _ HS _ Het) as Hpawn.
    rewrite <- Hturn, Hrow in Hpawn.
    replace (row frm + pawnDir (color pc) - pawnDir (color pc))
      with (row frm) in Hpawn by lia.
    destruct Hshape; simpl in *; try done.
    subst cap. rewrite Hpawn in *. simplify_eq. by rewrite <- Hturn.
  - assert (readSq (board s) (row (to m)) (col (to m)) = Some (Some x)) as Hx.
    { destruct Hshape; simpl in *; congruence. }
    pose proof (Geometry_notOwn _ _ _ _ Hgeo Hep _ Hx) as Hown.
    split.
    + apply opposite_ne. congruence.
    + intros Hk.
      apply (no_king_capture s frm pc m (color x) HS HI Hpc Hturn Hshape Hgeo).
      unfold kingAt. rewrite Hx, (Piece_eta x), Hk. done.
Qed.

Lemma legal_capture_enemy_piece_witness :
  ∃ legal,
    getLegalMoves pawnsMeet (pos 4 4) = Some legal ∧ pawnTakes ∈ legal
    ∧ color {| type := Pawn; color := Black |} = opposite (turn pawnsMeet)
    ∧ type {| type := Pawn; color := Black |} ≠ King.
Proof.
  eexists. split; [vm_compute; reflexivity|].
  split; [right; left|].
  eapply (legal_capture_enemy_piece pawnsMeet (pos 4 4) _ pawnTakes).
  - apply pawnsMeet_reachable.
  - vm_compute. reflexivity.
  - right. left.
  - reflexivity.
Defined.

(** X8: on an 8×8 board a legal move starts on the requested square with
    the piece standing there, ends on a different square inside the board,
    and promotes only a pawn reaching the far row, to queen, rook, bishop or
    knight. *)
Theorem legal_move_endpoints s frm legal m :
  wfBoard (board s) →
  getLegalMoves s frm = Some legal → m ∈ legal →
  from m = frm
  ∧ readSq (board s) (row frm) (col frm) = Some (Some (piece m))
  ∧ inBounds (row frm) (col frm) = true
  ∧ inBounds (row (to m)) (col (to m)) = true
  ∧ to m ≠ from m
  ∧ ∀ pr, promotion m = Some pr →
          pr ∈ promotionPieces ∧ type (piece m) = Pawn
          ∧ row (to m) = promoRow (turn s).
Proof.
  intros Hwf Hlegal Hm.
  destruct (getLegalMoves_elem_of _ _ _ _ Hlegal Hm) as (raw & Hraw & Hin & _).
  destruct (getRawMoves_sound _ _ _ _ Hraw Hin) as (pc & Hpc & Hturn & Hshape).
  destruct (getRawMoves_geometry _ _ _ _ Hraw Hin) as (pc' & Hpc' & _ & Hgeo).
  rewrite Hpc in Hpc'. injection Hpc' as <-.
  pose proof (RawMove_from _ _ _ _ Hshape) as Hfrom.
  pose proof (RawMove_piece _ _ _ _ Hshape) as Hpiece.
  destruct (RawMove_cols _ _ _ _ Hwf Hpc Hshape) as [Hf Ht].
  rewrite Hfrom in Hf. rewrite Hfrom, Hpiece. split_and!; try done.
  - intros Heq. apply (Geometry_to_ne _ _ _ _ Hpc Hgeo). by rewrite Heq.
  - intros pr Hpr. split; [by eapply RawMove_promotion|].
    split; [by eapply RawMove_promotion_pawn|].
    rewrite <- Hturn. destruct Hshape; simpl in *; try done.
Qed.

Lemma legal_move_endpoints_witness :
  ∃ legal,
    getLegalMoves pawnsMeet (pos 4 4) = Some legal ∧ pawnTakes ∈ legal
    ∧ from pawnTakes = pos 4 4
    ∧ readSq (board pawnsMeet) 4 4 = Some (Some (piece pawnTakes))
    ∧ inBounds 4 4 = true
    ∧ inBounds (row (to pawnTakes)) (col (to pawnTakes)) = true
    ∧ to pawnTakes ≠ from pawnTakes
    ∧ ∀ pr, promotion pawnTakes = Some pr →
            pr ∈ promotionPieces ∧ type (piece pawnTakes) = Pawn
            ∧ row (to pawnTakes) = promoRow (turn pawnsMeet).
Proof.
  eexists. split; [vm_compute; reflexivity|].
  split; [right; left|].
  eapply (legal_move_endpoints pawnsMeet (pos 4 4) _ pawnTakes).
  - split; [reflexivity|]. repeat constructor.
  - vm_compute. reflexivity.
  - right. left.
Defined.

(** X9: in a state reached by legal play an en-passant target square is
    empty, and right behind it stands a pawn of the side that has just
    moved. *)
Theorem reachable_en_passant_target s e :
  Reachable s → enPassantTarget s = Some e →
  readSq (board s) (row e) (col e) = Some None
  ∧ readSq (board s) (row e - pawnDir (turn s)) (col e)
    = Some (Some {| type := Pawn; color := opposite (turn s) |}).
Proof.
  intros Hs He. split.
  - by apply (inv_ep _ (Reachable_Inv s Hs)).
  - by apply (snd_ep _ (Reachable_Sound s Hs)).
Qed.

Lemma reachable_en_passant_target_witness :
  readSq (board pawnsMeet) 2 3 = Some None
  ∧ readSq (board pawnsMeet) 3 3
    = Some (Some {| type := Pawn; color := Black |}).
Proof.
  exact (reachable_en_passant_target pawnsMeet (pos 2 3)
           pawnsMeet_reachable eq_refl).
Defined.

(** ** The status of a state of legal play *)

(** X10: in every state reached by legal play the status is determined by
    the position: active means the side to move has a legal move and the
    half-move clock is below 100; checkmate means it has none and is in check,
    the winner being the other side; stalemate means it has none and is not in
    check; draw means the clock has reached 100; resigned never occurs. *)
Theorem reachable_status s :
  Reachable s → ∃ all, getAllLegalMoves s = Some all ∧ statusMeans s all.
Proof.
  destruct 1 as [|s frm legal m s' Hs Hlegal Hm Hmk].
  - eexists. split; [vm_compute; reflexivity|].
    unfold statusMeans. simpl. split_and!; done.
  - apply makeMove_inv in Hmk as (nb & all & Hnb & Hall & Hcases).
    exists all. unfold statusMeans.
    destruct Hcases as [(-> & Hchk & ->)|[(-> & Hchk & ->)
                       |[(Hne & Hclk & ->)|(Hne & Hclk & ->)]]];
      rewrite ?getAllLegalMoves_withStatus; (split; [done|]); simpl;
      rewrite ?opposite_opposite; done.
Qed.

Lemma reachable_status_witness :
  ∃ all, getAllLegalMoves foolsMateFinal = Some all
         ∧ statusMeans foolsMateFinal all.
Proof. exact (reachable_status _ foolsMate_reachable). Defined.

(** ** Castling rights and the home squares *)

Lemma newCastling_stages cs m :
  newCastling cs m = captureStage m (rookStage m (kingStage m cs)).
Proof. reflexivity. Qed.

Lemma kingStage_kept cs m c side :
  hasRight (rightsOf (kingStage m cs) c) side = true →
  hasRight (rightsOf cs c) side = true
  ∧ ¬ (type (piece m) = King ∧ color (piece m) = c).
Proof.
  unfold kingStage. case_bool_decide as Hk; [|by intros; split; [|tauto]].
  destruct cs as [[wk wq] [bk bq]].
  destruct (color (piece m)) eqn:Ec, c, side; simpl; intros H;
    (split; [done|]); try done; intros [_ ?]; done.
Qed.

Lemma rookStage_kept cs m c side :
  hasRight (rightsOf (rookStage m cs) c) side = true →
  hasRight (rightsOf cs c) side = true
  ∧ ¬ (type (piece m) = Rook ∧ color (piece m) = c
       ∧ col (from m) = rookCol side).
Proof.
  unfold rookStage. case_bool_decide as Hr; [|by intros; split; [|tauto]].
  destruct cs as [[wk wq] [bk bq]].
  destruct (col (from m) =? 0) eqn:E0; destruct (col (from m) =? 7) eqn:E7;
    rewrite ?Z.eqb_eq, ?Z.eqb_neq in *;
    destruct (color (piece m)) eqn:Ec, c, side; simpl; intros H;
    (split; [done|]); try done; intros (_ & ? & ?); simpl in *;
    done || lia.
Qed.

Lemma captureStage_kept cs m c side :
  hasRight (rightsOf (captureStage m cs) c) side = true →
  hasRight (rightsOf cs c) side = true
  ∧ ¬ (isType (captured m) Rook = true
       ∧ row (to m) = homeRow c ∧ col (to m) = rookCol side).
Proof.
  unfold captureStage.
  destruct (isType (captured m) Rook); [|by intros; split; [|intros [? _]]].
  destruct cs as [[wk wq] [bk bq]].
  destruct (row (to m) =? 0) eqn:R0; destruct (row (to m) =? 7) eqn:R7;
    destruct (col (to m) =? 0) eqn:C0; destruct (col (to m) =? 7) eqn:C7;
    rewrite ?Z.eqb_eq, ?Z.eqb_neq in *; try lia;
    destruct c, side; simpl; intros H;
    (split; [done|]); try done; intros (_ & ? & ?); simpl in *; lia.
Qed.

(** What a right that survives [newCastling] tells about the move. *)
Lemma newCastling_kept cs m c side :
  hasRight (rightsOf (newCastling cs m) c) side = true →
  hasRight (rightsOf cs c) side = true
  ∧ ¬ (type (piece m) = King ∧ color (piece m) = c)
  ∧ ¬ (type (piece m) = Rook ∧ color (piece m) = c
       ∧ col (from m) = rookCol side)
  ∧ ¬ (isType (captured m) Rook = true
       ∧ row (to m) = homeRow c ∧ col (to m) = rookCol side).
Proof.
  rewrite newCastling_stages.
  intros [[[H ?]%kingStage_kept ?]%rookStage_kept ?]%captureStage_kept.
  done.
Qed.

Lemma AtHome_initial : AtHome createInitialState.
Proof. intros [] []; intros _; split; reflexivity. Qed.

Lemma RawMove_captured s frm pc m :
  RawMove s frm pc m → enPassant m = false →
  readSq (board s) (row (to m)) (col (to m)) = Some (captured m).
Proof. destruct 1; simpl; intros; done. Qed.

Lemma AtHome_makeMove s frm legal m s' :
  Sound s → Inv s → AtHome s →
  getLegalMoves s frm = Some legal → m ∈ legal →
  makeMove s m = Some s' → AtHome s'.
Proof.
  intros HS HI HH Hlegal Hm Hmk c side Hright.
  destruct (getLegalMoves_elem_of _ _ _ _ Hlegal Hm) as (raw & Hraw & Hin & _).
  destruct (getRawMoves_sound _ _ _ _ Hraw Hin) as (pc & Hpc & Hturn & Hshape).
  destruct (getRawMoves_geometry _ _ _ _ Hraw Hin) as (pc' & Hpc' & _ & Hgeo).
  rewrite Hpc in Hpc'. injection Hpc' as <-.
  pose proof (RawMove_from _ _ _ _ Hshape) as Hfrom.
  pose proof (RawMove_piece _ _ _ _ Hshape) as Hpiece.
  apply makeMove_fields in Hmk as (Hnb & _ & Hcs & _).
  rewrite Hcs in Hright.
  apply newCastling_kept in Hright as (Hold & HnK & HnR & HnC).
  rewrite Hpiece, Hfrom in *.
  destruct (HH c side Hold) as [Hking Hrook].
  (* the two home squares are not touched by the move *)
  assert (∀ r cl x,
            readSq (board s) r cl = Some (Some x) → r = homeRow c →
            (x = {| type := King; color := c |} ∧ cl = 4)
            ∨ (x = {| type := Rook; color := c |} ∧ cl = rookCol side) →
            readSq (board s') r cl = Some (Some x)) as Hkeep.
  { intros r cl x Hx Hr Hwhich.
    destruct (applyMoveToBoard_steps _ _ _ Hnb)
      as (b2 & b3 & b4 & v & Hv & R2 & R3 & R4k & R4n & R5q & R5n).
    rewrite Hfrom in *.
    assert (¬ (r = row frm ∧ cl = col frm)) as Hnf.
    { intros [-> ->]. rewrite Hpc in Hx. injection Hx as ->.
      destruct Hwhich as [[-> _]|[-> ?]]; simpl in *; [by apply HnK|].
      by apply HnR. }
    assert (¬ (r = row (to m) ∧ cl = col (to m))) as Hnt.
    { intros [-> ->].
      destruct (decide (enPassant m = true)) as [Hep|Hep%not_true_is_false].
      - destruct (RawMove_enPassant _ _ _ _ Hshape Hep) as (_ & Het & _).
        rewrite (inv_ep _ HI _ Het) in Hx. done.
      - destruct Hwhich as [[-> _]|[-> ?]].
        + by apply (no_king_capture s frm pc m c HS HI Hpc Hturn Hshape Hgeo).
        + apply HnC. rewrite (RawMove_captured _ _ _ _ Hshape Hep) in Hx.
          injection Hx as ->. done. }
    assert (readSq b2 r cl = Some (Some x)) as H2.
    { rewrite R2. by rewrite !bool_decide_eq_false_2. }
    assert (readSq b3 r cl = Some (Some x)) as H3.
    { rewrite R3. destruct (enPassant m) eqn:Hep; [|done]. simpl.
      case_bool_decide as Heq; [|done]. destruct Heq as [-> ->].
      destruct (RawMove_enPassant _ _ _ _ Hshape Hep) as (_ & Het & Hrow & _).
      pose proof (snd_ep _ HS _ Het) as Hpawn.
      rewrite <- Hturn, Hrow in Hpawn.
      replace (row frm + pawnDir (color pc) - pawnDir (color pc))
        with (row frm) in Hpawn by lia.
      rewrite Hpawn in Hx. injection Hx as <-.
      destruct Hwhich as [[? _]|[? _]]; done. }
    (* a castling move is made by the mover's king, on its own home row *)
    assert (∀ sd, castlingSide m = Some sd → r ≠ row frm) as Hrow.
    { intros sd Hsd Heq.
      destruct Hshape as [| | |sd' sq Hk Hrt Hsq]; simpl in Hsd; try done.
      rewrite <- Hturn in Hrt.
      destruct (HH (color pc) sd' Hrt) as [Hk' _].
      destruct (snd_kings _ HS (color pc)) as (kr & kc & _ & Huniq).
      destruct (Huniq _ _ Hk') as [<- <-].
      destruct (Huniq (row frm) (col frm)) as [Hr' _].
      { unfold kingAt. rewrite Hpc, (Piece_eta pc), Hk. done. }
      assert (c ≠ color pc).
      { intros ->. apply HnK. done. }
      rewrite Hr, Hr' in Heq.
      destruct c, (color pc); done. }
    assert (readSq b4 r cl = Some (Some x)) as H4.
    { destruct (decide (castlingSide m = Some kingside)) as [Hk|Hk].
      - destruct (R4k Hk) as (rook & _ & R4). rewrite R4.
        specialize (Hrow _ Hk).
        rewrite !bool_decide_eq_false_2 by tauto. done.
      - by rewrite R4n. }
    destruct (decide (castlingSide m = Some queenside)) as [Hq|Hq].
    - destruct (R5q Hq) as (rook & _ & R5). rewrite R5.
      specialize (Hrow _ Hq).
      rewrite !bool_decide_eq_false_2 by tauto. done.
    - by rewrite R5n. }
  split.
  - apply Hkeep; [done|done|by left].
  - apply Hkeep; [done|done|by right].
Qed.

Lemma Reachable_AtHome s : Reachable s → AtHome s.
Proof.
  induction 1 as [|s frm legal m s' Hs IH Hlegal Hm Hmk];
    [apply AtHome_initial|].
  eapply AtHome_makeMove; try done.
  - by apply Reachable_Sound.
  - by apply Reachable_Inv.
Qed.

(** X11: in every state reached by legal play, a side that still has a
    castling right has its king on the e-file square and the rook of that
    side on the corner square of its home row; so a castling move always
    finds the rook it carries over. *)
Theorem castling_right_means_home_squares s c side :
  Reachable s →
  hasRight (rightsOf (castling s) c) side = true →
  readSq (board s) (homeRow c) 4
  = Some (Some {| type := King; color := c |})
  ∧ readSq (board s) (homeRow c) (rookCol side)
    = Some (Some {| type := Rook; color := c |}).
Proof. intros Hs. by apply Reachable_AtHome. Qed.

Lemma castling_right_means_home_squares_witness :
  readSq (board pawnsMeet) 0 4
  = Some (Some {| type := King; color := Black |})
  ∧ readSq (board pawnsMeet) 0 0
    = Some (Some {| type := Rook; color := Black |}).
Proof.
  exact (castling_right_means_home_squares pawnsMeet Black queenside
           pawnsMeet_reachable eq_refl).
Defined.

(** ** What a call of the handler can do to the store *)

Section HandlerCases.
Import Server.

(** Either the request is refused and the stored games and profiles stay as
    they are, or it passes every check and the store is updated by
    [accept]. *)
Lemma submit_cases now uid bd st :
  (∃ code msg, (submit now uid bd st).1 = Failure code msg
               ∧ games (submit now uid bd st).2 = games st
               ∧ profiles (submit now uid bd st).2 = profiles st
               ∧ (code = 429 ∨ code = 400 ∨ code = 404 ∨ code = 403))
  ∨ (∃ game mv,
       PassesChecks now uid bd st game
       ∧ move bd = Some mv
       ∧ validateMoveStructure (move bd) = true
       ∧ submit now uid bd st
         = (Success (S (length (moves game))), accept now uid bd st game mv)).
Proof.
  destruct (checkRateLimit now uid (rateLimitMap st)) as [allowed rl] eqn:Hrl.
  destruct allowed.
  2:{ left. rewrite submit_rate_limited by by rewrite Hrl. eauto 10. }
  destruct (move bd) as [mv|] eqn:Hmv.
  2:{ left. unfold submit. rewrite Hrl, Hmv. simpl. eauto 10. }
  destruct (decide (gameId bd = EmptyString)) as [Hid|Hid].
  { left. unfold submit. rewrite Hrl, Hmv. simpl.
    rewrite bool_decide_eq_true_2 by done. eauto 10. }
  destruct (validateMoveStructure (move bd)) eqn:Hvalid.
  2:{ left. unfold submit. rewrite Hrl, Hmv. cbn [negb games withRate].
      rewrite bool_decide_eq_false_2 by done.
      rewrite Hmv in Hvalid. rewrite Hvalid. simpl. eauto 10. }
  destruct (games st !! gameId bd) as [game|] eqn:Hgame.
  2:{ left. unfold submit. rewrite Hrl, Hmv. cbn [negb games withRate].
      rewrite bool_decide_eq_false_2 by done.
      rewrite Hmv in Hvalid. rewrite Hvalid. cbn [negb]. rewrite Hgame.
      simpl. eauto 10. }
  destruct (bool_decide (white_player game ≠ uid)
            && bool_decide (black_player game ≠ uid)) eqn:Hpart.
  { left. unfold submit. rewrite Hrl, Hmv. cbn [negb games withRate].
    rewrite bool_decide_eq_false_2 by done.
    rewrite Hmv in Hvalid. rewrite Hvalid. cbn [negb]. rewrite Hgame, Hpart.
    simpl. eauto 10. }
  destruct (eqb (bool_decide (length (moves game) `mod` 2 = 0)%nat)
              (bool_decide (white_player game = uid))) eqn:Hturn.
  2:{ left. unfold submit. rewrite Hrl, Hmv. cbn [negb games withRate].
      rewrite bool_decide_eq_false_2 by done.
      rewrite Hmv in Hvalid. rewrite Hvalid. cbn [negb].
      rewrite Hgame, Hpart, Hturn. simpl. eauto 10. }
  destruct (decide (row_status game = "active"%string)) as [Hact|Hact].
  2:{ left. unfold submit. rewrite Hrl, Hmv. cbn [negb games withRate].
      rewrite bool_decide_eq_false_2 by done.
      rewrite Hmv in Hvalid. rewrite Hvalid. cbn [negb].
      rewrite Hgame, Hpart, Hturn. cbn [negb].
      rewrite bool_decide_eq_true_2 by done. simpl. eauto 10. }
  right. exists game, mv.
  assert (PassesChecks now uid bd st game) as Hp.
  { split; try done.
    - by rewrite Hrl.
    - apply andb_false_iff in Hpart as [H|H];
        apply bool_decide_eq_false in H; apply dec_stable in H; auto.
    - by apply eqb_prop. }
  split; [done|]. split; [done|]. split; [by rewrite <- Hmv|].
  rewrite (submit_passes now uid bd st game mv Hp Hmv Hvalid).
  cbv zeta. unfold accept, updatedRow. cbn [moves].
  rewrite length_app. cbn [length]. do 2 f_equal. lia.
Qed.

Lemma handler_cases now req st :
  (∃ code msg, (handler now req st).1 = Failure code msg
               ∧ games (handler now req st).2 = games st
               ∧ profiles (handler now req st).2 = profiles st)
  ∨ (∃ uid game mv,
       user req = Some uid
       ∧ PassesChecks now uid (body req) st game
       ∧ move (body req) = Some mv
       ∧ validateMoveStructure (move (body req)) = true
       ∧ handler now req st
         = (Success (S (length (moves game))),
            accept now uid (body req) st game mv)).
Proof.
  unfold handler. destruct (authorization req); simpl; [|by eauto 10].
  destruct (user req) as [uid|]; [|by eauto 10].
  destruct (submit_cases now uid (body req) st)
    as [(code & msg & ? & ? & ? & _)|(game & mv & ?)]; [by eauto 10|].
  right. exists uid, game, mv. tauto.
Qed.

(** X12: a request that the handler refuses, for whatever reason, leaves
    the stored games and profiles exactly as they were. *)
Theorem handler_failure_leaves_data now req st code msg :
  (handler now req st).1 = Failure code msg →
  games (handler now req st).2 = games st
  ∧ profiles (handler now req st).2 = profiles st.
Proof.
  intros Hfail.
  destruct (handler_cases now req st)
    as [(? & ? & _ & ? & ?)|(uid & game & mv & _ & _ & _ & _ & Heq)];
    [done|].
  rewrite Heq in Hfail. done.
Qed.

Lemma handler_failure_leaves_data_witness :
  games (handler 9 (authenticated alice nullBody) store1).2 = games store1
  ∧ profiles (handler 9 (authenticated alice nullBody) store1).2
    = profiles store1.
Proof.
  apply (handler_failure_leaves_data 9 (authenticated alice nullBody) store1
           400 "Not your turn").
  vm_compute. reflexivity.
Defined.

(** X13: a successful submission comes from a participant of an active
    game whose turn it is by the parity of the stored list; it appends exactly
    one entry to that game's list, answers with the new length, keeps the
    game's identity and players, and touches no other game. *)
Theorem handler_success_appends_one now req st n :
  (handler now req st).1 = Success n →
  ∃ uid game mv row',
    user req = Some uid
    ∧ move (body req) = Some mv
    ∧ games st !! gameId (body req) = Some game
    ∧ (white_player game = uid ∨ black_player game = uid)
    ∧ bool_decide (length (moves game) `mod` 2 = 0)%nat
      = bool_decide (white_player game = uid)
    ∧ row_status game = "active"%string
    ∧ n = S (length (moves game))
    ∧ games (handler now req st).2 = <[gameId (body req) := row']> (games st)
    ∧ moves row' = moves game ++ [entryOf now mv]
    ∧ id row' = id game
    ∧ white_player row' = white_player game
    ∧ black_player row' = black_player game.
Proof.
  intros Hok.
  destruct (handler_cases now req st)
    as [(? & ? & Hfail & _)|(uid & game & mv & Hu & Hp & Hmv & _ & Heq)];
    [congruence|].
  rewrite Heq in Hok |- *. injection Hok as <-.
  destruct Hp as [_ _ Hgame Hpart Hturn Hact].
  exists uid, game, mv. eexists. split_and!; try done.
Qed.

Lemma handler_success_appends_one_witness :
  ∃ uid game mv row',
    user (authenticated alice nullBody) = Some uid
    ∧ move (body (authenticated alice nullBody)) = Some mv
    ∧ games store0 !! gameId (body (authenticated alice nullBody)) = Some game
    ∧ (white_player game = uid ∨ black_player game = uid)
    ∧ bool_decide (length (moves game) `mod` 2 = 0)%nat
      = bool_decide (white_player game = uid)
    ∧ row_status game = "active"%string
    ∧ 1%nat = S (length (moves game))
    ∧ games (handler 5 (authenticated alice nullBody) store0).2
      = <[gameId (body (authenticated alice nullBody)) := row']> (games store0)
    ∧ moves row' = moves game ++ [entryOf 5 mv]
    ∧ id row' = id game
    ∧ white_player row' = white_player game
    ∧ black_player row' = black_player game.
Proof.
  apply (handler_success_appends_one 5 (authenticated alice nullBody) store0 1).
  vm_compute. reflexivity.
Defined.

(** X14: a game whose status is not "active" is never changed again,
    whatever request arrives. *)
Theorem completed_game_frozen now req st g game :
  games st !! g = Some game → row_status game ≠ "active"%string →
  games (handler now req st).2 !! g = Some game.
Proof.
  intros Hg Hst.
  destruct (handler_cases now req st)
    as [(? & ? & _ & -> & _)|(uid & game' & mv & _ & Hp & _ & _ & Heq)];
    [done|].
  rewrite Heq. cbn [snd accept games].
  destruct Hp as [_ _ Hgame _ _ Hact].
  destruct (decide (gameId (body req) = g)) as [<-|Hne].
  - rewrite Hg in Hgame. injection Hgame as <-. done.
  - by rewrite lookup_insert_ne.
Qed.

Lemma completed_game_frozen_witness :
  ∃ game, games store2 !! "g1"%string = Some game
    ∧ row_status game = "completed"%string
    ∧ games (handler 9 (authenticated bob nullBody) store2).2 !! "g1"%string
      = Some game.
Proof.
  eexists. split; [vm_compute; reflexivity|]. split; [reflexivity|].
  apply completed_game_frozen; [vm_compute; reflexivity|discriminate].
Defined.

(** X15: a submission made out of turn is refused with "Not your turn" and
    changes neither games nor profiles, also when it carries a game-end claim
    such as a resignation or a timeout. *)
Theorem claim_out_of_turn_rejected now uid bd st game :
  (checkRateLimit now uid (rateLimitMap st)).1 = true →
  gameId bd ≠ EmptyString →
  validateMoveStructure (move bd) = true →
  games st !! gameId bd = Some game →
  white_player game = uid ∨ black_player game = uid →
  bool_decide (length (moves game) `mod` 2 = 0)%nat
  ≠ bool_decide (white_player game = uid) →
  (handler now (authenticated uid bd) st).1 = Failure 400 "Not your turn"
  ∧ games (handler now (authenticated uid bd) st).2 = games st
  ∧ profiles (handler now (authenticated uid bd) st).2 = profiles st.
Proof.
  change (handler now (authenticated uid bd) st) with (submit now uid bd st).
  intros Hrate Hid Hvalid Hgame Hpart Hturn. unfold submit.
  destruct (checkRateLimit now uid (rateLimitMap st)) as [allowed rl].
  simpl in Hrate. subst allowed. cbn [negb games withRate].
  destruct (move bd) as [mv|] eqn:Hmv; [|done].
  rewrite (bool_decide_eq_false_2 _ Hid), Hvalid. cbn [negb].
  rewrite Hgame.
  assert (bool_decide (white_player game ≠ uid)
          && bool_decide (black_player game ≠ uid) = false) as ->.
  { destruct Hpart as [<-|<-].
    - by rewrite (bool_decide_eq_false_2 (_ ≠ _)) by (by intros ?).
    - rewrite (bool_decide_eq_false_2 (black_player game ≠ _))
        by (by intros ?).
      by rewrite andb_false_r. }
  destruct (eqb _ _) eqn:E; [by apply eqb_prop in E|]. done.
Qed.

Lemma claim_out_of_turn_rejected_witness :
  (handler 5 (authenticated bob resignBody) store0).1
  = Failure 400 "Not your turn"
  ∧ games (handler 5 (authenticated bob resignBody) store0).2 = games store0
  ∧ profiles (handler 5 (authenticated bob resignBody) store0).2
    = profiles store0.
Proof.
  apply (claim_out_of_turn_rejected 5 bob resignBody store0 freshGame).
  - reflexivity.
  - discriminate.
  - reflexivity.
  - reflexivity.
  - by right.
  - vm_compute. discriminate.
Defined.
End HandlerCases.

Section HandlerInvariants.
Import Server.

(** ** Invariants of the store *)

Lemma ltb_false x y : Num.ltb x y = false ↔ (y <= x)%Q.
Proof. unfold Num.ltb. by rewrite negb_false_iff, Qle_bool_iff. Qed.

Lemma coordOk_range p :
  coordOk p = true →
  inRange (Wire.row (reqPos (Some p))) ∧ inRange (Wire.col (reqPos (Some p))).
Proof.
  unfold coordOk, reqPos, coord, inRange.
  destruct p as [[r|] [c|]]; simpl; try done.
  intros H%negb_true_iff.
  apply orb_false_iff in H as [H Hc7%ltb_false].
  apply orb_false_iff in H as [H Hc0%ltb_false].
  apply orb_false_iff in H as [Hr0%ltb_false Hr7%ltb_false]. done.
Qed.

Lemma validate_admitted now mv :
  validateMoveStructure (Some mv) = true → admitted (entryOf now mv).
Proof.
  unfold validateMoveStructure, admitted, entryOf. simpl.
  destruct (rfrom mv) as [f|]; [|done]. destruct (rto mv) as [t|]; [|done].
  intros [[Hf%coordOk_range Ht%coordOk_range]%andb_true_iff Hp]%andb_true_iff.
  destruct Hf as [? ?], Ht as [? ?]. split_and!; try done.
  destruct (rpromotion mv) as [pr|]; [|done].
  case_bool_decide; [done|]. by apply bool_decide_eq_true in Hp.
Qed.

(** X16: the handler keeps the stored games within what
    [validateMoveStructure] admits: every coordinate of every stored entry
    is a number from 0 to 7, an integer or not, every promotion code is
    among q, r, b, n (or there is none), and both clocks stay
    non-negative. *)
Theorem handler_keeps_games_ok now req st :
  gamesOk st → gamesOk (handler now req st).2.
Proof.
  intros Hok.
  destruct (handler_cases now req st)
    as [(? & ? & _ & Hg & _)|(uid & game & mv & _ & Hp & Hmv & Hvalid & Heq)].
  { unfold gamesOk. by rewrite Hg. }
  rewrite Heq. cbn [snd]. intros g rw. unfold accept. cbn [games].
  destruct Hp as [_ _ Hgame _ _ _].
  destruct (decide (gameId (body req) = g)) as [<-|Hne].
  2:{ rewrite lookup_insert_ne by done. apply Hok. }
  rewrite lookup_insert_eq. intros [= <-].
  destruct (Hok _ _ Hgame) as (Hmoves & Hw & Hb).
  unfold updatedRow. cbn [moves time_white time_black]. split_and!.
  - apply Forall_app. split; [done|]. apply Forall_singleton.
    apply validate_admitted. by rewrite <- Hmv.
  - destruct (timeRemaining (body req)); simpl; [|done].
    destruct (bool_decide _); lia.
  - destruct (timeRemaining (body req)); simpl; [|done].
    destruct (bool_decide _); lia.
Qed.

Lemma store0_gamesOk : gamesOk store0.
Proof.
  intros g rw H. unfold store0 in H. cbn [games] in H.
  apply lookup_singleton_Some in H as [_ <-].
  split; [constructor|]. done.
Qed.

Lemma handler_keeps_games_ok_witness :
  gamesOk (handler 5 (authenticated alice halfRowBody) store0).2.
Proof. exact (handler_keeps_games_ok _ _ _ store0_gamesOk). Defined.

(** The handler accepts the descriptor of [halfRowBody] and stores it as it
    is; its origin is no square of the board, and [replayMoves] faults on
    the stored list. *)
Lemma half_row_is_stored :
  (handler 5 (authenticated alice halfRowBody) store0).1 = Success 1
  ∧ ∃ rw e,
      games (handler 5 (authenticated alice halfRowBody) store0).2
        !! "g1"%string = Some rw
      ∧ moves rw = [e]
      ∧ Wire.row (Wire.from e) = 6.5%Q
      ∧ squareOf (Wire.from e) = None
      ∧ Client.replayMoves (moves rw) = None.
Proof.
  split; [vm_compute; reflexivity|].
  eexists _, _. split; [vm_compute; reflexivity|].
  cbn [moves]. split; [reflexivity|]. split; [reflexivity|].
  split; vm_compute; reflexivity.
Qed.

Lemma updateProfile_stats game ge pid ps :
  (∀ u p, ps !! u = Some p → games_played p = wins p + losses p + draws p) →
  ∀ u p, updateProfile game ge pid ps !! u = Some p →
         games_played p = wins p + losses p + draws p.
Proof.
  intros Hok u p. unfold updateProfile.
  destruct (ps !! pid) as [prof|] eqn:E; [|apply Hok].
  destruct (decide (pid = u)) as [<-|Hne].
  2:{ rewrite lookup_insert_ne by done. apply Hok. }
  rewrite lookup_insert_eq. intros [= <-]. simpl.
  specialize (Hok _ _ E).
  destruct (bool_decide (ge_result ge = Some "draw"%string)) eqn:Ed.
  - apply bool_decide_eq_true in Ed. rewrite Ed.
    rewrite !(bool_decide_eq_false_2 (Some "draw"%string = _)) by done.
    simpl. lia.
  - destruct (bool_decide (ge_result ge = Some "white"%string)),
      (bool_decide (ge_result ge = Some "black"%string)),
      (bool_decide (pid = white_player game)); simpl; lia.
Qed.

(** X17: the handler keeps every profile's counters consistent: the number
    of games played equals wins plus losses plus draws. *)
Theorem handler_keeps_stats_ok now req st :
  statsOk st → statsOk (handler now req st).2.
Proof.
  intros Hok.
  destruct (handler_cases now req st)
    as [(? & ? & _ & _ & Hp)|(uid & game & mv & _ & _ & _ & _ & Heq)].
  { unfold statsOk. by rewrite Hp. }
  rewrite Heq. cbn [snd]. unfold statsOk, accept. cbn [profiles].
  destruct (gameEnd (body req)) as [ge|]; [|done].
  by do 2 apply updateProfile_stats.
Qed.

Lemma store0_statsOk : statsOk store0.
Proof.
  intros u p H. unfold store0 in H. cbn [profiles] in H.
  apply lookup_insert_Some in H as [[_ <-]|[_ H]]; [done|].
  by apply lookup_singleton_Some in H as [_ <-].
Qed.

Lemma handler_keeps_stats_ok_witness :
  statsOk (handler 5 (authenticated alice resignBody) store0).2.
Proof. exact (handler_keeps_stats_ok _ _ _ store0_statsOk). Defined.

(** ** The limiter keeps one counter per participant *)

Lemma checkRateLimit_other now uid other rl :
  other ≠ uid → (checkRateLimit now uid rl).2 !! other = rl !! other.
Proof.
  intros Hne. unfold checkRateLimit.
  destruct (rl !! uid) as [e|]; [|cbn [snd]; by rewrite lookup_insert_ne].
  destruct (resetAt e <? now); [cbn [snd]; by rewrite lookup_insert_ne|].
  destruct (RATE_LIMIT <=? count e); cbn [snd];
    [done|by rewrite lookup_insert_ne].
Qed.

Lemma checkRateLimit_own now uid rl rl' :
  rl !! uid = rl' !! uid →
  (checkRateLimit now uid rl).1 = (checkRateLimit now uid rl').1.
Proof.
  intros H. unfold checkRateLimit. rewrite <- H.
  destruct (rl !! uid) as [e|]; [|done].
  destruct (resetAt e <? now); [done|].
  by destruct (RATE_LIMIT <=? count e).
Qed.

Lemma submit_rateLimitMap now uid bd st :
  rateLimitMap (submit now uid bd st).2
  = (checkRateLimit now uid (rateLimitMap st)).2.
Proof.
  destruct (submit_cases now uid bd st)
    as [_|(game & mv & _ & _ & _ & ->)]; [|done].
  unfold submit.
  destruct (checkRateLimit now uid (rateLimitMap st)) as [[] rl] eqn:Hrl;
    cbn [negb snd].
  2:{ cbn [snd]. unfold checkRateLimit in Hrl.
      destruct (rateLimitMap st !! uid) as [e|]; [|done].
      destruct (resetAt e <? now); [done|].
      destruct (RATE_LIMIT <=? count e); [|done]. by injection Hrl as <-. }
  repeat (case_match; try done).
Qed.

(** X18: the limiter keeps one counter per participant: a request made by
    one participant, accepted or not, never changes whether the limiter lets
    another participant's next request through. *)
Theorem rate_limit_isolated now t uid other bd st :
  other ≠ uid →
  (checkRateLimit t uid (rateLimitMap (handler now (authenticated other bd) st).2)).1
  = (checkRateLimit t uid (rateLimitMap st)).1.
Proof.
  intros Hne.
  change (handler now (authenticated other bd) st)
    with (submit now other bd st).
  apply checkRateLimit_own. rewrite submit_rateLimitMap.
  by apply checkRateLimit_other.
Qed.

Lemma rate_limit_isolated_witness :
  (checkRateLimit 7 alice
     (rateLimitMap (handler 5 (authenticated bob nullBody) store0).2)).1
  = (checkRateLimit 7 alice (rateLimitMap store0)).1.
Proof. apply rate_limit_isolated. discriminate. Defined.
End HandlerInvariants.

(** ** Connection status *)

Section Connection.
Import Stability.

Lemma tick_offline_step t0 t c :
  t0 ≠ 0 → offlineSince c = Some t0 → status c ≠ connected →
  tick false t t c =
    {| status := if 30000 <? t - t0 then disconnected else status c;
       offlineSince := Some t0 |}.
Proof.
  intros Ht0 Hs Hst. unfold tick. rewrite Hs. simpl.
  rewrite bool_decide_eq_false_2 by done.
  replace (t0 =? 0) with false by (symmetry; by apply Z.eqb_neq).
  simpl. rewrite Hs. destruct (30000 <? t - t0); [done|].
  destruct c. simpl in *. by subst.
Qed.

(** X19: after the browser has gone offline at time [t0], checks made
    while it stays offline keep the status at "reconnecting" as long as none
    of them comes more than 30 s after [t0]; from the first such check on the
    status is "disconnected", and later checks leave the state as it is. *)
Theorem offline_grace_window t0 ts c :
  t0 ≠ 0 →
  offlineTicks ts (handleOffline t0 c) =
    {| status := if existsb (fun t => 30000 <? t - t0) ts
                 then disconnected else reconnecting;
       offlineSince := Some t0 |}.
Proof.
  intros Ht0. unfold handleOffline.
  assert (∀ st, st ≠ connected →
            offlineTicks ts {| status := st; offlineSince := Some t0 |} =
              {| status := if existsb (fun t => 30000 <? t - t0) ts
                           then disconnected else st;
                 offlineSince := Some t0 |}) as H; [|by apply H].
  induction ts as [|t ts IH]; intros st Hst; [done|].
  unfold offlineTicks in *. cbn [foldl existsb].
  rewrite (tick_offline_step t0) by done. cbn [status].
  destruct (30000 <? t - t0); simpl.
  - rewrite IH by done. by destruct (existsb _ ts).
  - by rewrite IH.
Qed.

Lemma offline_grace_window_witness :
  offlineTicks [2000; 31000; 31001; 32000] (handleOffline 1000 initial)
  = {| status := disconnected; offlineSince := Some 1000 |}
  ∧ offlineTicks [2000; 31000] (handleOffline 1000 initial)
    = {| status := reconnecting; offlineSince := Some 1000 |}.
Proof.
  split.
  - apply (offline_grace_window 1000 [2000; 31000; 31001; 32000] initial).
    discriminate.
  - apply (offline_grace_window 1000 [2000; 31000] initial). discriminate.
Defined.

(** X20: a check reports "disconnected" exactly when the offline period
    recorded before it has lasted more than 30 s, or the status was
    "disconnected" already and the browser is still offline; this holds even
    when the browser is online again at the time of the check, in which case
    the offline record is cleared and the next check restores "connected". *)
Theorem tick_disconnects_after_grace onLine now1 now2 c :
  (status (tick onLine now1 now2 c) = disconnected →
   status c = disconnected
   ∨ ∃ t0, offlineSince c = Some t0 ∧ t0 ≠ 0 ∧ 30000 < now2 - t0)
  ∧ (∀ t0, offlineSince c = Some t0 → t0 ≠ 0 → 30000 < now2 - t0 →
           status (tick onLine now1 now2 c) = disconnected)
  ∧ (∀ n1 n2, status c ≠ connected →
              tick true n1 n2 (tick true now1 now2 c) = initial).
Proof.
  destruct c as [st os]. unfold tick. cbn [status offlineSince].
  split_and!.
  - destruct (truthy os && (30000 <? now2 - default 0 os)) eqn:E.
    + intros _. right. apply andb_true_iff in E as [Ht Hlt%Z.ltb_lt].
      destruct os as [t0|]; [|done]. exists t0.
      simpl in *. apply negb_true_iff, Z.eqb_neq in Ht. done.
    + destruct onLine, st; simpl; try done; by left.
  - intros t0 -> Ht0 Hlt. simpl.
    replace (t0 =? 0) with false by (symmetry; by apply Z.eqb_neq).
    by replace (30000 <? now2 - t0) with true by (symmetry; by apply Z.ltb_lt).
  - intros n1 n2 Hst. simpl. rewrite bool_decide_eq_true_2 by done.
    by destruct (truthy os && (30000 <? now2 - default 0 os)).
Qed.

(** ** The countdown shown while reconnecting *)

(** X21: the countdown of the overlay stays between 0 and 30 once the
    offline time lies in the past, never increases as time passes, and as
    long as it shows more than 0 a check made at the same instant does not
    disconnect. *)
Theorem countdown_consistent now t0 c :
  t0 ≠ 0 → t0 ≤ now →
  offlineSince c = Some t0 → status c = reconnecting →
  0 ≤ Overlay.remaining now (Some t0) ≤ 30
  ∧ (∀ later, now ≤ later →
       Overlay.remaining later (Some t0) ≤ Overlay.remaining now (Some t0))
  ∧ (0 < Overlay.remaining now (Some t0) →
     status (tick false now now c) = reconnecting).
Proof.
  intros Ht0 Hle Hs Hst. unfold Overlay.remaining. simpl.
  replace (t0 =? 0) with false by (symmetry; by apply Z.eqb_neq). simpl.
  assert (0 ≤ (now - t0) / 1000) by (apply Z.div_pos; lia).
  split_and!; [lia..| |].
  - intros later Hl.
    assert ((now - t0) / 1000 ≤ (later - t0) / 1000)
      by (apply Z.div_le_mono; lia).
    lia.
  - intros Hpos. rewrite (tick_offline_step t0) by (done || congruence).
    simpl. rewrite Hst.
    assert ((now - t0) / 1000 < 30) as Hel by lia.
    assert (now - t0 < 30000).
    { destruct (decide (now - t0 < 30000)) as [|Hge]; [done|].
      assert (30 ≤ (now - t0) / 1000)
        by (apply Z.div_le_lower_bound; lia).
      lia. }
    by replace (30000 <? now - t0) with false by (symmetry; apply Z.ltb_ge; lia).
Qed.

Lemma countdown_consistent_witness :
  0 ≤ Overlay.remaining 13500 (Some 1000) ≤ 30
  ∧ (∀ later, 13500 ≤ later →
       Overlay.remaining later (Some 1000)
       ≤ Overlay.remaining 13500 (Some 1000))
  ∧ (0 < Overlay.remaining 13500 (Some 1000) →
     status (tick false 13500 13500 (handleOffline 1000 initial))
     = reconnecting).
Proof.
  apply (countdown_consistent 13500 1000 (handleOffline 1000 initial));
    [discriminate|lia|reflexivity|reflexivity].
Defined.
End Connection.

(** ** Retrying a submission *)

Section Retry.
Import Stability.

Lemma attempt_spec fn maxR :
  ∀ fuel k, (maxR - k < fuel)%nat →
  ∃ ok ds,
    attempt fuel fn maxR k = Some (ok, ds)
    ∧ (length ds ≤ maxR - k)%nat
    ∧ ds = backoff <$> seq k (length ds)
    ∧ (∀ i, (k ≤ i < k + length ds)%nat → fn i = false)
    ∧ fn (k + length ds)%nat = ok
    ∧ (ok = false → (k ≤ maxR)%nat → length ds = (maxR - k)%nat).
Proof.
  induction fuel as [|f IH]; intros k Hfuel; [lia|]. cbn [attempt].
  destruct (fn k) eqn:Hk.
  { exists true, []. simpl. rewrite Nat.add_0_r.
    split_and!; try done; try lia; intros i Hi; lia. }
  case_bool_decide as Hlt.
  - destruct (IH (S k)) as (ok & ds & -> & Hlen & Hds & Hfail & Hlast & Hex);
      [lia|].
    exists ok, (backoff k :: ds). cbn [mbind option_bind fst snd length].
    split_and!; try done.
    + lia.
    + cbn [seq fmap list_fmap]. by rewrite <- Hds.
    + intros i Hi. destruct (decide (i = k)) as [->|]; [done|].
      apply Hfail. lia.
    + by replace (k + S (length ds))%nat with (S k + length ds)%nat by lia.
    + intros Hok Hk'. specialize (Hex Hok). lia.
  - exists false, []. simpl. rewrite Nat.add_0_r.
    split_and!; try done; try lia; intros i Hi; lia.
Qed.

(** X22: [submitMove] calls [fn] until a call resolves or [maxRetries]
    retries have failed: it returns true exactly when one of the first
    [maxRetries + 1] calls resolves, stops at the first that does, waits
    min(500·2^i, 4000) ms before retry number i + 1, and leaves no entry for
    the move in the pending map. *)
Theorem submitMove_retries moveId fn maxR pendingMoves :
  ∃ ok ds,
    submitMove (S maxR) moveId fn maxR pendingMoves
    = Some (ok, ds, delete moveId pendingMoves)
    ∧ (ok = true ↔ ∃ i, (i ≤ maxR)%nat ∧ fn i = true)
    ∧ (length ds ≤ maxR)%nat
    ∧ ds = backoff <$> seq 0 (length ds)
    ∧ (∀ i, (i < length ds)%nat → fn i = false)
    ∧ fn (length ds) = ok
    ∧ Forall (fun d => 500 ≤ d ≤ 4000) ds.
Proof.
  destruct (attempt_spec fn maxR (S maxR) 0)
    as (ok & ds & Hat & Hlen & Hds & Hfail & Hlast & Hex); [lia|].
  exists ok, ds. unfold submitMove. rewrite Hat.
  cbn [mbind option_bind fst snd]. rewrite delete_insert_eq.
  simpl in Hlast. split_and!; try done.
  - split.
    + intros ->. exists (length ds). split; [lia|done].
    + intros (i & Hi & Hfi). destruct ok; [done|].
      specialize (Hex eq_refl ltac:(lia)).
      destruct (decide (i < length ds)%nat) as [Hlt|Hge].
      * rewrite Hfail in Hfi by lia. done.
      * assert (i = length ds) as -> by lia. congruence.
  - lia.
  - intros i Hi. apply Hfail. lia.
  - rewrite Hds. apply Forall_fmap, Forall_forall. intros i _. simpl.
    unfold backoff.
    pose proof (Z.pow_pos_nonneg 2 (Z.of_nat i)). lia.
Qed.
End Retry.

(** ** The board only emits legal moves *)

Section BoardViewProps.
Import BoardView.

Lemma getLegalMoves_from s frm legal m :
  getLegalMoves s frm = Some legal → m ∈ legal →
  from m = frm ∧ color (piece m) = turn s.
Proof.
  intros Hlegal Hm.
  destruct (getLegalMoves_elem_of _ _ _ _ Hlegal Hm) as (raw & Hraw & Hin & _).
  destruct (getRawMoves_sound _ _ _ _ Hraw Hin) as (pc & Hpc & Hturn & Hshape).
  rewrite (RawMove_from _ _ _ _ Hshape), (RawMove_piece _ _ _ _ Hshape). done.
Qed.

Lemma guard_turn pr :
  guard pr = true → turn (gameState pr) = playerColor pr.
Proof.
  unfold guard. intros [[_ H]%andb_true_iff _]%andb_true_iff.
  by apply bool_decide_eq_true in H.
Qed.

Lemma select_consistent pr p st otherwise :
  length (board (gameState pr)) = 8%nat →
  consistent pr st → consistent pr otherwise →
  promotionMove otherwise = promotionMove st →
  consistent pr (select pr p st otherwise).
Proof.
  intros Hrows Hst Hoth Hpm. unfold select.
  destruct (readSq _ _ _) as [[pc|]|] eqn:Hsq; try done.
  case_bool_decide; [|done].
  destruct (getLegalMoves_total (gameState pr) p) as [legal Hlegal];
    [lia|by apply readSq_Some_row in Hsq; lia|].
  rewrite Hlegal. split; [done|]. apply Hst.
Qed.

Lemma step_consistent pr ev st :
  length (board (gameState pr)) = 8%nat →
  consistent pr st →
  consistent pr (step pr ev st).1
  ∧ ∀ m, (step pr ev st).2 = Some m → emittedOk pr ev m.
Proof.
  intros Hrows Hst. destruct ev as [r c|t]; cbn [step].
  - unfold handleClick. destruct (guard pr) eqn:Hg; cbn [negb]; [|done].
    set (p := toBoard _ r c).
    assert (consistent pr {| selectedSquare := None; legalMoves := [];
                             promotionMove := promotionMove st |}) as Hcl.
    { split; [done|]. apply Hst. }
    destruct (selectedSquare st) as [sel|] eqn:Hsel.
    2:{ split; [|done]. by apply select_consistent. }
    destruct (List.find (hits p) (legalMoves st)) as [move|] eqn:Hfind.
    2:{ split; [|done]. by apply select_consistent. }
    destruct (0 <? length _)%nat eqn:Hpromo; cbn [fst snd].
    { split; [|done]. split; [done|]. done. }
    split; [done|]. intros m [= <-].
    apply List.find_some in Hfind as [Hin%list_elem_of_In Hhit].
    destruct Hst as [Hlegal _]. rewrite Hsel in Hlegal.
    destruct (getLegalMoves_from _ _ _ _ Hlegal Hin) as [Hfrom Hcol].
    split; [done|]. split; [by rewrite Hcol, guard_turn|].
    split; [exists (legalMoves st); by rewrite Hfrom|].
    apply Nat.ltb_ge in Hpromo.
    destruct (promotion move) as [x|] eqn:Epr; [|done].
    assert (move ∈ List.filter (fun m => hits p m && promotes m)
                     (legalMoves st)) as Hf.
    { apply list_elem_of_In, List.filter_In. split; [by apply list_elem_of_In|].
      unfold promotes. by rewrite Hhit, Epr. }
    destruct (List.filter _ _); [by apply elem_of_nil in Hf|simpl in *; lia].
  - unfold handlePromotion.
    destruct (promotionMove st) as [[f t']|] eqn:Hpm; [|done].
    destruct (getLegalMoves (gameState pr) f) as [moves|] eqn:Hlegal; [|done].
    cbn [fst snd]. split.
    { split; [apply Hst|done]. }
    intros m Hfind.
    apply List.find_some in Hfind as [Hin%list_elem_of_In Hhit].
    apply andb_true_iff in Hhit as [_ Hpr%bool_decide_eq_true].
    destruct (getLegalMoves_from _ _ _ _ Hlegal Hin) as [Hfrom Hcol].
    assert (guard pr = true) as Hg by (apply Hst; congruence).
    split; [done|]. split; [by rewrite Hcol, guard_turn|].
    split; [exists moves; by rewrite Hfrom|done].
Qed.

Lemma run_emits pr evs st :
  length (board (gameState pr)) = 8%nat →
  consistent pr st →
  ∀ ev m, (ev, m) ∈ (run pr evs st).2 → emittedOk pr ev m.
Proof.
  intros Hrows. revert st. induction evs as [|ev rest IH]; intros st Hst ev' m.
  { simpl. by intros ?%elem_of_nil. }
  cbn [run]. destruct (step_consistent pr ev st Hrows Hst) as [Hst1 Hout].
  destruct (step pr ev st) as [st1 out]. cbn [fst snd] in *.
  specialize (IH st1 Hst1 ev' m).
  destruct (run pr rest st1) as [st2 outs]. cbn [snd] in *.
  destruct out as [m0|]; [|done].
  intros [[= -> ->]|Hin]%elem_of_cons; [by apply Hout|by apply IH].
Qed.

(** X23: under unchanged props and on a board with eight rows, every move
    the board hands to [onMove] is a legal move of the position shown, for a
    piece of the player's own colour, emitted while the board is interactive,
    it is the player's turn and the game is active; a click never emits a
    promotion move, and the promotion dialog emits the move promoting to the
    piece chosen. *)
Theorem board_emits_legal_moves pr evs ev m :
  length (board (gameState pr)) = 8%nat →
  (ev, m) ∈ (run pr evs initial).2 →
  emittedOk pr ev m.
Proof.
  intros Hrows. apply run_emits; [done|]. split; done.
Qed.

Lemma board_emits_legal_moves_witness :
  (run promotionProps [Click 1 0; Click 0 0; Promote Knight] initial).2
  = [(Promote Knight,
      withPromotion Knight
        (plain (pos 1 0) {| type := Pawn; color := White |} (pos 0 0) None))]
  ∧ emittedOk promotionProps (Promote Knight)
      (withPromotion Knight
         (plain (pos 1 0) {| type := Pawn; color := White |} (pos 0 0) None)).
Proof.
  split; [vm_compute; reflexivity|].
  apply (board_emits_legal_moves promotionProps
           [Click 1 0; Click 0 0; Promote Knight]).
  - reflexivity.
  - vm_compute. left.
Defined.
End BoardViewProps.

(** ** Algebraic notation identifies a move *)

Lemma posToAlgebraic_inBounds p :
  inBounds (row p) (col p) = true →
  ∃ f r, posToAlgebraic p = String f (String r EmptyString)
         ∧ col p = Z.of_N (Ascii.N_of_ascii f) - 97
         ∧ row p = 56 - Z.of_N (Ascii.N_of_ascii r).
Proof.
  destruct p as [r c]. intros [Hr Hc]%inBounds_spec. simpl in *.
  assert (r = 0 ∨ r = 1 ∨ r = 2 ∨ r = 3 ∨ r = 4 ∨ r = 5 ∨ r = 6 ∨ r = 7)
    as Hrs by lia.
  assert (c = 0 ∨ c = 1 ∨ c = 2 ∨ c = 3 ∨ c = 4 ∨ c = 5 ∨ c = 6 ∨ c = 7)
    as Hcs by lia.
  destruct Hrs as [->|[->|[->|[->|[->|[->|[->| ->]]]]]]];
    destruct Hcs as [->|[->|[->|[->|[->|[->|[->| ->]]]]]]];
    do 2 eexists; (split; [vm_compute; reflexivity|]); split; reflexivity.
Qed.

Lemma posToAlgebraic_inj p q :
  inBounds (row p) (col p) = true → inBounds (row q) (col q) = true →
  posToAlgebraic p = posToAlgebraic q → p = q.
Proof.
  intros Hp Hq Heq.
  destruct (posToAlgebraic_inBounds p Hp) as (f1 & r1 & E1 & Hc1 & Hr1).
  destruct (posToAlgebraic_inBounds q Hq) as (f2 & r2 & E2 & Hc2 & Hr2).
  rewrite E1, E2 in Heq. injection Heq as -> ->.
  destruct p, q. simpl in *. congruence.
Qed.

Lemma toUpperCase_code_inj t1 t2 :
  toUpperCase (Client.code t1) = toUpperCase (Client.code t2) → t1 = t2.
Proof. destruct t1, t2; vm_compute; intros [=]; done. Qed.

(** X24: the algebraic notation of a move on the board determines its
    origin, its destination and its promotion piece. *)
Theorem moveToAlgebraic_inj m1 m2 :
  onGrid m1 → onGrid m2 →
  moveToAlgebraic m1 = moveToAlgebraic m2 →
  from m1 = from m2 ∧ to m1 = to m2 ∧ promotion m1 = promotion m2.
Proof.
  intros [Hf1 Ht1] [Hf2 Ht2]. unfold moveToAlgebraic.
  destruct (posToAlgebraic_inBounds _ Hf1) as (a1 & b1 & E1 & Hc1 & Hr1).
  destruct (posToAlgebraic_inBounds _ Ht1) as (c1 & d1 & F1 & Hc1' & Hr1').
  destruct (posToAlgebraic_inBounds _ Hf2) as (a2 & b2 & E2 & Hc2 & Hr2).
  destruct (posToAlgebraic_inBounds _ Ht2) as (c2 & d2 & F2 & Hc2' & Hr2').
  rewrite E1, E2, F1, F2. simpl. intros [= -> -> -> -> Hpromo].
  split; [destruct (from m1), (from m2); simpl in *; congruence|].
  split; [destruct (to m1), (to m2); simpl in *; congruence|].
  destruct (promotion m1) as [t1|], (promotion m2) as [t2|]; try done.
  - f_equal. by apply toUpperCase_code_inj.
  - by destruct t1.
  - by destruct t2.
Qed.

Lemma moveToAlgebraic_inj_witness :
  moveToAlgebraic knightPromotion = "a7a8N"%string
  ∧ moveToAlgebraic knightOut = "g1f3"%string
  ∧ from knightPromotion = from knightPromotion
  ∧ to knightPromotion = to knightPromotion
  ∧ promotion knightPromotion = promotion knightPromotion.
Proof.
  split; [vm_compute; reflexivity|]. split; [vm_compute; reflexivity|].
  apply (moveToAlgebraic_inj knightPromotion knightPromotion);
    [split; reflexivity..|reflexivity].
Defined.

(** ** Rank tiers and leaderboard filters agree *)

(** X25: for every integer rating, a rank filter of the leaderboard other
    than "all" selects a player exactly when [getRankTier] gives that player
    the tier the filter is labelled with; so the tiers partition the
    ratings at 1000, 1200, 1400, 1600 and 1800. *)
Theorem rank_filter_matches_tier f elo :
  f ∈ Leaderboard.RANK_FILTERS → Leaderboard.value f ≠ "all"%string →
  Leaderboard.selects f elo = true ↔ name (getRankTier elo) = Leaderboard.label f.
Proof.
  intros Hf Hall. unfold Leaderboard.RANK_FILTERS in Hf.
  assert (∀ x y, (x <=? y) = true ∨ (x <=? y) = false) as Hleb
    by (intros x y; destruct (x <=? y); auto).
  repeat (apply elem_of_cons in Hf as [->|Hf]);
    [done| | | | | | |by apply elem_of_nil in Hf];
    unfold Leaderboard.selects, getRankTier;
    cbn [Leaderboard.min Leaderboard.max Leaderboard.label];
    destruct (Hleb 1800 elo) as [E1|E1], (Hleb 1600 elo) as [E2|E2],
      (Hleb 1400 elo) as [E3|E3], (Hleb 1200 elo) as [E4|E4],
      (Hleb 1000 elo) as [E5|E5];
    rewrite ?E1, ?E2, ?E3, ?E4, ?E5; cbn [name andb];
    rewrite ?Z.leb_le, ?Z.leb_gt in E1, E2, E3, E4, E5; try lia;
    split; intros H; try done;
    try (apply Z.leb_le; lia); apply Z.leb_le in H; lia.
Qed.

Lemma rank_filter_matches_tier_witness :
  Leaderboard.selects
    {| Leaderboard.value := "gold"; Leaderboard.label := "Gold";
       Leaderboard.min := Some 1200; Leaderboard.max := Some 1399 |} 1399
  = true
  ↔ name (getRankTier 1399) = "Gold"%string.
Proof.
  apply (rank_filter_matches_tier
           {| Leaderboard.value := "gold"; Leaderboard.label := "Gold";
              Leaderboard.min := Some 1200; Leaderboard.max := Some 1399 |}).
  - do 4 right. left.
  - discriminate.
Defined.

(** ** Game-end claims built by the client *)

Section ClientClaims.
Import Server GameEnd.




(** X27: when the move made optimistically by [handleMove] ends the game
    on the board, the claim sent along names the mover as winner of a
    checkmate, with 16 points going to the mover, and a draw without rating
    change for stalemate and the hundred-half-move draw; while the game stays
    active no claim is sent. *)
Theorem move_claim_follows_board s m s' :
  makeMove s m = Some s' →
  moveClaim s' =
    match status s' with
    | checkmate =>
        Some {| ge_result := Some (match turn s with
                                   | White => "white" | Black => "black"
                                   end)%string;
                eloChangeWhite := Some (match turn s with
                                        | White => 16 | Black => -16 end);
                eloChangeBlack := Some (match turn s with
                                        | White => -16 | Black => 16 end) |}
    | stalemate | draw =>
        Some {| ge_result := Some "draw"%string;
                eloChangeWhite := Some 0; eloChangeBlack := Some 0 |}
    | _ => None
    end
  ∧ (status s' = checkmate → winner s' = Some (turn s))
  ∧ status s' ≠ resigned.
Proof.
  intros Hmk.
  apply makeMove_inv in Hmk as (nb & legal & _ & _ & Hcases).
  destruct Hcases as [(_ & _ & ->)|[(_ & _ & ->)|[(_ & _ & ->)|(_ & _ & ->)]]];
    unfold moveClaim; simpl; try done.
  split; [|done]. destruct (turn s); vm_compute; reflexivity.
Qed.

Lemma move_claim_follows_board_witness :
  moveClaim foolsMateFinal
  = Some {| ge_result := Some "black"%string;
            eloChangeWhite := Some (-16); eloChangeBlack := Some 16 |}
  ∧ (status foolsMateFinal = checkmate → winner foolsMateFinal = Some Black)
  ∧ status foolsMateFinal ≠ resigned.
Proof.
  exact (move_claim_follows_board (foolsMate 3) (foolsMateMove 4)
           foolsMateFinal ltac:(vm_compute; reflexivity)).
Defined.
End ClientClaims.

(** ** Profile counters and the history filters agree *)

Section HistoryFilters.
Import Server.



End HistoryFilters.

(** ** Replaying what the handler has stored *)

Section StoredMoves.
Import Server.

Lemma inRange_toZ x z : inRange x → Num.toZ x = Some z → 0 ≤ z < 8.
Proof.
  unfold inRange, Num.toZ, Qle. destruct x as [n d]. cbn [Qnum Qden].
  intros [H0 H7]. case_match eqn:E; [|done]. intros [= <-].
  apply Z.eqb_eq in E. pose proof (Z.div_mod n (Z.pos d)). nia.
Qed.

Lemma coordOk_square p :
  coordOk p = true →
  (∀ x, rrow p = Some x ∨ rcol p = Some x → is_Some (Num.toZ x)) →
  ∃ f, squareOf (reqPos (Some p)) = Some f ∧ inBounds (row f) (col f) = true.
Proof.
  intros Hok Hint. destruct (coordOk_range p Hok) as [Hr Hc].
  unfold coordOk in Hok. destruct p as [[r|] [c|]]; try done.
  simpl in *.
  destruct (Hint r) as [zr Hzr]; [by left|].
  destruct (Hint c) as [zc Hzc]; [by right|].
  exists (pos zr zc). unfold squareOf, coord. simpl. rewrite Hzr, Hzc.
  split; [done|]. apply inBounds_spec. simpl.
  pose proof (inRange_toZ _ _ Hr Hzr). pose proof (inRange_toZ _ _ Hc Hzc).
  lia.
Qed.

Lemma validate_wellFormed now mv :
  validateMoveStructure (Some mv) = true → integral mv →
  wellFormed (entryOf now mv).
Proof.
  unfold validateMoveStructure, wellFormed, entryOf, integral. simpl.
  destruct (rfrom mv) as [f|]; [|done]. destruct (rto mv) as [t|]; [|done].
  intros [[Hf Ht]%andb_true_iff Hp]%andb_true_iff Hint.
  split; [apply coordOk_square; [done|apply Hint; by left]|].
  split; [apply coordOk_square; [done|apply Hint; by right]|].
  destruct (rpromotion mv) as [pr|]; [|done].
  case_bool_decide; [done|]. by apply bool_decide_eq_true in Hp.
Qed.

(** The descriptors that the page builds carry integers: [moveData] copies
    the coordinates of an engine move, and [endGame] sends a8-a8. *)
Lemma moveData_integral m : integral (GameEnd.moveData m).
Proof.
  intros p [[= <-]|[= <-]] x [[= <-]|[= <-]]; rewrite toZ_ofZ; by eexists.
Qed.

Lemma endGameBody_integral gameRow result mv :
  move (GameEnd.endGameBody gameRow result) = Some mv → integral mv.
Proof.
  intros [= <-] p [[= <-]|[= <-]] x [[= <-]|[= <-]]; by eexists.
Qed.

Lemma wellFormed_row e : wellFormed e → rowOnBoard e.
Proof.
  intros [(f & [Hr _]%squareOf_Some & Hf%inBounds_spec) _].
  exists (row f). split; [done|lia].
Qed.

Lemma replayStep_history s e s' :
  Client.replayStep (Some s) e = Some s' →
  (length (moveHistory s') ≤ S (length (moveHistory s)))%nat.
Proof.
  unfold Client.replayStep. cbn [mbind option_bind].
  intros (lm & _ & H)%bind_Some. destruct lm as [l|].
  - apply makeMove_fields in H as (_ & _ & _ & _ & _ & _ & ->).
    rewrite length_app. simpl. lia.
  - injection H as <-. lia.
Qed.

Lemma replayMoves_history es s :
  Client.replayMoves es = Some s →
  (length (moveHistory s) ≤ length es)%nat.
Proof.
  revert s. induction es as [|e es IH] using rev_ind; intros s.
  - intros [= <-]. done.
  - rewrite replayMoves_snoc, length_app. simpl.
    destruct (Client.replayMoves es) as [s0|] eqn:E; [|done].
    intros H%replayStep_history. specialize (IH s0 eq_refl). lia.
Qed.

(** A list of entries that name squares of the board replays without
    fault. *)
Lemma wellFormed_replay rw :
  Forall wellFormed (moves rw) →
  ∃ s s',
    Client.replayMoves (moves rw) = Some s ∧ Reachable s
    ∧ (length (moveHistory s) ≤ length (moves rw))%nat
    ∧ Client.applyRowToState rw = Some s'
    ∧ board s' = board s ∧ turn s' = turn s
    ∧ moveHistory s' = moveHistory s.
Proof.
  intros Hwf.
  destruct (replayMoves_reachable (moves rw)) as (s & Hs & Hr).
  { eapply Forall_impl; [exact Hwf|]. apply wellFormed_row. }
  unfold Client.applyRowToState. rewrite Hs. cbn [mbind option_bind].
  exists s. destruct (bool_decide (row_status rw = "completed"%string));
    eexists; split_and!; try done; by apply replayMoves_history.
Qed.

(** X29: when every stored move list names squares of the board and a
    request carries integer coordinates, as those built by [handleMove] and
    [endGame] do, every move list stored after the handler's call still
    names squares of the board, and replays without fault: [replayMoves]
    returns a state reached by legal play, having skipped the entries that
    match no legal move, and [applyRowToState] shows that position. *)
Theorem stored_moves_replay_legally now req st :
  gamesOnBoard st →
  (∀ mv, move (body req) = Some mv → integral mv) →
  ∀ g rw, games (handler now req st).2 !! g = Some rw →
    Forall wellFormed (moves rw)
    ∧ ∃ s s',
        Client.replayMoves (moves rw) = Some s ∧ Reachable s
        ∧ (length (moveHistory s) ≤ length (moves rw))%nat
        ∧ Client.applyRowToState rw = Some s'
        ∧ board s' = board s ∧ turn s' = turn s
        ∧ moveHistory s' = moveHistory s.
Proof.
  intros Hok Hint g rw Hrw.
  assert (Forall wellFormed (moves rw)) as Hwf;
    [|split; [done|by apply wellFormed_replay]].
  destruct (handler_cases now req st)
    as [(? & ? & _ & Hg & _)|(uid & game & mv & _ & Hp & Hmv & Hvalid & Heq)].
  { rewrite Hg in Hrw. by eapply Hok. }
  rewrite Heq in Hrw. cbn [snd] in Hrw. unfold accept in Hrw.
  cbn [games] in Hrw. destruct Hp as [_ _ Hgame _ _ _].
  destruct (decide (gameId (body req) = g)) as [<-|Hne].
  2:{ rewrite lookup_insert_ne in Hrw by done. by eapply Hok. }
  rewrite lookup_insert_eq in Hrw. injection Hrw as <-.
  unfold updatedRow. cbn [moves].
  apply Forall_app. split; [by eapply Hok|]. apply Forall_singleton.
  apply validate_wellFormed; [by rewrite <- Hmv|by apply Hint].
Qed.

Lemma store0_gamesOnBoard : gamesOnBoard store0.
Proof.
  intros g rw H. unfold store0 in H. cbn [games] in H.
  apply lookup_singleton_Some in H as [_ <-]. constructor.
Qed.

Lemma stored_moves_replay_legally_witness :
  ∃ rw s,
    games (handler 5 (authenticated alice f3Body) store0).2 !! "g1"%string
    = Some rw
    ∧ length (moves rw) = 1%nat
    ∧ Client.replayMoves (moves rw) = Some s ∧ Reachable s
    ∧ moveHistory s = [foolsMateMove 1].
Proof.
  assert (∃ rw, games (handler 5 (authenticated alice f3Body) store0).2
                  !! "g1"%string = Some rw) as [rw Hrw]
    by (vm_compute; eauto).
  destruct (stored_moves_replay_legally 5 (authenticated alice f3Body) store0
              store0_gamesOnBoard) with (g := "g1"%string) (rw := rw)
    as (_ & s & _ & Hs & Hreach & _).
  { intros mv [= <-]. apply moveData_integral. }
  { exact Hrw. }
  exists rw, s. split; [exact Hrw|].
  vm_compute in Hrw. injection Hrw as <-.
  split; [reflexivity|]. split; [exact Hs|]. split; [exact Hreach|].
  vm_compute in Hs. injection Hs as <-. reflexivity.
Defined.

Lemma getLegalMoves_to_ne s frm legal m :
  getLegalMoves s frm = Some legal → m ∈ legal →
  ¬ (row (to m) = row frm ∧ col (to m) = col frm).
Proof.
  intros Hlegal Hm.
  destruct (getLegalMoves_elem_of _ _ _ _ Hlegal Hm) as (raw & Hraw & Hin & _).
  destruct (getRawMoves_geometry _ _ _ _ Hraw Hin) as (pc & Hpc & _ & Hgeo).
  by eapply Geometry_to_ne.
Qed.

Lemma findLegal_same_square s e lm :
  Wire.to e = Wire.from e → Client.findLegal s e = Some lm → lm = None.
Proof.
  intros Heq. unfold Client.findLegal.
  intros (legal & Hlegal & [= <-])%bind_Some.
  destruct (List.find _ legal) as [l|] eqn:Ef; [|done].
  apply List.find_some in Ef as [Hl%list_elem_of_In Hmatch].
  exfalso. unfold Client.getLegalMovesAt in Hlegal.
  destruct (Num.toZ (Wire.row (Wire.from e))) as [r|] eqn:Er; [|done].
  destruct (Num.toZ (Wire.col (Wire.from e))) as [c|] eqn:Ec.
  2:{ apply bind_Some in Hlegal as (_ & _ & [= <-]). by apply elem_of_nil in Hl. }
  apply (getLegalMoves_to_ne _ _ _ _ Hlegal Hl). simpl.
  rewrite (matchesEntry_square e l (pos r c)) in Hmatch
    by (rewrite Heq; unfold squareOf; by rewrite Er, Ec).
  by apply andb_true_iff in Hmatch
    as [[Hr%Z.eqb_eq Hc%Z.eqb_eq]%andb_true_iff _].
Qed.

(** X30: an entry whose destination is its origin, such as the descriptor
    a8-a8 that [endGame] sends along with a resignation or timeout claim,
    matches no legal move: appending it to a stored list does not change the
    replayed state. *)
Theorem replay_skips_placeholder es e :
  Forall wellFormed es → wellFormed e →
  Wire.to e = Wire.from e →
  Client.replayMoves (es ++ [e]) = Client.replayMoves es.
Proof.
  intros Hes He Heq.
  destruct (replayMoves_reachable es) as (s & Hs & Hr).
  { eapply Forall_impl; [exact Hes|]. apply wellFormed_row. }
  rewrite replayMoves_snoc, Hs. unfold Client.replayStep.
  cbn [mbind option_bind].
  destruct (getLegalMovesAt_total s e Hr (wellFormed_row e He))
    as (legal & Hlegal & _).
  destruct (Client.findLegal s e) as [lm|] eqn:Ef.
  - by rewrite (findLegal_same_square s e lm Heq Ef).
  - unfold Client.findLegal in Ef. by rewrite Hlegal in Ef.
Qed.

Lemma wellFormed_entry fr fc tr tc :
  inBounds fr fc = true → inBounds tr tc = true →
  wellFormed (entry fr fc tr tc).
Proof.
  intros Hf Ht. split_and!; [..|done].
  - exists (pos fr fc). by rewrite <- (squareOf_toWire (pos fr fc)) at 1.
  - exists (pos tr tc). by rewrite <- (squareOf_toWire (pos tr tc)) at 1.
Qed.

Lemma replay_skips_placeholder_witness :
  Client.replayMoves resignedEntries = Client.replayMoves foolsMateEntries.
Proof.
  apply (replay_skips_placeholder foolsMateEntries (entry 0 0 0 0)).
  - repeat (constructor; [by apply wellFormed_entry|]). constructor.
  - by apply wellFormed_entry.
  - reflexivity.
Defined.
End StoredMoves.
